(** * Relational graph attention (RGATConv) and the DistMult decoder (RGAT)

    A shallow embedding of [framework/models/rgat.py] over exact real
    arithmetic.

    - Tensors are nested lists of reals; a per-edge tensor is a list with
      one entry per edge.  Sizes, node numbers and relation numbers are
      natural numbers.
    - Exceptions are values of [exn]; a method that can raise returns a
      [res].  The layer object [self] is a record; [message] and [forward]
      return it next to their result because they write the transient
      field [_alpha].
    - The tensor runtime (torch, torch_scatter, torch_geometric) is not
      part of the repository.  Its primitives are modelled by their
      documented meaning on well-shaped operands: gathers raise
      [IndexError] on an index that is out of range, every other primitive
      is a total function, and the statements below carry the shape
      conditions of the data model explicitly.  Edge lists are in COO form
      (a pair of index rows).
    - The memory found by [torch.Tensor], the Glorot draws and the mask
      sampled by dropout are inputs of the functions that consume them.
    - Floating-point rounding is not modelled: all results are statements
      about the exact values. *)

From Stdlib Require Import String Reals Lra Lia Bool Arith PeanoNat List Permutation.
Import ListNotations.

Set Implicit Arguments.

(** ** Exceptions *)

(** The [ValueError]s raised by the layer, one constructor per [raise]
    (the configuration errors of the specification). *)
Inductive value_error : Type :=
| BadAttentionMechanism   (* rgat.py:70  *)
| BadAttentionMode        (* rgat.py:75  *)
| AdditiveWithDimAbove1   (* rgat.py:80  *)
| DropoutWithMod          (* rgat.py:85  *)
| BasesAndBlocks          (* rgat.py:90  *)
| BlockOnLongFeatures.    (* rgat.py:201 *)

(** The [assert] statements of the layer. *)
Inductive assertion : Type :=
| BlocksNotMultiple       (* rgat.py:128 *)
| AlphaIsNone             (* rgat.py:178 *)
| LinEdgeIsNone.          (* rgat.py:225 *)

Inductive exn : Type :=
| ValueError (why : value_error)
| AssertionError (why : assertion)
| ZeroDivisionError       (* [%] and [//] by zero *)
| IndexError              (* a gather with an index out of range *)
| AttributeError          (* an attribute that was never assigned *)
| TypeError               (* an operand that is [None] *)
| RuntimeError.           (* operands of different dtypes *)

(** [inl] is a raised exception, [inr] a normal return. *)
Definition res (A : Type) : Type := (exn + A)%type.

Definition raise {A : Type} (x : exn) : res A := inl x.
Definition ret {A : Type} (a : A) : res A := inr a.
Definition bind {A B : Type} (m : res A) (f : A -> res B) : res B :=
  match m with
  | inl x => inl x
  | inr a => f a
  end.

Notation "x <- m ;; f" := (bind m (fun x => f))
  (at level 61, m at next level, right associativity).
Notation "' p <- m ;; f" := (bind m (fun p => f))
  (at level 61, p pattern, m at next level, right associativity).

(** ** Tensors *)

Abbreviation vector := (list R).
Abbreviation matrix := (list (list R)).
Abbreviation tensor3 := (list (list (list R))).
Abbreviation tensor4 := (list (list (list (list R)))).

Inductive dtype : Type := float | long.

(** A node-feature tensor with its element type. *)
Record features : Type := { x_dtype : dtype; rows : matrix }.

Definition map2 {A B C : Type} (f : A -> B -> C) (l1 : list A) (l2 : list B)
  : list C :=
  map (fun p => f (fst p) (snd p)) (combine l1 l2).

Definition Rsum (v : vector) : R := fold_right Rplus 0%R v.

Definition Rgtb (x y : R) : bool := if Rlt_dec y x then true else false.

Definition vadd (u v : vector) : vector := map2 Rplus u v.
Definition vmul (u v : vector) : vector := map2 Rmult u v.
Definition madd (a b : matrix) : matrix := map2 vadd a b.
Definition mmul (a b : matrix) : matrix := map2 vmul a b.
Definition dot (u v : vector) : R := Rsum (vmul u v).

Definition ncols (m : matrix) : nat := length (hd [] m).
Definition col (c : nat) (m : matrix) : vector := map (fun r => nth c r 0%R) m.

(** [v @ m] for a row vector [v]. *)
Definition vecmat (v : vector) (m : matrix) : vector :=
  map (fun c => dot v (col c m)) (seq 0 (ncols m)).

(** [torch.matmul(a, b)] on two matrices. *)
Definition matmul (a b : matrix) : matrix := map (fun r => vecmat r b) a.

(** [k] consecutive blocks of [n] entries: one row of [t.view(-1, k, n)]
    when the rows of [t] hold [k * n] entries. *)
Fixpoint blocks {A : Type} (k n : nat) (l : list A) : list (list A) :=
  match k with
  | O => []
  | S k' => firstn n l :: blocks k' n (skipn n l)
  end.

(** The sum of a list of vectors of width [n] (the zero vector when empty). *)
Definition vsum (n : nat) (l : list vector) : vector :=
  fold_right vadd (repeat 0%R n) l.

(** [torch.index_select(t, 0, index)] and [t[index]]. *)
Fixpoint index_select {A : Type} (t : list A) (index : list nat)
  : res (list A) :=
  match index with
  | [] => ret []
  | i :: index' =>
      match nth_error t i with
      | None => raise IndexError
      | Some a => l <- index_select t index' ;; ret (a :: l)
      end
  end.

(** [t[mask]] for a boolean mask over the first axis. *)
Fixpoint masked_select {A : Type} (mask : list bool) (t : list A) : list A :=
  match mask, t with
  | b :: mask', a :: t' =>
      if b then a :: masked_select mask' t' else masked_select mask' t'
  | _, _ => []
  end.

(** [t[mask] = v]: the rows of [v] are written, in order, at the positions
    where [mask] holds. *)
Fixpoint masked_assign {A : Type} (mask : list bool) (t v : list A) : list A :=
  match mask, t with
  | true :: mask', a :: t' =>
      match v with
      | b :: v' => b :: masked_assign mask' t' v'
      | [] => a :: t'
      end
  | false :: mask', a :: t' => a :: masked_assign mask' t' v
  | _, _ => t
  end.

Definition zeros_like (m : matrix) : matrix := map (map (fun _ => 0%R)) m.
Definition ones_like (m : matrix) : matrix := map (map (fun _ => 1%R)) m.

Definition relu (a : R) : R := Rmax 0 a.
Definition leaky_relu (a negative_slope : R) : R :=
  if Rle_dec 0 a then a else (negative_slope * a)%R.

(** *** Reductions over groups of edges *)

Section Grouped.
Variable K : Type.
Variable keq : K -> K -> bool.

(** The entries of [l] whose key is [key], in edge order. *)
Definition group {A : Type} (keys : list K) (key : K) (l : list A) : list A :=
  map snd (filter (fun p => keq (fst p) key) (combine keys l)).

(** The maximum of a group (0 for an empty one). *)
Definition seg_max (g : vector) : R := fold_right Rmax (hd 0%R g) g.

(** Softmax of the rows of [src], column by column, over the edges that
    share a key: the maximum of the group is subtracted, the result is
    exponentiated and divided by the sum over the group. *)
Definition grouped_softmax (src : matrix) (keys : list K) : matrix :=
  map2 (fun row key =>
          map (fun c =>
                 let g := group keys key (col c src) in
                 (exp (nth c row 0 - seg_max g)
                  / Rsum (map (fun b => exp (b - seg_max g)) g))%R)
              (seq 0 (length row)))
       src keys.
End Grouped.

(** [torch_geometric.utils.softmax(src, index, ptr, num_nodes)] for an edge
    list in COO form ([ptr] is [None]): the softmax over the edges with the
    same target node.  The library adds [1e-16] to the sum of a group;
    a non-empty group sums to at least [exp 0 = 1], where that constant is
    below half a unit in the last place, so the exact model leaves it out.
    Over the exact reals every coefficient is positive; in floating point
    a coefficient far below the maximum of its group is rounded to 0, so
    the statements below bound the coefficients by [0 <= a] and none
    relies on a coefficient being different from 0. *)
Definition softmax (src : matrix) (index : list nat) (num_nodes : option nat)
  : matrix :=
  grouped_softmax Nat.eqb src index.

(** [scatter_add(src, index, dim_size=n)] for a vector [src]. *)
Definition scatter_add (src : vector) (index : list nat) (n : nat) : vector :=
  map (fun i => Rsum (group Nat.eqb index i src)) (seq 0 n).

(** [scatter_add(ones, index, dim_size=size_i)[index]]: for every edge the
    in-degree of its target node. *)
Definition degree_of (index : list nat) (size_i : nat) : vector :=
  let ones := map (fun _ => 1%R) index in
  let deg := scatter_add ones index size_i in
  map (fun i => nth i deg 0%R) index.

(** *** Allocation and initialisation *)

(** [torch.Tensor(d1, ...)] returns whatever the allocated memory holds;
    [mem] gives the content found at each position. *)
Definition Tensor1 (mem : list nat -> R) (d1 : nat) : vector :=
  map (fun i => mem [i]) (seq 0 d1).
Definition Tensor2 (mem : list nat -> R) (d1 d2 : nat) : matrix :=
  map (fun i => Tensor1 (fun p => mem (i :: p)) d2) (seq 0 d1).
Definition Tensor3 (mem : list nat -> R) (d1 d2 d3 : nat) : tensor3 :=
  map (fun i => Tensor2 (fun p => mem (i :: p)) d2 d3) (seq 0 d1).
Definition Tensor4 (mem : list nat -> R) (d1 d2 d3 d4 : nat) : tensor4 :=
  map (fun i => Tensor3 (fun p => mem (i :: p)) d2 d3 d4) (seq 0 d1).

(** In-place fills keep the shape and replace every entry: by a constant
    ([zeros], [ones]) or by a fresh Glorot-uniform draw ([glorot], the draw
    for each position being given by [draw]). *)
Definition refill1 (f : list nat -> R) (t : vector) : vector :=
  map2 (fun i _ => f [i]) (seq 0 (length t)) t.
Definition refill2 (f : list nat -> R) (t : matrix) : matrix :=
  map2 (fun i r => refill1 (fun p => f (i :: p)) r) (seq 0 (length t)) t.
Definition refill3 (f : list nat -> R) (t : tensor3) : tensor3 :=
  map2 (fun i r => refill2 (fun p => f (i :: p)) r) (seq 0 (length t)) t.
Definition refill4 (f : list nat -> R) (t : tensor4) : tensor4 :=
  map2 (fun i r => refill3 (fun p => f (i :: p)) r) (seq 0 (length t)) t.

Definition zeros1 : vector -> vector := refill1 (fun _ => 0%R).
Definition zeros2 : matrix -> matrix := refill2 (fun _ => 0%R).
Definition ones2 : matrix -> matrix := refill2 (fun _ => 1%R).

(** ** The layer: class RGATConv *)

Module RGATConv.

(** The arguments of the constructor, which [__init__] copies to [self]
    (rgat.py:49-64).  Sizes are natural numbers; [bias_arg] is the
    constructor's [bias] flag ([self.bias] is the parameter). *)
Record config : Type := {
  in_channels : nat;
  out_channels : nat;
  num_relations : nat;
  num_bases : option nat;
  num_blocks : option nat;
  mod_ : option string;
  attention_mechanism : string;
  attention_mode : string;
  heads : nat;
  dim : nat;
  concat : bool;
  negative_slope : R;
  dropout : R;
  edge_dim : option nat;
  bias_arg : bool
}.

(** [self.weight] has three axes without decomposition and four with the
    block-diagonal one. *)
Inductive weight_tensor : Type :=
| Dense (t : tensor3)
| Blocked (t : tensor4).

(** The layer object. *)
Record t : Type := {
  hp : config;
  training : bool;
  q : matrix;
  k : matrix;
  bias : option vector;
  lin_edge : option matrix;
  e : option matrix;
  att : option matrix;
  basis : option tensor3;
  weight : option weight_tensor;
  w : vector;
  l1 : matrix;
  b1 : matrix;
  l2 : matrix;
  b2 : matrix;
  _alpha : option matrix
}.

Definition set_alpha (a : option matrix) (self : t) : t :=
  {| hp := hp self; training := training self; q := q self; k := k self;
     bias := bias self; lin_edge := lin_edge self; e := e self;
     att := att self; basis := basis self; weight := weight self;
     w := w self; l1 := l1 self; b1 := b1 self; l2 := l2 self;
     b2 := b2 self; _alpha := a |}.

Definition mod_types : list string :=
  ["additive"; "scaled"; "f-additive"; "f-scaled"]%string.

Definition mod_is (c : config) (name : string) : bool :=
  match mod_ c with
  | Some m => String.eqb m name
  | None => false
  end.

Definition mod_in_mod_types (c : config) : bool :=
  existsb (mod_is c) mod_types.

Definition is_some {A : Type} (o : option A) : bool :=
  match o with Some _ => true | None => false end.

Definition glorot_weight (draw : list nat -> R) (x : weight_tensor)
  : weight_tensor :=
  match x with
  | Dense t0 => Dense (refill3 draw t0)
  | Blocked t0 => Blocked (refill4 draw t0)
  end.

(** rgat.py:153-168.  [draw name] gives the Glorot draws for the
    parameter [name].  Line 164 builds a constant tensor of the shape of
    [l2] and drops it, so [l2] is returned as it was.

    The code evaluates two divisions on the way: [glorot] divides by the
    sum of the last two sizes of its tensor, and line 164 by
    [out_channels].  Both are defined when [heads * out_channels] is
    positive, [edge_dim] is not 0 and, with bases, there is at least one
    basis.  The function is total; the statements that say that the
    constructor returns a layer carry these conditions. *)
Definition reset_parameters (draw : string -> list nat -> R) (self : t) : t :=
  let by_bases := is_some (num_bases (hp self)) in
  {| hp := hp self;
     training := training self;
     basis := if by_bases
              then option_map (refill3 (draw "basis"%string)) (basis self)
              else basis self;
     att := if by_bases
            then option_map (refill2 (draw "att"%string)) (att self)
            else att self;
     weight := if by_bases
               then weight self
               else option_map (glorot_weight (draw "weight"%string))
                               (weight self);
     q := refill2 (draw "q"%string) (q self);
     k := refill2 (draw "k"%string) (k self);
     bias := option_map zeros1 (bias self);
     l1 := ones2 (l1 self);
     b1 := zeros2 (b1 self);
     l2 := l2 self;
     b2 := zeros2 (b2 self);
     lin_edge := option_map (refill2 (draw "lin_edge"%string)) (lin_edge self);
     e := option_map (refill2 (draw "e"%string)) (e self);
     w := w self;
     _alpha := _alpha self |}.

(** rgat.py:127-141: the relation weights, by decomposition. *)
Definition init_weights (mem : string -> list nat -> R) (c : config)
  : res (option matrix * option tensor3 * option weight_tensor) :=
  let ho := heads c * out_channels c in
  match num_bases c, num_blocks c with
  | Some nb, _ =>
      ret (Some (Tensor2 (mem "att"%string) (num_relations c) nb),
           Some (Tensor3 (mem "basis"%string) nb (in_channels c) ho),
           None)
  | None, Some nb =>
      if nb =? 0 then raise ZeroDivisionError
      else if (in_channels c mod nb =? 0) && (ho mod nb =? 0)
      then ret (None, None,
                Some (Blocked (Tensor4 (mem "weight"%string)
                                       (num_relations c) nb
                                       (in_channels c / nb) (ho / nb))))
      else raise (AssertionError BlocksNotMultiple)
  | None, None =>
      ret (None, None,
           Some (Dense (Tensor3 (mem "weight"%string)
                                (num_relations c) (in_channels c) ho)))
  end.

(** rgat.py:68-91: the checks on the arguments, in source order. *)
Definition validate (c : config) : res unit :=
  if negb (String.eqb (attention_mechanism c) "within-relation")
     && negb (String.eqb (attention_mechanism c) "across-relation")
  then raise (ValueError BadAttentionMechanism)
  else if negb (String.eqb (attention_mode c) "additive-self-attention")
          && negb (String.eqb (attention_mode c)
                              "multiplicative-self-attention")
  then raise (ValueError BadAttentionMode)
  else if String.eqb (attention_mode c) "additive-self-attention"
          && (1 <? dim c)
  then raise (ValueError AdditiveWithDimAbove1)
  else if Rgtb (dropout c) 0 && mod_in_mod_types c
  then raise (ValueError DropoutWithMod)
  else if is_some (num_bases c) && is_some (num_blocks c)
  then raise (ValueError BasesAndBlocks)
  else ret tt.

(** rgat.py:27-151.  [mem name] is the content of the memory that
    [torch.Tensor] allocates for the parameter [name]; a module is in
    training mode when it is created. *)
Definition __init__ (mem draw : string -> list nat -> R) (c : config)
  : res t :=
  _ <- validate c ;;
  let ho := heads c * out_channels c in
  let hk := heads c * dim c in
  let q0 := Tensor2 (mem "q"%string) ho hk in
  let k0 := Tensor2 (mem "k"%string) ho hk in
  let bias0 :=
    if bias_arg c && concat c
    then Some (Tensor1 (mem "bias"%string)
                       (heads c * dim c * out_channels c))
    else if bias_arg c && negb (concat c)
    then Some (Tensor1 (mem "bias"%string) (dim c * out_channels c))
    else None in
  let lin_edge0 :=
    match edge_dim c with
    | Some ed => Some (Tensor2 (mem "lin_edge"%string) ho ed)
    | None => None
    end in
  let e0 :=
    match edge_dim c with
    | Some _ => Some (Tensor2 (mem "e"%string) ho hk)
    | None => None
    end in
  '(att0, basis0, weight0) <- init_weights mem c ;;
  ret (reset_parameters draw
         {| hp := c;
            training := true;
            q := q0; k := k0; bias := bias0;
            lin_edge := lin_edge0; e := e0;
            att := att0; basis := basis0; weight := weight0;
            w := map (fun _ => 1%R) (seq 0 (out_channels c));
            l1 := Tensor2 (mem "l1"%string) 1 (out_channels c);
            b1 := Tensor2 (mem "b1"%string) 1 (out_channels c);
            l2 := Tensor2 (mem "l2"%string) (out_channels c) (out_channels c);
            b2 := Tensor2 (mem "b2"%string) 1 (out_channels c);
            _alpha := None |}).

(** *** message: the relation transform (rgat.py:194-216) *)

Definition is_long (x : features) : bool :=
  match x_dtype x with long => true | float => false end.

(** [w.size(1)] and [w.size(2)] of the block weight. *)
Definition size1 (wt : tensor4) : nat := length (hd [] wt).
Definition size2 (wt : tensor4) : nat := length (hd [] (hd [] wt)).

(** [torch.einsum('abcd,acde->ace', x, wt)]: for every edge [a] and block
    [c], the sum over [b] and [d] of [x[a][b][c][d] * wt[a][c][d][e]]. *)
Definition einsum_abcd_acde_ace (x : tensor4) (wt : tensor4) : tensor3 :=
  map2 (fun xa wa =>
          match map (fun xb => map2 vecmat xb wa) xa with
          | [] => []
          | m :: ms => fold_left madd ms m
          end)
       x wt.

(** Lines 194-197: the weights rebuilt from the bases.  The view of line
    195 needs at least one basis and a basis tensor that is not empty;
    the statements about layers with bases carry [num_bases <> Some 0] and
    positive sizes. *)
Definition basis_weight (self : t) : res (option tensor3) :=
  match num_bases (hp self) with
  | Some _ =>
      match att self, basis self with
      | Some a, Some b =>
          let flat := matmul a (map (@List.concat R) b) in
          ret (Some (map (blocks (in_channels (hp self))
                                 (heads (hp self) * out_channels (hp self)))
                         flat))
      | _, _ => raise AttributeError
      end
  | None => ret None
  end.

(** Lines 198-216: [(outi, outj)].  The views of lines 204-205 and the
    batched product of line 215 need features of [in_channels] columns,
    one relation number per edge and weights of the constructor's shapes
    ([shaped_for_message] below); [blocks] and [vecmat] are total, so the
    statements that name the operation that fails, or that say that none
    does, carry these conditions. *)
Definition transform (self : t) (x_i x_j : features) (edge_type : list nat)
  : res (matrix * matrix) :=
  wb <- basis_weight self ;;
  match num_blocks (hp self) with
  | Some _ =>
      if is_long x_i && is_long x_j
      then raise (ValueError BlockOnLongFeatures)
      else
        match weight self with
        | None => raise AttributeError
        | Some (Dense _) => raise RuntimeError
        | Some (Blocked wt) =>
            let view x :=
              map (fun r => [blocks (size1 wt) (size2 wt) r]) (rows x) in
            we <- index_select wt edge_type ;;
            let outi := einsum_abcd_acde_ace (view x_i) we in
            let outj := einsum_abcd_acde_ace (view x_j) we in
            ret (map (@List.concat R) outi, map (@List.concat R) outj)
        end
  | None =>
      wt <- match wb with
            | Some wt => ret wt
            | None =>
                match weight self with
                | None => raise AttributeError
                | Some (Blocked _) => raise RuntimeError
                | Some (Dense wt) => ret wt
                end
            end ;;
      we <- index_select wt edge_type ;;
      if is_long x_i || is_long x_j
      then raise RuntimeError
      else ret (map2 vecmat (rows x_i) we, map2 vecmat (rows x_j) we)
  end.

(** *** message: the edge-feature term (rgat.py:221-233) *)

Inductive edge_attr_tensor : Type :=
| Attr1 (v : vector)      (* [edge_attr.dim() == 1] *)
| Attr2 (m : matrix).

Definition edge_term (self : t) (edge_attr : option edge_attr_tensor)
           (edge_type : list nat) : res (option matrix) :=
  match edge_attr with
  | None => ret None
  | Some ea =>
      let ea := match ea with
                | Attr1 v => map (fun a => [a]) v
                | Attr2 m => m
                end in
      match lin_edge self with
      | None => raise (AssertionError LinEdgeIsNone)
      | Some wl =>
          let edge_attributes := map (fun r => map (dot r) wl) ea in
          ea' <- (if length edge_attributes =? length ea
                  then ret edge_attributes
                  else index_select edge_attributes edge_type) ;;
          match e self with
          | None => raise TypeError
          | Some em => ret (Some (matmul ea' em))
          end
      end
  end.

(** *** message: logits and normalisation (rgat.py:235-254) *)

Definition is_additive (c : config) : bool :=
  String.eqb (attention_mode c) "additive-self-attention".
Definition is_multiplicative (c : config) : bool :=
  String.eqb (attention_mode c) "multiplicative-self-attention".

Definition score (self : t) (qi kj : matrix) (alpha_edge : option matrix)
  : matrix :=
  if is_additive (hp self) then
    let alpha := match alpha_edge with
                 | Some ae => madd (madd qi kj) ae
                 | None => madd qi kj
                 end in
    map (map (fun a => leaky_relu a (negative_slope (hp self)))) alpha
  else if is_multiplicative (hp self) then
    match alpha_edge with
    | Some ae => mmul (mmul qi kj) ae
    | None => mmul qi kj
    end
  else [[0%R]].

(** Lines 248-252: one softmax per relation, written back under the mask
    of that relation. *)
Definition within_relation (n_rel : nat) (alpha : matrix)
           (edge_type index : list nat) : matrix :=
  fold_left
    (fun across_out r =>
       let mask := map (fun ty => ty =? r) edge_type in
       masked_assign mask across_out
         (softmax (masked_select mask alpha) (masked_select mask index)
                  None))
    (seq 0 n_rel) (zeros_like alpha).

Definition normalize (self : t) (alpha : matrix) (edge_type index : list nat)
           (size_i : nat) : matrix :=
  if String.eqb (attention_mechanism (hp self)) "within-relation"
  then within_relation (num_relations (hp self)) alpha edge_type index
  else if String.eqb (attention_mechanism (hp self)) "across-relation"
  then softmax alpha index (Some size_i)
  else alpha.

(** *** message: modulation and the per-edge product (rgat.py:258-322)

    The message of an edge has shape [(heads, out_channels)], or
    [(heads, dim, out_channels)] in the multiplicative mode.  It is kept
    flattened in row-major order, which is the layout that [update]
    reads through [aggr_out.view]. *)

(** [a.view(H, 1) * t] and [t * a.view(H, 1)] for [t] of shape [(H, O)]. *)
Definition scale_rows (a : vector) (t0 : list vector) : list vector :=
  map2 (fun s blk => map (fun v => (s * v)%R) blk) a t0.
Definition rows_scaled (t0 : list vector) (a : vector) : list vector :=
  map2 (fun blk s => map (fun v => (v * s)%R) blk) t0 a.

(** [a.view(H, D, 1) * t.view(H, 1, O)] and the same with the factors
    swapped: shape [(H, D, O)]. *)
Definition scale_rows_dim (a : list vector) (t0 : list vector)
  : list (list vector) :=
  map2 (fun ablk blk => map (fun s => map (fun v => (s * v)%R) blk) ablk) a t0.
Definition rows_scaled_dim (t0 : list vector) (a : list vector)
  : list (list vector) :=
  map2 (fun blk ablk => map (fun s => map (fun v => (v * s)%R) blk) ablk) t0 a.

Definition flat2 (t0 : list vector) : vector := List.concat t0.
Definition flat3 (t0 : list (list vector)) : vector :=
  List.concat (map (@List.concat R) t0).

(** Lines 278-283: the in-degree of the target of every edge, passed
    through the two-layer head [l1, b1 -> ReLU -> l2, b2]. *)
Definition degree_head (self : t) (index : list nat) (size_i : nat) : matrix :=
  let degree := map (fun d => [d]) (degree_of index size_i) in
  let degree := map (fun r => vadd r (hd [] (b1 self)))
                    (matmul degree (l1 self)) in
  let degree := map (map relu) degree in
  map (fun r => vadd r (hd [] (b2 self))) (matmul degree (l2 self)).

(** [F.dropout(alpha, p, training=True)]: the entries that the sampled
    mask [keep] retains are divided by [1 - p], the others are zeroed.
    The library accepts a probability of at most 1 ([message] calls it
    only for [p > 0]); the statement that [forward] does not fail carries
    [dropout <= 1]. *)
Definition F_dropout (alpha : matrix) (p : R) (keep : list (list bool))
  : matrix :=
  map2 (map2 (fun a (b : bool) => if b then (a / (1 - p))%R else 0%R))
       alpha keep.

(** Lines 317-322. *)
Definition weighted (c : config) (alpha outj : matrix) : matrix :=
  if is_additive c then
    map2 (fun arow orow =>
            flat2 (scale_rows arow (blocks (heads c) (out_channels c) orow)))
         alpha outj
  else
    map2 (fun arow orow =>
            flat3 (scale_rows_dim (blocks (heads c) (dim c) arow)
                                  (blocks (heads c) (out_channels c) orow)))
         alpha outj.

(** Line 303. *)
Definition f_additive (alpha : matrix) : matrix :=
  map (map (fun a => if Rgtb a 0 then (a + 1)%R else a)) alpha.

(** Lines 306-309. *)
Definition f_scaled (alpha : matrix) (index : list nat) (size_i : nat)
  : matrix :=
  map2 (fun arow d => map (fun a => (a * d)%R) arow)
       alpha (degree_of index size_i).

Definition modulate (self : t) (alpha outj : matrix) (index : list nat)
           (size_i : nat) (keep : list (list bool)) : matrix :=
  let c := hp self in
  let H := heads c in
  let O := out_channels c in
  let D := dim c in
  if mod_is c "additive" then
    if is_additive c then
      let ones := ones_like alpha in
      map2 (fun orow ar =>
              let h := rows_scaled (blocks H O orow) (snd ar) in
              let h := map (vmul (w self)) h in
              flat2 (madd (rows_scaled (blocks H O orow) (fst ar)) h))
           outj (combine alpha ones)
    else if is_multiplicative c then
      let ones := ones_like alpha in
      map2 (fun orow ar =>
              let h := rows_scaled_dim (blocks H O orow)
                                       (blocks H D (snd ar)) in
              let h := map (map (vmul (w self))) h in
              flat3 (map2 madd
                       (rows_scaled_dim (blocks H O orow)
                                        (blocks H D (fst ar))) h))
           outj (combine alpha ones)
    else weighted c alpha outj
  else if mod_is c "scaled" then
    if is_additive c then
      let degree := degree_head self index size_i in
      map2 (fun orow ad =>
              flat2 (map (fun blk => vmul blk (snd ad))
                         (rows_scaled (blocks H O orow) (fst ad))))
           outj (combine alpha degree)
    else if is_multiplicative c then
      let degree := degree_head self index size_i in
      map2 (fun orow ad =>
              flat3 (map (map (fun blk => vmul blk (snd ad)))
                         (rows_scaled_dim (blocks H O orow)
                                          (blocks H D (fst ad)))))
           outj (combine alpha degree)
    else weighted c alpha outj
  else if mod_is c "f-additive" then
    weighted c (f_additive alpha) outj
  else if mod_is c "f-scaled" then
    weighted c (f_scaled alpha index size_i) outj
  else if training self && Rgtb (dropout c) 0 then
    weighted c (F_dropout alpha (dropout c) keep) outj
  else
    weighted c alpha outj.

(** *** message (rgat.py:190-322)

    [keep] is the mask that dropout samples in this call.  The method
    writes [self._alpha] on line 256, so it returns the layer too. *)
Definition message (self : t) (x_i x_j : features) (edge_type : list nat)
           (edge_attr : option edge_attr_tensor) (index : list nat)
           (size_i : nat) (keep : list (list bool)) : res matrix * t :=
  match transform self x_i x_j edge_type with
  | inl err => (inl err, self)
  | inr (outi, outj) =>
      let qi := matmul outi (q self) in
      let kj := matmul outj (k self) in
      match edge_term self edge_attr edge_type with
      | inl err => (inl err, self)
      | inr alpha_edge =>
          let alpha := score self qi kj alpha_edge in
          let alpha := normalize self alpha edge_type index size_i in
          let self := set_alpha (Some alpha) self in
          (inr (modulate self alpha outj index size_i keep), self)
      end
  end.

(** *** aggregate, update, propagate and forward *)

(** The number of entries of one message. *)
Definition message_width (c : config) : nat :=
  if is_additive c then heads c * out_channels c
  else heads c * dim c * out_channels c.

(** [aggr='add'] (rgat.py:46): the messages are summed into the row of
    their target node; a node without incoming edge keeps a zero row. *)
Definition aggregate (self : t) (inputs : matrix) (index : list nat)
           (dim_size : nat) : matrix :=
  map (fun i => vsum (message_width (hp self))
                     (group Nat.eqb index i inputs))
      (seq 0 dim_size).

(** [aggr_out.mean(dim=1)] on a flattened row of [H] blocks of [n]. *)
Definition mean_heads (H n : nat) (row : vector) : vector :=
  map (fun v => (v / INR H)%R) (vsum n (blocks H n row)).

(** rgat.py:324-346. *)
Definition update (self : t) (aggr_out : matrix) : matrix :=
  let c := hp self in
  let add_bias (m : matrix) : matrix :=
    match bias self with
    | Some b => map (fun r => vadd r b) m
    | None => m
    end in
  if is_additive c then
    let aggr_out :=
      if concat c then aggr_out
      else map (mean_heads (heads c) (out_channels c)) aggr_out in
    add_bias aggr_out
  else
    let aggr_out :=
      if concat c then aggr_out
      else map (mean_heads (heads c) (dim c * out_channels c)) aggr_out in
    add_bias aggr_out.

(** An edge list in COO form: [edge_index[0]] holds the sources and
    [edge_index[1]] the targets. *)
Definition edge_index_tensor : Type := (list nat * list nat)%type.

(** [MessagePassing.propagate] for a COO edge list, [node_dim=0] and the
    default flow: [x_j = x[edge_index[0]]], [x_i = x[edge_index[1]]],
    [index = edge_index[1]], [size_i = x.size(0)]. *)
Definition propagate (self : t) (edge_index : edge_index_tensor)
           (edge_type : list nat) (x : features)
           (edge_attr : option edge_attr_tensor) (keep : list (list bool))
  : res matrix * t :=
  match index_select (rows x) (fst edge_index) with
  | inl err => (inl err, self)
  | inr xj =>
      match index_select (rows x) (snd edge_index) with
      | inl err => (inl err, self)
      | inr xi =>
          let x_i := {| x_dtype := x_dtype x; rows := xi |} in
          let x_j := {| x_dtype := x_dtype x; rows := xj |} in
          let index := snd edge_index in
          let size_i := length (rows x) in
          match message self x_i x_j edge_type edge_attr index size_i keep
          with
          | (inl err, self) => (inl err, self)
          | (inr out, self) =>
              let out := aggregate self out index size_i in
              (inr (update self out), self)
          end
      end
  end.

Inductive forward_result : Type :=
| Out (out : matrix)
| OutAttention (out : matrix) (edge_index : edge_index_tensor)
               (alpha : matrix).

(** rgat.py:170-187, for a COO edge list. *)
Definition forward (self : t) (x : features) (edge_index : edge_index_tensor)
           (edge_type : list nat) (edge_attr : option edge_attr_tensor)
           (return_attention_weights : option bool)
           (keep : list (list bool)) : res forward_result * t :=
  match propagate self edge_index edge_type x edge_attr keep with
  | (inl err, self) => (inl err, self)
  | (inr out, self) =>
      match _alpha self with
      | None => (inl (AssertionError AlphaIsNone), self)
      | Some alpha =>
          let self := set_alpha None self in
          match return_attention_weights with
          | Some _ => (inr (OutAttention out edge_index alpha), self)
          | None => (inr (Out out), self)
          end
      end
  end.

End RGATConv.

(** ** The encoder-decoder: class RGAT *)

Module RGAT.

Record t : Type := {
  node_emb : matrix;
  conv1 : RGATConv.t;
  conv2 : RGATConv.t;
  W : matrix
}.

(** rgat.py:384-391. *)
Definition decode (self : t) (z : matrix)
           (edge_index : RGATConv.edge_index_tensor) (edge_type : list nat)
  : res vector :=
  h <- index_select z (fst edge_index) ;;
  tl <- index_select z (snd edge_index) ;;
  r <- index_select (W self) edge_type ;;
  let logits := map Rsum (mmul (mmul h r) tl) in
  ret logits.

(** [args]: the three sizes that the model reads (rgat.py:360-366). *)
Record args : Type := {
  in_dim : nat;
  hidden_dim : nat;
  out_dim : nat
}.

(** The arguments of [RGATConv(in_c, out_c, n_rel)] and of
    [RGATConv(in_c, out_c, n_rel, num_blocks=4)]: the other arguments take
    the defaults of rgat.py:32-43. *)
Definition conv_config (in_c out_c n_rel : nat) (blocks : option nat)
  : RGATConv.config :=
  {| RGATConv.in_channels := in_c;
     RGATConv.out_channels := out_c;
     RGATConv.num_relations := n_rel;
     RGATConv.num_bases := None;
     RGATConv.num_blocks := blocks;
     RGATConv.mod_ := None;
     RGATConv.attention_mechanism := "across-relation";
     RGATConv.attention_mode := "additive-self-attention";
     RGATConv.heads := 1;
     RGATConv.dim := 1;
     RGATConv.concat := true;
     RGATConv.negative_slope := (2 / 10)%R;
     RGATConv.dropout := 0%R;
     RGATConv.edge_dim := None;
     RGATConv.bias_arg := true |}.

(** rgat.py:354-371.  [mem owner name] and [draw owner name] give the
    allocated memory and the random draws for the parameter [name] of the
    submodule [owner]; the embedding table and [W] are filled with draws.
    The fields [args] and [num_edge_type] are not read again and are not
    kept. *)
Definition __init__ (mem draw : string -> string -> list nat -> R)
           (a : args) (num_nodes num_edge_type : nat) : res t :=
  let emb := Tensor2 (draw "node_emb"%string "weight"%string)
                     num_nodes (in_dim a) in
  let blocks := if 20 <? num_edge_type then Some 4 else None in
  c1 <- RGATConv.__init__ (mem "conv1"%string) (draw "conv1"%string)
          (conv_config (in_dim a) (hidden_dim a) (num_edge_type * 2) blocks) ;;
  c2 <- RGATConv.__init__ (mem "conv2"%string) (draw "conv2"%string)
          (conv_config (hidden_dim a) (out_dim a) (num_edge_type * 2) blocks) ;;
  ret {| node_emb := emb;
         conv1 := c1;
         conv2 := c2;
         W := refill2 (draw ""%string "W"%string)
                      (Tensor2 (mem ""%string "W"%string)
                               num_edge_type (out_dim a)) |}.

Definition set_convs (c1 c2 : RGATConv.t) (self : t) : t :=
  {| node_emb := node_emb self; conv1 := c1; conv2 := c2; W := W self |}.

Inductive encode_result : Type :=
| Emb (x2 : matrix)
| AllEmb (x1 x2 : matrix).

(** What [self.convN(x, edge, edge_type)] hands back: the call passes no
    [return_attention_weights], so it is the node tensor; the pair with the
    attention weights cannot be passed on to [relu]. *)
Definition node_tensor (r : RGATConv.forward_result) : res matrix :=
  match r with
  | RGATConv.Out out => ret out
  | RGATConv.OutAttention _ _ _ => raise TypeError
  end.

(** rgat.py:373-382.  [x] holds node numbers; [keep1] and [keep2] are the
    dropout masks of the two layers.  The two layers are returned because
    their calls write [_alpha]. *)
Definition forward (self : t) (x : list nat)
           (edge : RGATConv.edge_index_tensor) (edge_type : list nat)
           (return_all_emb : bool) (keep1 keep2 : list (list bool))
  : res encode_result * t :=
  match index_select (node_emb self) x with
  | inl err => (inl err, self)
  | inr emb =>
      match RGATConv.forward (conv1 self)
                             {| x_dtype := float; rows := emb |}
                             edge edge_type None None keep1 with
      | (inl err, c1) => (inl err, set_convs c1 (conv2 self) self)
      | (inr r1, c1) =>
          match node_tensor r1 with
          | inl err => (inl err, set_convs c1 (conv2 self) self)
          | inr x1 =>
              let x' := map (map relu) x1 in
              match RGATConv.forward (conv2 self)
                                     {| x_dtype := float; rows := x' |}
                                     edge edge_type None None keep2 with
              | (inl err, c2) => (inl err, set_convs c1 c2 self)
              | (inr r2, c2) =>
                  match node_tensor r2 with
                  | inl err => (inl err, set_convs c1 c2 self)
                  | inr x2 =>
                      if return_all_emb
                      then (inr (AllEmb x1 x2), set_convs c1 c2 self)
                      else (inr (Emb x2), set_convs c1 c2 self)
                  end
              end
          end
      end
  end.

End RGAT.

(** ** Example objects *)

(** Memory and draws that hold 0 everywhere. *)
Definition mem0 : string -> list nat -> R := fun _ _ => 0%R.

(** The constructor's defaults (rgat.py:32-43). *)
Definition default_config (in_c out_c n_rel : nat) : RGATConv.config :=
  {| RGATConv.in_channels := in_c;
     RGATConv.out_channels := out_c;
     RGATConv.num_relations := n_rel;
     RGATConv.num_bases := None;
     RGATConv.num_blocks := None;
     RGATConv.mod_ := None;
     RGATConv.attention_mechanism := "across-relation";
     RGATConv.attention_mode := "additive-self-attention";
     RGATConv.heads := 1;
     RGATConv.dim := 1;
     RGATConv.concat := true;
     RGATConv.negative_slope := (2 / 10)%R;
     RGATConv.dropout := 0%R;
     RGATConv.edge_dim := None;
     RGATConv.bias_arg := true |}.

Definition with_decomposition (bases blocks : option nat)
           (c : RGATConv.config) : RGATConv.config :=
  {| RGATConv.in_channels := RGATConv.in_channels c;
     RGATConv.out_channels := RGATConv.out_channels c;
     RGATConv.num_relations := RGATConv.num_relations c;
     RGATConv.num_bases := bases;
     RGATConv.num_blocks := blocks;
     RGATConv.mod_ := RGATConv.mod_ c;
     RGATConv.attention_mechanism := RGATConv.attention_mechanism c;
     RGATConv.attention_mode := RGATConv.attention_mode c;
     RGATConv.heads := RGATConv.heads c;
     RGATConv.dim := RGATConv.dim c;
     RGATConv.concat := RGATConv.concat c;
     RGATConv.negative_slope := RGATConv.negative_slope c;
     RGATConv.dropout := RGATConv.dropout c;
     RGATConv.edge_dim := RGATConv.edge_dim c;
     RGATConv.bias_arg := RGATConv.bias_arg c |}.

Definition with_modulation (m : option string) (mechanism : string)
           (p : R) (d : nat) (c : RGATConv.config) : RGATConv.config :=
  {| RGATConv.in_channels := RGATConv.in_channels c;
     RGATConv.out_channels := RGATConv.out_channels c;
     RGATConv.num_relations := RGATConv.num_relations c;
     RGATConv.num_bases := RGATConv.num_bases c;
     RGATConv.num_blocks := RGATConv.num_blocks c;
     RGATConv.mod_ := m;
     RGATConv.attention_mechanism := mechanism;
     RGATConv.attention_mode := RGATConv.attention_mode c;
     RGATConv.heads := RGATConv.heads c;
     RGATConv.dim := d;
     RGATConv.concat := RGATConv.concat c;
     RGATConv.negative_slope := RGATConv.negative_slope c;
     RGATConv.dropout := p;
     RGATConv.edge_dim := RGATConv.edge_dim c;
     RGATConv.bias_arg := RGATConv.bias_arg c |}.

(** [in_channels=8], [heads * out_channels = 12], and [num_blocks]. *)
Definition block_config (blocks : nat) : RGATConv.config :=
  with_decomposition None (Some blocks) (default_config 8 12 2).

(** The three configurations named by the specification, the other
    arguments at their defaults. *)
Definition both_decompositions : RGATConv.config :=
  with_decomposition (Some 2) (Some 2) (default_config 8 12 2).
Definition additive_dim_2 : RGATConv.config :=
  with_modulation None "across-relation" 0 2 (default_config 8 12 2).
Definition dropout_scaled : RGATConv.config :=
  with_modulation (Some "scaled"%string) "across-relation" (5 / 10) 1
                  (default_config 8 12 2).

(** ** Specification-side definitions *)

(** The DistMult score of one triple as the specification words it: the sum
    over the [C] channels of the product of the head embedding, the
    relation vector and the tail embedding. *)
Definition distmult_score (C : nat) (head rel tail : vector) : R :=
  Rsum (map (fun c => (nth c head 0 * nth c rel 0 * nth c tail 0)%R)
            (seq 0 C)).

(** The three per-edge inputs describe the same [E] edges (section 3 of
    the specification). *)
Definition edge_lists_agree (edge_index : RGATConv.edge_index_tensor)
           (edge_type : list nat)
           (edge_attr : option RGATConv.edge_attr_tensor) : Prop :=
  length (fst edge_index) = length (snd edge_index)
  /\ length edge_type = length (snd edge_index)
  /\ match edge_attr with
     | None => True
     | Some (RGATConv.Attr1 v) => length v = length (snd edge_index)
     | Some (RGATConv.Attr2 m) => length m = length (snd edge_index)
     end.

(** A layer with one input channel, one output channel, one head and two
    relations, in evaluation mode, and a graph with three nodes and the
    edges 0 -> 1 (relation 0) and 1 -> 1 (relation 1). *)
Definition tiny_config (mechanism : string) (m : option string)
  : RGATConv.config :=
  with_modulation m mechanism 0 1 (default_config 1 1 2).

Definition tiny_layer (c : RGATConv.config) : RGATConv.t :=
  {| RGATConv.hp := c;
     RGATConv.training := false;
     RGATConv.q := [[1%R]];
     RGATConv.k := [[1%R]];
     RGATConv.bias := Some [0%R];
     RGATConv.lin_edge := None;
     RGATConv.e := None;
     RGATConv.att := None;
     RGATConv.basis := None;
     RGATConv.weight := Some (RGATConv.Dense [[[1%R]]; [[1%R]]]);
     RGATConv.w := [1%R];
     RGATConv.l1 := [[1%R]];
     RGATConv.b1 := [[0%R]];
     RGATConv.l2 := [[1%R]];
     RGATConv.b2 := [[0%R]];
     RGATConv._alpha := None |}.

Definition tiny_x : features :=
  {| x_dtype := float; rows := [[1%R]; [2%R]; [3%R]] |}.
Definition tiny_edges : RGATConv.edge_index_tensor := ([0; 1], [1; 1]).
Definition tiny_types : list nat := [0; 1].

(** Two nodes with two channels, one relation, and the triple (0, 0, 1). *)
Definition tiny_decoder : RGAT.t :=
  {| RGAT.node_emb := [];
     RGAT.conv1 := tiny_layer (tiny_config "across-relation" None);
     RGAT.conv2 := tiny_layer (tiny_config "across-relation" None);
     RGAT.W := [[5%R; 6%R]] |}.
Definition tiny_z : matrix := [[1%R; 2%R]; [3%R; 4%R]].

(** The first axis of the relation weights that [message] indexes by
    [edge_type]. *)
Definition relation_axis (self : RGATConv.t) : nat :=
  match RGATConv.num_blocks (RGATConv.hp self),
        RGATConv.num_bases (RGATConv.hp self) with
  | Some _, _ =>
      match RGATConv.weight self with
      | Some (RGATConv.Blocked wt) => length wt
      | _ => 0
      end
  | None, Some _ =>
      match RGATConv.att self with
      | Some a => length a
      | None => 0
      end
  | None, None =>
      match RGATConv.weight self with
      | Some (RGATConv.Dense wt) => length wt
      | _ => 0
      end
  end.

(** The shapes that the constructor gives to the attention parameters:
    the score mode is one of the two names, [q], [k] and [e] have
    [heads * dim] columns, and the relation weights have [num_relations]
    entries. *)
Definition well_shaped (self : RGATConv.t) : Prop :=
  let c := RGATConv.hp self in
  RGATConv.is_additive c || RGATConv.is_multiplicative c = true
  /\ ncols (RGATConv.q self) = RGATConv.heads c * RGATConv.dim c
  /\ ncols (RGATConv.k self) = RGATConv.heads c * RGATConv.dim c
  /\ (forall em, RGATConv.e self = Some em ->
                 ncols em = RGATConv.heads c * RGATConv.dim c)
  /\ relation_axis self = RGATConv.num_relations c.

(** Keys of the within-relation groups: relation and target node. *)
Definition pair_eqb (a b : nat * nat) : bool :=
  (fst a =? fst b) && (snd a =? snd b).

(** Every row of [m] has [n] entries. *)
Definition rows_have (n : nat) (m : matrix) : Prop :=
  forall row, In row m -> length row = n.

(** The state of the loop of rgat.py:249-251 after the relations below [r]:
    the rows of the edges of those relations hold [g], the others still
    hold [z]. *)
Definition written_below (r : nat) (edge_type : list nat) (g z : matrix)
  : matrix :=
  map (fun p => if fst p <? r then fst (snd p) else snd (snd p))
      (combine edge_type (combine g z)).

(** *** Reordering the edges *)

(** The per-edge tensor whose entry [n] is entry [p[n]] of [l]. *)
Definition permute {A : Type} (p : list nat) (l : list A) : list A :=
  flat_map (fun n => match nth_error l n with
                     | Some a => [a]
                     | None => []
                     end) p.

(** [p] lists every edge number below [E] exactly once. *)
Definition is_permutation (p : list nat) (E : nat) : Prop :=
  Permutation p (seq 0 E).

Definition permute_edges (p : list nat)
           (edge_index : RGATConv.edge_index_tensor)
  : RGATConv.edge_index_tensor :=
  (permute p (fst edge_index), permute p (snd edge_index)).

Definition permute_attr (p : list nat)
           (edge_attr : option RGATConv.edge_attr_tensor)
  : option RGATConv.edge_attr_tensor :=
  match edge_attr with
  | None => None
  | Some (RGATConv.Attr1 v) => Some (RGATConv.Attr1 (permute p v))
  | Some (RGATConv.Attr2 m) => Some (RGATConv.Attr2 (permute p m))
  end.

Definition permute_features (p : list nat) (x : features) : features :=
  {| x_dtype := x_dtype x; rows := permute p (rows x) |}.

(** The result of the call on the reordered edges: the same node features,
    and the attention weights in the new edge order. *)
Definition permute_result (p : list nat) (r : RGATConv.forward_result)
  : RGATConv.forward_result :=
  match r with
  | RGATConv.Out out => RGATConv.Out out
  | RGATConv.OutAttention out edge_index alpha =>
      RGATConv.OutAttention out (permute_edges p edge_index)
                            (permute p alpha)
  end.

(** The relation weights that the chosen decomposition reads exist, as
    after construction. *)
Definition weights_present (self : RGATConv.t) : Prop :=
  match RGATConv.num_blocks (RGATConv.hp self),
        RGATConv.num_bases (RGATConv.hp self) with
  | Some _, Some _ => False
  | Some _, None => exists wt, RGATConv.weight self = Some (RGATConv.Blocked wt)
  | None, Some _ =>
      exists a b, RGATConv.att self = Some a /\ RGATConv.basis self = Some b
  | None, None => exists wt, RGATConv.weight self = Some (RGATConv.Dense wt)
  end.

(** The same arguments, or the same layer, with another [mod]. *)
Definition config_with_mod (m : option string) (c : RGATConv.config)
  : RGATConv.config :=
  with_modulation m (RGATConv.attention_mechanism c) (RGATConv.dropout c)
                  (RGATConv.dim c) c.

Definition layer_with_config (c : RGATConv.config) (self : RGATConv.t)
  : RGATConv.t :=
  {| RGATConv.hp := c;
     RGATConv.training := RGATConv.training self;
     RGATConv.q := RGATConv.q self;
     RGATConv.k := RGATConv.k self;
     RGATConv.bias := RGATConv.bias self;
     RGATConv.lin_edge := RGATConv.lin_edge self;
     RGATConv.e := RGATConv.e self;
     RGATConv.att := RGATConv.att self;
     RGATConv.basis := RGATConv.basis self;
     RGATConv.weight := RGATConv.weight self;
     RGATConv.w := RGATConv.w self;
     RGATConv.l1 := RGATConv.l1 self;
     RGATConv.b1 := RGATConv.b1 self;
     RGATConv.l2 := RGATConv.l2 self;
     RGATConv.b2 := RGATConv.b2 self;
     RGATConv._alpha := RGATConv._alpha self |}.

(** The edge attributes, if any, have the width that the layer was
    configured for. *)
Definition edge_attr_fits (c : RGATConv.config)
           (edge_attr : option RGATConv.edge_attr_tensor) : Prop :=
  match edge_attr, RGATConv.edge_dim c with
  | None, _ => True
  | Some (RGATConv.Attr1 _), Some ed => ed = 1
  | Some (RGATConv.Attr2 m), Some ed => rows_have ed m
  | Some _, None => False
  end.

(** A layer whose [mod] is not one of the four names. *)
Definition odd_mod_layer : RGATConv.t :=
  tiny_layer (tiny_config "across-relation" (Some "residual"%string)).

(** A block-diagonal layer with one block per relation and integer
    features. *)
Definition tiny_block_layer : RGATConv.t :=
  {| RGATConv.hp :=
       with_decomposition None (Some 1) (default_config 1 1 2);
     RGATConv.training := false;
     RGATConv.q := [[1%R]];
     RGATConv.k := [[1%R]];
     RGATConv.bias := Some [0%R];
     RGATConv.lin_edge := None;
     RGATConv.e := None;
     RGATConv.att := None;
     RGATConv.basis := None;
     RGATConv.weight := Some (RGATConv.Blocked [[[[1%R]]]; [[[1%R]]]]);
     RGATConv.w := [1%R];
     RGATConv.l1 := [[1%R]];
     RGATConv.b1 := [[0%R]];
     RGATConv.l2 := [[1%R]];
     RGATConv.b2 := [[0%R]];
     RGATConv._alpha := None |}.

Definition tiny_long_x : features :=
  {| x_dtype := long; rows := [[1%R]; [2%R]; [3%R]] |}.

(** The same arguments with another attention scope. *)
Definition config_with_mechanism (mechanism : string) (c : RGATConv.config)
  : RGATConv.config :=
  with_modulation (RGATConv.mod_ c) mechanism (RGATConv.dropout c)
                  (RGATConv.dim c) c.

(** *** Shapes *)

(** A tensor of [d1] rows of [d2] entries, and of [d1] such matrices. *)
Definition shape2 (d1 d2 : nat) (m : matrix) : Prop :=
  length m = d1 /\ rows_have d2 m.
Definition shape3 (d1 d2 d3 : nat) (t0 : tensor3) : Prop :=
  length t0 = d1 /\ forall m, In m t0 -> shape2 d2 d3 m.

(** The relation weights have the shapes that rgat.py:121-141 allocates:
    per relation [num_blocks] blocks of [in_channels / num_blocks] rows, or
    [in_channels] rows; [num_bases] bases of [in_channels] rows. *)
Definition weights_shaped (self : RGATConv.t) : Prop :=
  let c := RGATConv.hp self in
  let ho := RGATConv.heads c * RGATConv.out_channels c in
  match RGATConv.num_blocks c, RGATConv.num_bases c with
  | Some _, Some _ => False
  | Some nb, None =>
      exists wt,
        RGATConv.weight self = Some (RGATConv.Blocked wt)
        /\ nb * (RGATConv.in_channels c / nb) = RGATConv.in_channels c
        /\ nb * (ho / nb) = ho
        /\ forall wr, In wr wt ->
             shape3 nb (RGATConv.in_channels c / nb) (ho / nb) wr
  | None, Some nb =>
      exists a b,
        RGATConv.att self = Some a /\ RGATConv.basis self = Some b
        /\ shape3 nb (RGATConv.in_channels c) ho b
  | None, None =>
      exists wt,
        RGATConv.weight self = Some (RGATConv.Dense wt)
        /\ forall wr, In wr wt -> shape2 (RGATConv.in_channels c) ho wr
  end.

(** The width of a row that [update] returns (rgat.py:324-346). *)
Definition out_width (c : RGATConv.config) : nat :=
  if RGATConv.concat c
  then RGATConv.heads c * RGATConv.dim c * RGATConv.out_channels c
  else RGATConv.dim c * RGATConv.out_channels c.

(** The node tensor of a result of [forward]. *)
Definition out_of (r : RGATConv.forward_result) : matrix :=
  match r with
  | RGATConv.Out out => out
  | RGATConv.OutAttention out _ _ => out
  end.

(** *** A small model *)

(** Memory and draws that hold zero everywhere, per submodule and
    parameter. *)
Definition mem1 : string -> string -> list nat -> R := fun _ _ _ => 0%R.

(** Sizes of which [hidden_dim] is no multiple of four, and sizes that all
    are. *)
Definition uneven_args : RGAT.args :=
  {| RGAT.in_dim := 4; RGAT.hidden_dim := 6; RGAT.out_dim := 4 |}.
Definition even_args : RGAT.args :=
  {| RGAT.in_dim := 4; RGAT.hidden_dim := 8; RGAT.out_dim := 4 |}.

(** The blocks argument that the model passes to its layers
    (rgat.py:362-367). *)
Definition model_blocks (num_edge_type : nat) : option nat :=
  if 20 <? num_edge_type then Some 4 else None.

(** Three nodes with one channel, two layers as [tiny_layer], one decoder
    relation; and a dropout mask for two edges that keeps everything. *)
Definition tiny_model : RGAT.t :=
  {| RGAT.node_emb := [[1%R]; [2%R]; [3%R]];
     RGAT.conv1 := tiny_layer (tiny_config "across-relation" None);
     RGAT.conv2 := tiny_layer (tiny_config "across-relation" None);
     RGAT.W := [[5%R]] |}.
Definition full_mask : list (list bool) := [[true]; [true]].

(** *** Subgraphs *)

(** [p] lists edge numbers without repetition, and with an edge every
    edge that has the same key (the same target node, or the same relation
    and target node). *)
Definition whole_groups {K : Type} (keq : K -> K -> bool) (p : list nat)
           (keys : list K) : Prop :=
  NoDup p
  /\ forall n n' a b,
       In n p -> nth_error keys n = Some a -> nth_error keys n' = Some b ->
       keq b a = true -> In n' p.

(** The numbers of the edges whose target node satisfies [keepnode], in
    edge order. *)
Definition edges_into (keepnode : nat -> bool) (index : list nat)
  : list nat :=
  filter (fun n => match nth_error index n with
                   | Some i => keepnode i
                   | None => false
                   end)
         (seq 0 (length index)).

(** The result [r] with another node tensor. *)
Definition with_out (out : matrix) (r : RGATConv.forward_result)
  : RGATConv.forward_result :=
  match r with
  | RGATConv.Out _ => RGATConv.Out out
  | RGATConv.OutAttention _ edge_index alpha =>
      RGATConv.OutAttention out edge_index alpha
  end.

(** The graph of [tiny_edges] with a third edge 2 -> 0, a mask that keeps
    everything, and the node set that holds node 1 only. *)
Definition fork_edges : RGATConv.edge_index_tensor := ([0; 1; 2], [1; 1; 0]).
Definition fork_types : list nat := [0; 1; 0].
Definition fork_mask : list (list bool) := [[true]; [true]; [true]].
Definition only_node_1 (i : nat) : bool := i =? 1.

(** [tiny_x] with other features for node 2. *)
Definition tiny_x_other : features :=
  {| x_dtype := float; rows := [[1%R]; [2%R]; [7%R]] |}.

(** A layer with one relation and two bases of one input and one output
    channel. *)
Definition tiny_basis_layer : RGATConv.t :=
  {| RGATConv.hp :=
       with_decomposition (Some 2) None (default_config 1 1 1);
     RGATConv.training := false;
     RGATConv.q := [[1%R]];
     RGATConv.k := [[1%R]];
     RGATConv.bias := Some [0%R];
     RGATConv.lin_edge := None;
     RGATConv.e := None;
     RGATConv.att := Some [[1%R; 2%R]];
     RGATConv.basis := Some [[[1%R]]; [[10%R]]];
     RGATConv.weight := None;
     RGATConv.w := [1%R];
     RGATConv.l1 := [[1%R]];
     RGATConv.b1 := [[0%R]];
     RGATConv.l2 := [[1%R]];
     RGATConv.b2 := [[0%R]];
     RGATConv._alpha := None |}.




(** The parameters that [message] reads before line 221 have the shapes
    that the constructor allocates (rgat.py:94-141), with positive sizes
    and, if bases are used, at least one basis: the views of lines 195-196
    and 204-205, the batched product of line 215 and the products of
    lines 218-219 are then defined on features of [in_channels] columns. *)
Definition shaped_for_message (self : RGATConv.t) : Prop :=
  let c := RGATConv.hp self in
  let ho := RGATConv.heads c * RGATConv.out_channels c in
  let hk := RGATConv.heads c * RGATConv.dim c in
  0 < RGATConv.in_channels c /\ 0 < ho
  /\ RGATConv.num_bases c <> Some 0
  /\ well_shaped self /\ weights_shaped self
  /\ shape2 ho hk (RGATConv.q self) /\ shape2 ho hk (RGATConv.k self)
  /\ (forall nb a,
        RGATConv.num_bases c = Some nb -> RGATConv.att self = Some a ->
        shape2 (RGATConv.num_relations c) nb a).

(** * Properties *)

Import RGATConv.

(** ** Construction *)

Lemma Rgtb_true (x y : R) : Rgtb x y = true <-> (y < x)%R.
Proof.
  unfold Rgtb. destruct (Rlt_dec y x); split; intros; try easy; discriminate.
Qed.

Lemma Rgtb_false (x y : R) : Rgtb x y = false <-> (x <= y)%R.
Proof.
  unfold Rgtb. destruct (Rlt_dec y x); split; intros; try easy;
    try discriminate; lra.
Qed.

Lemma Rgtb_refl (x : R) : Rgtb x x = false.
Proof. apply Rgtb_false. lra. Qed.

Lemma init_after_validate mem draw c err :
  validate c = inl err -> __init__ mem draw c = inl err.
Proof. intros H. unfold __init__. now rewrite H. Qed.

Lemma validate_raises_ValueError c err :
  validate c = inl err -> exists why, err = ValueError why.
Proof.
  unfold validate, raise, ret.
  repeat match goal with
         | |- context [if ?b then _ else _] => destruct b
         end; intros H; inversion H; eauto.
Qed.

Lemma validate_both_decompositions c :
  is_some (num_bases c) = true -> is_some (num_blocks c) = true ->
  exists why, validate c = inl (ValueError why).
Proof.
  intros Hb Hk. unfold validate, raise, ret. rewrite Hb, Hk. cbn [andb].
  repeat match goal with
         | |- context [if ?b then _ else _] => destruct b
         end; eauto.
Qed.

Lemma validate_additive_dim c :
  attention_mode c = "additive-self-attention"%string -> 1 < dim c ->
  exists why, validate c = inl (ValueError why).
Proof.
  intros Hm Hd. unfold validate, raise, ret. rewrite Hm.
  apply Nat.ltb_lt in Hd. rewrite Hd. cbn -[Rgtb].
  destruct (_ && _); eauto.
Qed.

Lemma validate_dropout_mod c m :
  (0 < dropout c)%R -> mod_ c = Some m -> In m mod_types ->
  exists why, validate c = inl (ValueError why).
Proof.
  intros Hp Hm Hin. unfold validate, raise, ret.
  apply Rgtb_true in Hp. rewrite Hp.
  assert (Ht : mod_in_mod_types c = true).
  { unfold mod_in_mod_types. apply existsb_exists. exists m. split; [easy|].
    unfold mod_is. rewrite Hm. apply String.eqb_refl. }
  rewrite Ht. cbn [andb].
  repeat match goal with
         | |- context [if ?b then _ else _] => destruct b
         end; eauto.
Qed.

(** C4: a configuration with both [num_bases] and [num_blocks], one with
    the additive score and [dim > 1] (so [dim = 2]), and one with a positive
    [dropout] (so 0.5) and a named modulation (so "scaled") are each refused
    by the constructor with a [ValueError]: no layer is returned, hence no
    forward call can follow. *)
Theorem init_rejects_conflicting_arguments
        (mem draw : string -> list nat -> R) (c : config) :
  (is_some (num_bases c) = true -> is_some (num_blocks c) = true ->
   exists why, __init__ mem draw c = inl (ValueError why))
  /\ (attention_mode c = "additive-self-attention"%string -> 1 < dim c ->
      exists why, __init__ mem draw c = inl (ValueError why))
  /\ (forall m, (0 < dropout c)%R -> mod_ c = Some m -> In m mod_types ->
      exists why, __init__ mem draw c = inl (ValueError why)).
Proof.
  repeat split.
  - intros Hb Hk. destruct (validate_both_decompositions c Hb Hk) as [why H].
    exists why. now apply init_after_validate.
  - intros Hm Hd. destruct (validate_additive_dim c Hm Hd) as [why H].
    exists why. now apply init_after_validate.
  - intros m Hp Hm Hin.
    destruct (validate_dropout_mod c Hp Hm Hin) as [why H].
    exists why. now apply init_after_validate.
Qed.

Lemma init_rejects_conflicting_arguments_witness :
  (exists why, __init__ mem0 mem0 both_decompositions = inl (ValueError why))
  /\ (exists why, __init__ mem0 mem0 additive_dim_2 = inl (ValueError why))
  /\ (exists why, __init__ mem0 mem0 dropout_scaled = inl (ValueError why)).
Proof.
  split; [|split].
  - apply (proj1 (init_rejects_conflicting_arguments mem0 mem0
                    both_decompositions)); reflexivity.
  - apply (proj1 (proj2 (init_rejects_conflicting_arguments mem0 mem0
                           additive_dim_2))); [reflexivity | simpl; lia].
  - apply (proj2 (proj2 (init_rejects_conflicting_arguments mem0 mem0
                           dropout_scaled)) "scaled"%string).
    + simpl. lra.
    + reflexivity.
    + simpl. tauto.
Defined.

Ltac run_validate :=
  unfold validate; cbn -[Rgtb Rdiv]; rewrite ?Rgtb_refl; cbn -[Rgtb Rdiv].

Example init_both_decompositions :
  __init__ mem0 mem0 both_decompositions = inl (ValueError BasesAndBlocks).
Proof. apply init_after_validate. run_validate. reflexivity. Qed.

Example init_additive_dim_2 :
  __init__ mem0 mem0 additive_dim_2 = inl (ValueError AdditiveWithDimAbove1).
Proof. apply init_after_validate. run_validate. reflexivity. Qed.

Example init_dropout_scaled :
  __init__ mem0 mem0 dropout_scaled = inl (ValueError DropoutWithMod).
Proof.
  apply init_after_validate. unfold validate. cbn -[Rgtb Rdiv].
  replace (Rgtb (5 / 10) 0) with true; [reflexivity|].
  symmetry. apply Rgtb_true. lra.
Qed.

Lemma validate_block_config nb : validate (block_config nb) = inr tt.
Proof. run_validate. reflexivity. Qed.

Lemma validate_ok_no_bases c nb :
  validate c = inr tt -> num_blocks c = Some nb -> num_bases c = None.
Proof.
  unfold validate, raise, ret. intros H Hk. rewrite Hk in H.
  destruct (num_bases c); [|reflexivity]. cbn [is_some andb] in H.
  repeat match type of H with
         | context [if ?b then _ else _] => destruct b
         end; discriminate.
Qed.




(** ** reset_parameters *)

Lemma map2_length {A B C : Type} (f : A -> B -> C) l1 l2 :
  length (map2 f l1 l2) = Nat.min (length l1) (length l2).
Proof. unfold map2. now rewrite length_map, length_combine. Qed.

Lemma combine_nth_lt {A B : Type} (l1 : list A) (l2 : list B) n da db :
  n < length l1 -> n < length l2 ->
  nth n (combine l1 l2) (da, db) = (nth n l1 da, nth n l2 db).
Proof.
  revert l2 n. induction l1 as [|a l1 IH]; intros [|b l2] [|n] H1 H2;
    simpl in *; try lia; try reflexivity.
  apply IH; lia.
Qed.

Lemma map2_nth {A B C : Type} (f : A -> B -> C) l1 l2 n da db dc :
  n < length l1 -> n < length l2 ->
  nth n (map2 f l1 l2) dc = f (nth n l1 da) (nth n l2 db).
Proof.
  intros H1 H2. unfold map2.
  rewrite (nth_indep _ dc (f (fst (da, db)) (snd (da, db)))).
  - rewrite (map_nth (fun p => f (fst p) (snd p))).
    now rewrite combine_nth_lt.
  - rewrite length_map, length_combine. lia.
Qed.

(** Every entry of a refilled tensor is the new value for its position. *)
Lemma refill1_nth f (v : vector) j :
  j < length v -> nth j (refill1 f v) 0%R = f [j].
Proof.
  intros H. unfold refill1.
  rewrite map2_nth with (da := 0) (db := 0%R); rewrite ?length_seq; try lia.
  now rewrite seq_nth.
Qed.

Lemma refill2_nth f (m : matrix) i j :
  i < length m -> j < length (nth i m []) ->
  nth j (nth i (refill2 f m) []) 0%R = f [i; j].
Proof.
  intros Hi Hj. unfold refill2.
  rewrite map2_nth with (da := 0) (db := @nil R); rewrite ?length_seq; try lia.
  rewrite seq_nth by lia. now rewrite refill1_nth.
Qed.

Lemma refill2_shape f (m : matrix) :
  length (refill2 f m) = length m
  /\ forall i, length (nth i (refill2 f m) []) = length (nth i m []).
Proof.
  unfold refill2. split.
  - rewrite map2_length, length_seq. lia.
  - intros i. destruct (Nat.lt_ge_cases i (length m)) as [Hi|Hi].
    + rewrite map2_nth with (da := 0) (db := @nil R); rewrite ?length_seq; try lia.
      unfold refill1. rewrite map2_length, length_seq. lia.
    + rewrite !nth_overflow; try easy.
      rewrite map2_length, length_seq. lia.
Qed.

(** C10: [reset_parameters] returns [l2] exactly as it received it, while
    [q], [k], [bias], [l1], [b1], [b2] and the relation weights are
    refilled (with draws, zeros or ones); after construction [l2] still
    holds whatever the allocated memory held. *)
Theorem reset_parameters_leaves_l2
        (draw : string -> list nat -> R) (self : t) :
  l2 (reset_parameters draw self) = l2 self
  /\ q (reset_parameters draw self) = refill2 (draw "q"%string) (q self)
  /\ k (reset_parameters draw self) = refill2 (draw "k"%string) (k self)
  /\ bias (reset_parameters draw self) = option_map zeros1 (bias self)
  /\ l1 (reset_parameters draw self) = ones2 (l1 self)
  /\ b1 (reset_parameters draw self) = zeros2 (b1 self)
  /\ b2 (reset_parameters draw self) = zeros2 (b2 self)
  /\ (num_bases (hp self) = None ->
      weight (reset_parameters draw self)
      = option_map (glorot_weight (draw "weight"%string)) (weight self))
  /\ (num_bases (hp self) <> None ->
      basis (reset_parameters draw self)
      = option_map (refill3 (draw "basis"%string)) (basis self)
      /\ att (reset_parameters draw self)
         = option_map (refill2 (draw "att"%string)) (att self))
  /\ (forall mem c, 
        __init__ mem draw c = inr self ->
        l2 self = Tensor2 (mem "l2"%string) (out_channels c) (out_channels c)).
Proof.
  repeat split; try reflexivity.
  - intros H. cbn. now rewrite H.
  - cbn. destruct (num_bases (hp self)); [reflexivity | contradiction].
  - cbn. destruct (num_bases (hp self)); [reflexivity | contradiction].
  - intros mem c. unfold __init__.
    destruct (validate c); [discriminate|]. cbn [bind].
    destruct (init_weights mem c) as [|[[a b] wt]]; [discriminate|].
    cbn [bind ret]. intros H. inversion H. reflexivity.
Qed.

(** A layer built over memory that holds 7 everywhere: [l2] is all 7, not
    the constant [1 / out_channels] that line 164 computes. *)
Lemma reset_parameters_leaves_l2_witness :
  exists self,
    __init__ (fun _ _ => 7%R) mem0 (default_config 3 2 2) = inr self
    /\ l2 self = [[7; 7]; [7; 7]]%R
    /\ l1 self = [[1; 1]]%R.
Proof.
  unfold __init__.
  assert (Hv : validate (default_config 3 2 2) = inr tt)
    by (run_validate; reflexivity).
  rewrite Hv. cbn [bind init_weights default_config num_bases num_blocks ret].
  eexists. split; [reflexivity|]. split.
  - apply (proj2 (proj2 (proj2 (proj2 (proj2 (proj2 (proj2 (proj2 (proj2
            (reset_parameters_leaves_l2 mem0 _)))))))))
            (fun _ _ => 7%R) (default_config 3 2 2)).
    unfold __init__. rewrite Hv. reflexivity.
  - reflexivity.
Defined.

(** ** decode *)

Lemma index_select_in_range {A : Type} (d : A) (t : list A) (index : list nat) :
  Forall (fun i => i < length t) index ->
  index_select t index = inr (map (fun i => nth i t d) index).
Proof.
  induction 1 as [|i index Hi _ IH]; [reflexivity|].
  simpl. destruct (nth_error t i) as [a|] eqn:Ha.
  - rewrite IH. cbn [bind ret]. now rewrite (nth_error_nth _ _ d Ha).
  - apply nth_error_None in Ha. lia.
Qed.

Lemma nth_map_lt {A B : Type} (f : A -> B) (l : list A) (n : nat) (da : A)
      (db : B) :
  n < length l -> nth n (map f l) db = f (nth n l da).
Proof.
  intros H. rewrite nth_indep with (d' := f da) by now rewrite length_map.
  apply map_nth.
Qed.

Lemma nth_map_seq {A : Type} (f : nat -> A) (k n : nat) (d : A) :
  n < k -> nth n (map f (seq 0 k)) d = f n.
Proof.
  intros H. rewrite nth_indep with (d' := f 0)
    by (rewrite length_map, length_seq; lia).
  rewrite (map_nth f). now rewrite seq_nth.
Qed.

Lemma vmul3_as_map (C : nat) (a b c : vector) :
  length a = C -> length b = C -> length c = C ->
  vmul (vmul a b) c
  = map (fun n => (nth n a 0 * nth n b 0 * nth n c 0)%R) (seq 0 C).
Proof.
  intros Ha Hb Hc.
  apply nth_ext with (d := 0%R) (d' := 0%R).
  - unfold vmul. rewrite !map2_length, length_map, length_seq. lia.
  - unfold vmul. rewrite !map2_length. intros n Hn.
    rewrite nth_map_seq by lia.
    rewrite map2_nth with (da := 0%R) (db := 0%R);
      rewrite ?map2_length; try lia.
    rewrite map2_nth with (da := 0%R) (db := 0%R); try lia.
    reflexivity.
Qed.

Lemma nth_In_or_default {A : Type} (n : nat) (l : list A) (d : A) (P : A -> Prop) :
  P d -> (forall a, In a l -> P a) -> P (nth n l d).
Proof.
  intros Hd Hl. destruct (nth_in_or_default n l d) as [H|H].
  - now apply Hl.
  - now rewrite H.
Qed.

(** C6: on an embedding matrix and a relation matrix of the same width [C]
    and an edge list whose indices are in range, [decode] returns one
    score per edge, and the score of edge [n] is the DistMult score of the
    embedding of its head, the vector of its relation and the embedding of
    its tail. *)
Theorem decode_is_distmult
        (self : RGAT.t) (z : matrix) (edge_index : edge_index_tensor)
        (edge_type : list nat) (C : nat) :
  (forall r, In r z -> length r = C) ->
  (forall r, In r (RGAT.W self) -> length r = C) ->
  edge_lists_agree edge_index edge_type None ->
  Forall (fun i => i < length z) (fst edge_index) ->
  Forall (fun i => i < length z) (snd edge_index) ->
  Forall (fun r => r < length (RGAT.W self)) edge_type ->
  exists logits,
    RGAT.decode self z edge_index edge_type = inr logits
    /\ length logits = length edge_type
    /\ forall n, n < length edge_type ->
         nth n logits 0%R
         = distmult_score C
             (nth (nth n (fst edge_index) 0) z [])
             (nth (nth n edge_type 0) (RGAT.W self) [])
             (nth (nth n (snd edge_index) 0) z []).
Proof.
  intros Hz HW (Hst & Ht & _) Hs Hd Hr.
  unfold RGAT.decode.
  rewrite !index_select_in_range with (d := @nil R) by assumption.
  cbn [bind ret]. eexists. split; [reflexivity|].
  assert (Hlen : forall f (l1 l2 l3 : list nat),
             length l1 = length l2 -> length l3 = length l2 ->
             length (map Rsum (mmul (mmul (map (fun i => nth i z []) l1)
                                          (map f l3))
                                    (map (fun i => nth i z []) l2)))
             = length l3).
  { intros f l1 l2 l3 H1 H3. unfold mmul.
    rewrite length_map, !map2_length, !length_map. lia. }
  split; [now apply Hlen|].
  intros n Hn.
  rewrite nth_map_lt with (da := @nil R) by (unfold mmul;
    rewrite !map2_length, !length_map; lia).
  unfold mmul.
  rewrite map2_nth with (da := @nil R) (db := @nil R);
    rewrite ?map2_length, ?length_map; try lia.
  rewrite map2_nth with (da := @nil R) (db := @nil R);
    rewrite ?length_map; try lia.
  rewrite !nth_map_lt with (da := 0) by lia.
  unfold distmult_score. f_equal. apply vmul3_as_map.
  - apply Hz. apply nth_In. rewrite Forall_forall in Hs. apply Hs.
    apply nth_In. lia.
  - apply HW. apply nth_In. rewrite Forall_forall in Hr. apply Hr.
    apply nth_In. lia.
  - apply Hz. apply nth_In. rewrite Forall_forall in Hd. apply Hd.
    apply nth_In. lia.
Qed.

Lemma decode_is_distmult_witness :
  exists logits,
    RGAT.decode tiny_decoder tiny_z ([0], [1]) [0] = inr logits
    /\ length logits = 1
    /\ forall n, n < 1 ->
         nth n logits 0%R
         = distmult_score 2 (nth (nth n [0] 0) tiny_z [])
                          (nth (nth n [0] 0) [[5%R; 6%R]] [])
                          (nth (nth n [1] 0) tiny_z []).
Proof.
  apply (@decode_is_distmult tiny_decoder tiny_z ([0], [1]) [0] 2).
  - simpl. intros r [H|[H|[]]]; now subst.
  - simpl. intros r [H|[]]; now subst.
  - repeat split.
  - repeat constructor.
  - repeat constructor.
  - repeat constructor.
Defined.

(** The hand-computed value: 1*5*3 + 2*6*4 = 63. *)
Example decode_single_triple :
  RGAT.decode tiny_decoder tiny_z ([0], [1]) [0] = inr [63%R].
Proof.
  unfold RGAT.decode. simpl. unfold ret. do 2 f_equal. lra.
Qed.

(** ** The structure of message and forward *)

Lemma message_inv self x_i x_j edge_type edge_attr index size_i keep msgs self' :
  message self x_i x_j edge_type edge_attr index size_i keep
  = (inr msgs, self') ->
  exists outi outj alpha_edge,
    transform self x_i x_j edge_type = inr (outi, outj)
    /\ edge_term self edge_attr edge_type = inr alpha_edge
    /\ self' = set_alpha
                 (Some (normalize self
                          (score self (matmul outi (q self))
                                 (matmul outj (k self)) alpha_edge)
                          edge_type index size_i)) self
    /\ msgs = modulate self
                (normalize self
                   (score self (matmul outi (q self))
                          (matmul outj (k self)) alpha_edge)
                   edge_type index size_i)
                outj index size_i keep.
Proof.
  unfold message.
  destruct (transform self x_i x_j edge_type) as [err|[outi outj]];
    [discriminate|].
  destruct (edge_term self edge_attr edge_type) as [err|alpha_edge];
    [discriminate|].
  intros H. inversion H. exists outi, outj, alpha_edge. repeat split.
Qed.

Lemma message_sets_alpha self x_i x_j edge_type edge_attr index size_i keep
      msgs self' :
  message self x_i x_j edge_type edge_attr index size_i keep
  = (inr msgs, self') ->
  exists alpha, self' = set_alpha (Some alpha) self.
Proof.
  intros H. apply message_inv in H as (outi & outj & ae & _ & _ & H & _).
  eauto.
Qed.

Lemma message_error_keeps_state self x_i x_j edge_type edge_attr index size_i
      keep err self' :
  message self x_i x_j edge_type edge_attr index size_i keep
  = (inl err, self') ->
  self' = self.
Proof.
  unfold message.
  destruct (transform self x_i x_j edge_type) as [e1|[outi outj]].
  - intros H. now inversion H.
  - destruct (edge_term self edge_attr edge_type) as [e2|alpha_edge];
      intros H; now inversion H.
Qed.

(** The stale content of [_alpha] is not read by [message]. *)
Lemma message_ignores_alpha stale self x_i x_j edge_type edge_attr index
      size_i keep msgs self' :
  message self x_i x_j edge_type edge_attr index size_i keep
  = (inr msgs, self') ->
  message (set_alpha stale self) x_i x_j edge_type edge_attr index size_i keep
  = (inr msgs, self').
Proof.
  unfold message.
  change (transform (set_alpha stale self) x_i x_j edge_type)
    with (transform self x_i x_j edge_type).
  destruct (transform self x_i x_j edge_type) as [err|[outi outj]];
    [discriminate|].
  change (edge_term (set_alpha stale self) edge_attr edge_type)
    with (edge_term self edge_attr edge_type).
  destruct (edge_term self edge_attr edge_type) as [err|alpha_edge];
    [discriminate|].
  intros H. inversion H. reflexivity.
Qed.

Lemma forward_inv self x edge_index edge_type edge_attr raw keep r self' :
  forward self x edge_index edge_type edge_attr raw keep = (inr r, self') ->
  exists xi xj msgs alpha,
    index_select (rows x) (fst edge_index) = inr xj
    /\ index_select (rows x) (snd edge_index) = inr xi
    /\ message self {| x_dtype := x_dtype x; rows := xi |}
               {| x_dtype := x_dtype x; rows := xj |}
               edge_type edge_attr (snd edge_index) (length (rows x)) keep
       = (inr msgs, set_alpha (Some alpha) self)
    /\ self' = set_alpha None self
    /\ r = let out := update self
                        (aggregate self msgs (snd edge_index)
                                   (length (rows x))) in
           match raw with
           | Some _ => OutAttention out edge_index alpha
           | None => Out out
           end.
Proof.
  unfold forward, propagate.
  destruct (index_select (rows x) (fst edge_index)) as [err|xj];
    [discriminate|].
  destruct (index_select (rows x) (snd edge_index)) as [err|xi];
    [discriminate|].
  destruct (message _ _ _ _ _ _ _ _) as [[err|msgs] s] eqn:Hm;
    [discriminate|].
  destruct (message_sets_alpha _ _ _ _ _ _ _ _ Hm) as [alpha ->].
  cbn [_alpha set_alpha].
  intros H. exists xi, xj, msgs, alpha.
  split; [reflexivity|]. split; [reflexivity|]. split; [exact Hm|].
  destruct raw; inversion H; split; reflexivity.
Qed.

(** ** The transient field [_alpha] *)

(** C9: when [forward] returns, whether or not the attention weights were
    requested, the field [_alpha] is [None] again; it was set by [message]
    during the call; and the value the field held before the call (left by
    any earlier call) has no influence on what the call returns. *)
Theorem forward_clears_alpha
        (self : t) (x : features) (edge_index : edge_index_tensor)
        (edge_type : list nat) (edge_attr : option edge_attr_tensor)
        (raw : option bool) (keep : list (list bool))
        (r : forward_result) (self' : t) :
  forward self x edge_index edge_type edge_attr raw keep = (inr r, self') ->
  _alpha self' = None
  /\ (exists out alpha,
        propagate self edge_index edge_type x edge_attr keep
        = (inr out, set_alpha (Some alpha) self))
  /\ (forall stale,
        forward (set_alpha stale self) x edge_index edge_type edge_attr raw
                keep
        = (inr r, self')).
Proof.
  intros H.
  destruct (forward_inv _ _ _ _ _ _ _ H)
    as (xi & xj & msgs & alpha & Hj & Hi & Hm & -> & ->).
  split; [reflexivity|]. split.
  - unfold propagate. rewrite Hj, Hi, Hm. eauto.
  - intros stale. unfold forward, propagate.
    rewrite Hj, Hi.
    rewrite (message_ignores_alpha stale _ _ _ _ _ _ _ _ Hm).
    cbn [_alpha set_alpha]. destruct raw; reflexivity.
Qed.

Lemma forward_clears_alpha_witness :
  exists r self',
    forward (tiny_layer (tiny_config "across-relation" None)) tiny_x
            tiny_edges tiny_types None (Some true) []
    = (inr r, self')
    /\ _alpha self' = None
    /\ forall stale,
         forward (set_alpha stale
                            (tiny_layer (tiny_config "across-relation" None)))
                 tiny_x tiny_edges tiny_types None (Some true) []
         = (inr r, self').
Proof.
  eexists. eexists.
  split; [reflexivity|].
  split.
  - apply (proj1 (@forward_clears_alpha
                    (tiny_layer (tiny_config "across-relation" None)) tiny_x
                    tiny_edges tiny_types None (Some true) [] _ _ eq_refl)).
  - apply (proj2 (proj2 (@forward_clears_alpha
                    (tiny_layer (tiny_config "across-relation" None)) tiny_x
                    tiny_edges tiny_types None (Some true) [] _ _ eq_refl))).
Defined.

(** ** Edge attributes without an edge projection *)

Lemma init_without_edge_dim mem draw c self :
  __init__ mem draw c = inr self -> edge_dim c = None -> lin_edge self = None.
Proof.
  unfold __init__. intros H Hc.
  destruct (validate c); [discriminate|]. cbn [bind] in H.
  destruct (init_weights mem c) as [|[[a b] wt]]; [discriminate|].
  cbn [bind ret] in H. inversion H. cbn. now rewrite Hc.
Qed.

Lemma edge_term_without_lin_edge self ea edge_type :
  lin_edge self = None ->
  edge_term self (Some ea) edge_type = inl (AssertionError LinEdgeIsNone).
Proof. intros H. unfold edge_term. now rewrite H. Qed.

(** ** f-additive modulation *)

Lemma mod_is_f_additive c :
  mod_ c = Some "f-additive"%string ->
  mod_is c "additive" = false /\ mod_is c "scaled" = false
  /\ mod_is c "f-additive" = true.
Proof. intros H. unfold mod_is. rewrite H. repeat split. Qed.

Lemma f_additive_entries (alpha : matrix) :
  Forall2 (Forall2 (fun a a' => ((0 < a)%R -> a' = (a + 1)%R)
                                /\ ((a <= 0)%R -> a' = a)))
          alpha (f_additive alpha).
Proof.
  unfold f_additive.
  induction alpha as [|row alpha IH]; constructor; [|exact IH].
  induction row as [|a row IHr]; constructor; [|exact IHr].
  destruct (Rgtb a 0) eqn:Ha.
  - apply Rgtb_true in Ha. split; intros; [reflexivity | lra].
  - apply Rgtb_false in Ha. split; intros; [lra | reflexivity].
Qed.

(** C5: under the f-additive modulation the message is the plain product
    [weighted] (rgat.py:317-322, no residual term) of the source rows with
    coefficients [alpha'] that agree entry by entry with the normalised
    coefficients [alpha] stored in [_alpha], except that every entry above
    0 is increased by exactly 1; entries that are 0 or negative are kept. *)
Theorem f_additive_shifts_positive_coefficients
        (self : t) (x_i x_j : features) (edge_type : list nat)
        (edge_attr : option edge_attr_tensor) (index : list nat)
        (size_i : nat) (keep : list (list bool))
        (msgs : matrix) (self' : t) :
  mod_ (hp self) = Some "f-additive"%string ->
  message self x_i x_j edge_type edge_attr index size_i keep
  = (inr msgs, self') ->
  exists outi outj alpha alpha',
    transform self x_i x_j edge_type = inr (outi, outj)
    /\ _alpha self' = Some alpha
    /\ msgs = weighted (hp self) alpha' outj
    /\ Forall2 (Forall2 (fun a a' => ((0 < a)%R -> a' = (a + 1)%R)
                                     /\ ((a <= 0)%R -> a' = a)))
               alpha alpha'.
Proof.
  intros Hmod H.
  apply message_inv in H as (outi & outj & ae & Ht & _ & -> & ->).
  destruct (mod_is_f_additive _ Hmod) as (H1 & H2 & H3).
  eexists outi, outj, _, _. split; [exact Ht|]. split; [reflexivity|].
  split.
  - unfold modulate. rewrite H1, H2, H3. reflexivity.
  - apply f_additive_entries.
Qed.

Lemma f_additive_shifts_positive_coefficients_witness :
  exists msgs self' outi outj alpha alpha',
    message (tiny_layer (tiny_config "across-relation" (Some "f-additive"%string)))
            {| x_dtype := float; rows := [[2%R]; [2%R]] |}
            {| x_dtype := float; rows := [[1%R]; [2%R]] |}
            tiny_types None [1; 1] 3 []
    = (inr msgs, self')
    /\ transform (tiny_layer (tiny_config "across-relation"
                                          (Some "f-additive"%string)))
                 {| x_dtype := float; rows := [[2%R]; [2%R]] |}
                 {| x_dtype := float; rows := [[1%R]; [2%R]] |}
                 tiny_types
       = inr (outi, outj)
    /\ _alpha self' = Some alpha
    /\ msgs = weighted (tiny_config "across-relation"
                                    (Some "f-additive"%string)) alpha' outj
    /\ Forall2 (Forall2 (fun a a' => ((0 < a)%R -> a' = (a + 1)%R)
                                     /\ ((a <= 0)%R -> a' = a)))
               alpha alpha'.
Proof.
  eexists. eexists.
  destruct (@f_additive_shifts_positive_coefficients
              (tiny_layer (tiny_config "across-relation"
                                       (Some "f-additive"%string)))
              {| x_dtype := float; rows := [[2%R]; [2%R]] |}
              {| x_dtype := float; rows := [[1%R]; [2%R]] |}
              tiny_types None [1; 1] 3 [] _ _ eq_refl eq_refl)
    as (outi & outj & alpha & alpha' & H).
  exists outi, outj, alpha, alpha'. split; [reflexivity | exact H].
Defined.

(** ** Sums and groups *)

Lemma Rsum_app (u v : vector) : Rsum (u ++ v) = (Rsum u + Rsum v)%R.
Proof.
  induction u as [|a u IH]; simpl; [lra|]. rewrite IH. lra.
Qed.

Lemma Rsum_map_div {A : Type} (f : A -> R) (s : R) (l : list A) :
  Rsum (map (fun a => (f a / s)%R) l) = (Rsum (map f l) / s)%R.
Proof.
  induction l as [|a l IH]; simpl.
  - unfold Rdiv. lra.
  - rewrite IH. unfold Rdiv. lra.
Qed.

Lemma Rsum_exp_pos (f : R -> R) (g : vector) :
  g <> [] -> (0 < Rsum (map (fun b => exp (f b)) g))%R.
Proof.
  destruct g as [|a g]; [congruence|]. intros _. simpl.
  assert (H : (0 <= Rsum (map (fun b => exp (f b)) g))%R).
  { induction g as [|b g IH]; simpl; [lra|].
    pose proof (exp_pos (f b)). lra. }
  pose proof (exp_pos (f a)). lra.
Qed.

Lemma Rsum_perm (u v : vector) : Permutation u v -> Rsum u = Rsum v.
Proof.
  induction 1; simpl; lra.
Qed.

Section GroupFacts.
Variable K : Type.
Variable keq : K -> K -> bool.
Hypothesis keq_spec : forall a b, keq a b = true <-> a = b.

Lemma group_nil_r {A : Type} (keys : list K) (key : K) :
  group keq keys key (@nil A) = [].
Proof. unfold group. now rewrite combine_nil. Qed.

Lemma group_cons {A : Type} (k0 : K) (keys : list K) (key : K) (a : A) l :
  group keq (k0 :: keys) key (a :: l)
  = if keq k0 key then a :: group keq keys key l else group keq keys key l.
Proof. unfold group. simpl. now destruct (keq k0 key). Qed.

Lemma group_map {A B : Type} (f : A -> B) (keys : list K) (key : K) l :
  group keq keys key (map f l) = map f (group keq keys key l).
Proof.
  revert l. induction keys as [|k0 keys IH]; intros [|a l];
    try reflexivity.
  simpl map. rewrite !group_cons, IH. now destruct (keq k0 key).
Qed.

(** Within a group every edge carries the key of the group. *)
Lemma group_map2_key {A B : Type} (f : A -> K -> B) (keys : list K) (key : K) l :
  group keq keys key (map2 f l keys)
  = map (fun a => f a key) (group keq keys key l).
Proof.
  revert l. induction keys as [|k0 keys IH]; intros [|a l];
    try reflexivity.
  unfold map2 in *. simpl combine. simpl map. rewrite !group_cons, IH.
  destruct (keq k0 key) eqn:Hk; [|reflexivity].
  apply keq_spec in Hk. now subst.
Qed.

Lemma group_not_in {A : Type} (keys : list K) (key : K) (l : list A) :
  ~ In key keys -> group keq keys key l = [].
Proof.
  revert l. induction keys as [|k0 keys IH]; intros [|a l] Hn;
    try reflexivity.
  rewrite group_cons. destruct (keq k0 key) eqn:Hk.
  - apply keq_spec in Hk. subst. exfalso. apply Hn. now left.
  - apply IH. intros H. apply Hn. now right.
Qed.

Lemma group_in {A : Type} (keys : list K) (key : K) (l : list A) :
  length l = length keys -> In key keys -> group keq keys key l <> [].
Proof.
  revert l. induction keys as [|k0 keys IH]; intros [|a l] Hl Hin;
    simpl in *; try lia; try contradiction.
  rewrite group_cons. destruct (keq k0 key) eqn:Hk; [discriminate|].
  destruct Hin as [->|Hin].
  - assert (keq key key = true) by now apply keq_spec. congruence.
  - apply IH; [lia | assumption].
Qed.

Lemma col_grouped_softmax (c : nat) (src : matrix) (keys : list K) :
  (forall row, In row src -> c < length row) ->
  col c (grouped_softmax keq src keys)
  = map2 (fun row key =>
            let g := group keq keys key (col c src) in
            (exp (nth c row 0 - seg_max g)
             / Rsum (map (fun b => exp (b - seg_max g)) g))%R)
         src keys.
Proof.
  intros Hc. unfold col at 1, grouped_softmax, map2. rewrite map_map.
  apply map_ext_in. intros [row key] Hin. cbn [fst snd].
  rewrite nth_map_seq; [reflexivity|].
  apply Hc. now apply in_combine_l in Hin.
Qed.

(** The coefficients of a group add up to 1. *)
Lemma grouped_softmax_sums_to_one (c : nat) (src : matrix) (keys : list K)
      (key : K) :
  length src = length keys ->
  (forall row, In row src -> c < length row) ->
  In key keys ->
  Rsum (group keq keys key (col c (grouped_softmax keq src keys))) = 1%R.
Proof.
  intros Hl Hc Hin.
  rewrite col_grouped_softmax by assumption.
  rewrite group_map2_key. cbn zeta.
  set (g := group keq keys key (col c src)).
  rewrite (Rsum_map_div (fun row => exp (nth c row 0%R - seg_max g))).
  assert (Hg : map (fun row : vector => exp (nth c row 0%R - seg_max g))
                   (group keq keys key src)
               = map (fun b => exp (b - seg_max g)) g).
  { unfold g, col. rewrite group_map, map_map. reflexivity. }
  rewrite Hg.
  assert (Hpos : (0 < Rsum (map (fun b => exp (b - seg_max g)) g))%R).
  { apply (Rsum_exp_pos (fun b => (b - seg_max g)%R)).
    unfold g. apply group_in; [|assumption].
    unfold col. now rewrite length_map. }
  field. lra.
Qed.

Lemma grouped_softmax_length (src : matrix) (keys : list K) :
  length (grouped_softmax keq src keys) = Nat.min (length src) (length keys).
Proof. unfold grouped_softmax. apply map2_length. Qed.

Lemma grouped_softmax_rows (n : nat) (src : matrix) (keys : list K) :
  (forall row, In row src -> length row = n) ->
  forall row, In row (grouped_softmax keq src keys) -> length row = n.
Proof.
  intros H row Hin. unfold grouped_softmax, map2 in Hin.
  apply in_map_iff in Hin as [[r key] [<- Hin]].
  rewrite length_map, length_seq. apply H.
  now apply in_combine_l in Hin.
Qed.

End GroupFacts.

Lemma pair_eqb_spec (a b : nat * nat) : pair_eqb a b = true <-> a = b.
Proof.
  destruct a as [a1 a2], b as [b1 b2]. unfold pair_eqb. cbn [fst snd].
  rewrite andb_true_iff, !Nat.eqb_eq. split.
  - intros [-> ->]. reflexivity.
  - intros H. inversion H. split; reflexivity.
Qed.

(** ** Shapes inside message *)

Lemma index_select_length {A : Type} (t0 : list A) (index : list nat) l :
  index_select t0 index = inr l -> length l = length index.
Proof.
  revert l. induction index as [|i index IH]; intros l H; simpl in H.
  - now inversion H.
  - destruct (nth_error t0 i); [|discriminate].
    destruct (index_select t0 index) as [|l']; [discriminate|].
    cbn [bind ret] in H. inversion H. simpl. now rewrite (IH l').
Qed.

Lemma index_select_in_bounds {A : Type} (t0 : list A) (index : list nat) l :
  index_select t0 index = inr l -> Forall (fun i => i < length t0) index.
Proof.
  revert l. induction index as [|i index IH]; intros l H; simpl in H.
  - constructor.
  - destruct (nth_error t0 i) eqn:Hi; [|discriminate].
    destruct (index_select t0 index) as [|l']; [discriminate|].
    constructor; [|now apply (IH l')].
    apply nth_error_Some. congruence.
Qed.

Lemma matmul_length (a b : matrix) : length (matmul a b) = length a.
Proof. unfold matmul. apply length_map. Qed.

Lemma matmul_rows (a b : matrix) : rows_have (ncols b) (matmul a b).
Proof.
  intros row Hin. unfold matmul in Hin.
  apply in_map_iff in Hin as [r [<- _]].
  unfold vecmat. now rewrite length_map, length_seq.
Qed.

Lemma map2_rows (f : vector -> vector -> vector) (n : nat) (a b : matrix) :
  (forall u v, length u = n -> length v = n -> length (f u v) = n) ->
  rows_have n a -> rows_have n b -> rows_have n (map2 f a b).
Proof.
  intros Hf Ha Hb row Hin. unfold map2 in Hin.
  apply in_map_iff in Hin as [[u v] [<- Hin]]. cbn [fst snd].
  apply Hf.
  - apply Ha. now apply in_combine_l in Hin.
  - apply Hb. now apply in_combine_r in Hin.
Qed.

Lemma madd_rows (n : nat) (a b : matrix) :
  rows_have n a -> rows_have n b -> rows_have n (madd a b).
Proof.
  apply map2_rows. intros u v Hu Hv. unfold vadd.
  rewrite map2_length. lia.
Qed.

Lemma mmul_rows (n : nat) (a b : matrix) :
  rows_have n a -> rows_have n b -> rows_have n (mmul a b).
Proof.
  apply map2_rows. intros u v Hu Hv. unfold vmul.
  rewrite map2_length. lia.
Qed.

Lemma map_map_rows (f : R -> R) (n : nat) (a : matrix) :
  rows_have n a -> rows_have n (map (map f) a).
Proof.
  intros Ha row Hin. apply in_map_iff in Hin as [r [<- Hin]].
  rewrite length_map. now apply Ha.
Qed.

Lemma einsum_length (x wt : tensor4) :
  length (einsum_abcd_acde_ace x wt) = Nat.min (length x) (length wt).
Proof. unfold einsum_abcd_acde_ace. apply map2_length. Qed.

Lemma transform_length self x_i x_j edge_type outi outj :
  transform self x_i x_j edge_type = inr (outi, outj) ->
  length outi = Nat.min (length (rows x_i)) (length edge_type)
  /\ length outj = Nat.min (length (rows x_j)) (length edge_type).
Proof.
  unfold transform.
  destruct (basis_weight self) as [|wb]; [discriminate|]. cbn [bind].
  destruct (num_blocks (hp self)).
  - destruct (is_long x_i && is_long x_j); [discriminate|].
    destruct (weight self) as [[wt|wt]|]; try discriminate.
    destruct (index_select wt edge_type) as [|we] eqn:Hw; [discriminate|].
    cbn [bind ret]. intros H. inversion H.
    rewrite !length_map, !einsum_length, !length_map.
    now rewrite (index_select_length _ _ Hw).
  - destruct (match wb with Some wt => ret wt | None => _ end) as [|wt];
      [discriminate|]. cbn [bind].
    destruct (index_select wt edge_type) as [|we] eqn:Hw; [discriminate|].
    cbn [bind]. destruct (is_long x_i || is_long x_j); [discriminate|].
    intros H. inversion H. rewrite !map2_length.
    now rewrite (index_select_length _ _ Hw).
Qed.

Lemma edge_rows_length (ea : edge_attr_tensor) :
  length (match ea with
          | Attr1 v => map (fun a => [a]) v
          | Attr2 m => m
          end)
  = match ea with Attr1 v => length v | Attr2 m => length m end.
Proof. destruct ea; [apply length_map | reflexivity]. Qed.

Lemma edge_term_shape self edge_attr edge_type alpha_edge :
  edge_term self edge_attr edge_type = inr alpha_edge ->
  match edge_attr, alpha_edge with
  | None, None => True
  | Some ea, Some ae =>
      length ae = match ea with Attr1 v => length v | Attr2 m => length m end
      /\ exists em, e self = Some em /\ rows_have (ncols em) ae
  | _, _ => False
  end.
Proof.
  unfold edge_term. destruct edge_attr as [ea|].
  - destruct (lin_edge self) as [wl|]; [|discriminate].
    rewrite length_map, Nat.eqb_refl. cbn [bind ret].
    destruct (e self) as [em|]; [|discriminate].
    intros H. inversion H. split.
    + rewrite matmul_length, length_map. apply edge_rows_length.
    + exists em. split; [reflexivity | apply matmul_rows].
  - intros H. now inversion H.
Qed.

Lemma score_shape self (qi kj : matrix) alpha_edge (n E : nat) :
  is_additive (hp self) || is_multiplicative (hp self) = true ->
  rows_have n qi -> rows_have n kj ->
  length qi = E -> length kj = E ->
  match alpha_edge with
  | Some ae => rows_have n ae /\ length ae = E
  | None => True
  end ->
  rows_have n (score self qi kj alpha_edge)
  /\ length (score self qi kj alpha_edge) = E.
Proof.
  intros Hmode Hq Hk Lq Lk Hae. unfold score.
  destruct (is_additive (hp self)).
  - destruct alpha_edge as [ae|].
    + destruct Hae as [Ha La]. split.
      * apply map_map_rows. now repeat apply madd_rows.
      * rewrite length_map. unfold madd. rewrite !map2_length. lia.
    + split.
      * apply map_map_rows. now apply madd_rows.
      * rewrite length_map. unfold madd. rewrite !map2_length. lia.
  - cbn [orb] in Hmode. rewrite Hmode.
    destruct alpha_edge as [ae|].
    + destruct Hae as [Ha La]. split.
      * now repeat apply mmul_rows.
      * unfold mmul. rewrite !map2_length. lia.
    + split.
      * now apply mmul_rows.
      * unfold mmul. rewrite !map2_length. lia.
Qed.

Lemma logits_shape self x_i x_j edge_type edge_attr outi outj alpha_edge E :
  well_shaped self ->
  length (rows x_i) = E -> length (rows x_j) = E -> length edge_type = E ->
  match edge_attr with
  | None => True
  | Some (Attr1 v) => length v = E
  | Some (Attr2 m) => length m = E
  end ->
  transform self x_i x_j edge_type = inr (outi, outj) ->
  edge_term self edge_attr edge_type = inr alpha_edge ->
  rows_have (heads (hp self) * dim (hp self))
            (score self (matmul outi (q self)) (matmul outj (k self))
                   alpha_edge)
  /\ length (score self (matmul outi (q self)) (matmul outj (k self))
                   alpha_edge) = E.
Proof.
  intros (Hmode & Hq & Hk & He & _) Li Lj Lt La Ht Hterm.
  apply transform_length in Ht as [Lo1 Lo2].
  apply edge_term_shape in Hterm.
  apply score_shape; try assumption.
  - rewrite <- Hq. apply matmul_rows.
  - rewrite <- Hk. apply matmul_rows.
  - rewrite matmul_length. lia.
  - rewrite matmul_length. lia.
  - destruct edge_attr as [ea|], alpha_edge as [ae|]; try contradiction;
      [|exact I].
    destruct Hterm as [Lae [em [Hem Hrows]]]. split.
    + rewrite <- (He em Hem). exact Hrows.
    + rewrite Lae. destruct ea; assumption.
Qed.

(** ** Across-relation attention *)

Lemma mechanism_across self alpha edge_type index size_i :
  attention_mechanism (hp self) = "across-relation"%string ->
  normalize self alpha edge_type index size_i
  = grouped_softmax Nat.eqb alpha index.
Proof. intros H. unfold normalize. rewrite H. reflexivity. Qed.

Lemma aggregate_row self (msgs : matrix) (index : list nat) (n i : nat) :
  i < n ->
  nth i (aggregate self msgs index n) []
  = vsum (message_width (hp self)) (group Nat.eqb index i msgs).
Proof. intros H. unfold aggregate. now rewrite nth_map_seq. Qed.

(** C1: with the across-relation scope, in a call of [forward] that returns
    the attention weights [alpha], the coefficients of the edges into a node
    [i] that has an incoming edge add up to 1, in every one of the
    [heads * dim] columns; and the aggregation step gives every node
    without incoming edge a row of zeros, before [update] adds the bias. *)
Theorem across_relation_coefficients_sum_to_one
        (self : t) (x : features) (edge_index : edge_index_tensor)
        (edge_type : list nat) (edge_attr : option edge_attr_tensor)
        (b : bool) (keep : list (list bool))
        (out : matrix) (edge_index' : edge_index_tensor) (alpha : matrix)
        (self' : t) :
  attention_mechanism (hp self) = "across-relation"%string ->
  well_shaped self ->
  edge_lists_agree edge_index edge_type edge_attr ->
  forward self x edge_index edge_type edge_attr (Some b) keep
  = (inr (OutAttention out edge_index' alpha), self') ->
  (forall i c,
      In i (snd edge_index) -> c < heads (hp self) * dim (hp self) ->
      Rsum (group Nat.eqb (snd edge_index) i (col c alpha)) = 1%R)
  /\ exists msgs,
      out = update self (aggregate self msgs (snd edge_index)
                                   (length (rows x)))
      /\ (exists xi xj,
            message self {| x_dtype := x_dtype x; rows := xi |}
                    {| x_dtype := x_dtype x; rows := xj |}
                    edge_type edge_attr (snd edge_index) (length (rows x))
                    keep
            = (inr msgs, set_alpha (Some alpha) self))
      /\ forall i,
          i < length (rows x) -> ~ In i (snd edge_index) ->
          nth i (aggregate self msgs (snd edge_index) (length (rows x))) []
          = repeat 0%R (message_width (hp self)).
Proof.
  intros Hmech Hwf (Lst & Lt & La) H.
  destruct (forward_inv _ _ _ _ _ _ _ H)
    as (xi & xj & msgs & alpha0 & Hj & Hi & Hm & _ & Hr).
  cbn zeta in Hr. inversion Hr; subst out edge_index' alpha0. clear Hr.
  split.
  - intros i c Hin Hc.
    apply message_inv in Hm as (outi & outj & ae & Ht & Hterm & Hs & _).
    assert (Halpha : alpha = grouped_softmax Nat.eqb
                               (score self (matmul outi (q self))
                                      (matmul outj (k self)) ae)
                               (snd edge_index)).
    { rewrite <- (mechanism_across self _ edge_type _ (length (rows x)) Hmech).
      apply (f_equal _alpha) in Hs. cbn [_alpha set_alpha] in Hs.
      now inversion Hs. }
    destruct (fun L1 L2 L3 L4 =>
                @logits_shape self _ _ edge_type edge_attr outi outj ae
                  (length (snd edge_index)) Hwf L1 L2 L3 L4 Ht Hterm)
      as [Hrows Hlen]; try assumption.
    + cbn [rows]. apply (index_select_length _ _ Hi).
    + cbn [rows]. rewrite (index_select_length _ _ Hj). exact Lst.
    + rewrite Halpha.
      apply grouped_softmax_sums_to_one; try assumption.
      * apply Nat.eqb_eq.
      * intros row Hrow. rewrite (Hrows row Hrow). exact Hc.
  - exists msgs. split; [reflexivity|]. split; [now exists xi, xj|].
    intros i Hi' Hn. rewrite aggregate_row by assumption.
    rewrite group_not_in; [reflexivity | apply Nat.eqb_eq | assumption].
Qed.

Lemma tiny_layer_well_shaped m :
  well_shaped (tiny_layer (tiny_config "across-relation" m))
  /\ well_shaped (tiny_layer (tiny_config "within-relation" m)).
Proof.
  split; (split; [reflexivity|]); repeat split; intros; discriminate.
Qed.

Lemma across_relation_coefficients_sum_to_one_witness :
  exists out alpha,
    fst (forward (tiny_layer (tiny_config "across-relation" None)) tiny_x
                 tiny_edges tiny_types None (Some true) [])
    = inr (OutAttention out tiny_edges alpha)
    /\ Rsum (group Nat.eqb [1; 1] 1 (col 0 alpha)) = 1%R
    /\ exists msgs,
        out = update (tiny_layer (tiny_config "across-relation" None))
                     (aggregate (tiny_layer (tiny_config "across-relation" None))
                                msgs [1; 1] 3)
        /\ nth 0 (aggregate (tiny_layer (tiny_config "across-relation" None))
                            msgs [1; 1] 3) []
           = [0%R]
        /\ nth 2 (aggregate (tiny_layer (tiny_config "across-relation" None))
                            msgs [1; 1] 3) []
           = [0%R].
Proof.
  eexists. eexists. split; [reflexivity|].
  destruct (@across_relation_coefficients_sum_to_one
              (tiny_layer (tiny_config "across-relation" None)) tiny_x
              tiny_edges tiny_types None true [] _ _ _ _ eq_refl
              (proj1 (tiny_layer_well_shaped None))
              (conj eq_refl (conj eq_refl I)) eq_refl)
    as [Hsum [msgs [Hout [_ Hzero]]]].
  split.
  - apply (Hsum 1 0); [simpl; tauto | simpl; lia].
  - exists msgs. split; [exact Hout|]. split.
    + apply (Hzero 0); [simpl; lia | simpl; intros [H|[H|[]]]; discriminate].
    + apply (Hzero 2); [simpl; lia | simpl; intros [H|[H|[]]]; discriminate].
Defined.

(** ** The constructor builds well-shaped layers *)

Lemma refill2_length f (m : matrix) : length (refill2 f m) = length m.
Proof. apply refill2_shape. Qed.

Lemma refill3_length f (m : tensor3) : length (refill3 f m) = length m.
Proof. unfold refill3. rewrite map2_length, length_seq. lia. Qed.

Lemma refill4_length f (m : tensor4) : length (refill4 f m) = length m.
Proof. unfold refill4. rewrite map2_length, length_seq. lia. Qed.

Lemma hd_as_nth {A : Type} (l : list A) (d : A) : hd d l = nth 0 l d.
Proof. now destruct l. Qed.

Lemma ncols_refill2 f (m : matrix) : ncols (refill2 f m) = ncols m.
Proof.
  unfold ncols. rewrite !hd_as_nth. destruct (refill2_shape f m) as [_ H].
  apply H.
Qed.

Lemma ncols_Tensor2 mem d1 d2 : 0 < d1 -> ncols (Tensor2 mem d1 d2) = d2.
Proof.
  intros H. unfold ncols. rewrite hd_as_nth. unfold Tensor2.
  rewrite nth_map_seq by assumption. unfold Tensor1.
  now rewrite length_map, length_seq.
Qed.

Lemma validate_mode c :
  validate c = inr tt -> is_additive c || is_multiplicative c = true.
Proof.
  unfold validate, is_additive, is_multiplicative, raise, ret.
  destruct (negb _ && negb _); [discriminate|].
  destruct (String.eqb (attention_mode c) "additive-self-attention");
    [reflexivity|].
  destruct (String.eqb (attention_mode c) "multiplicative-self-attention");
    [reflexivity | discriminate].
Qed.

Lemma init_well_shaped mem draw c self :
  __init__ mem draw c = inr self ->
  0 < heads c * out_channels c ->
  hp self = c /\ well_shaped self.
Proof.
  unfold __init__. intros H Hpos.
  destruct (validate c) as [|[]] eqn:Hv; [discriminate|]. cbn [bind] in H.
  pose proof (validate_mode c Hv) as Hmode.
  destruct (init_weights mem c) as [|[[a0 b0] w0]] eqn:Hw; [discriminate|].
  cbn [bind ret] in H. inversion H. clear H. subst self.
  split; [reflexivity|].
  unfold well_shaped, relation_axis, reset_parameters.
  cbn [hp q k e att basis weight].
  split; [exact Hmode|].
  rewrite !ncols_refill2, !ncols_Tensor2 by assumption.
  split; [reflexivity|]. split; [reflexivity|]. split.
  - intros em. destruct (edge_dim c); [|discriminate].
    cbn [option_map]. intros Hem. inversion Hem.
    now rewrite ncols_refill2, ncols_Tensor2.
  - unfold init_weights in Hw.
    destruct (num_bases c) as [nb|] eqn:Hb.
    + inversion Hw. subst a0 b0 w0. cbn [is_some option_map].
      assert (Hk : num_blocks c = None).
      { unfold validate, raise, ret in Hv. rewrite Hb in Hv.
        destruct (num_blocks c); [|reflexivity]. cbn [is_some andb] in Hv.
        repeat match type of Hv with
               | context [if ?b then _ else _] => destruct b
               end; discriminate. }
      rewrite Hk. rewrite refill2_length. unfold Tensor2.
      now rewrite length_map, length_seq.
    + destruct (num_blocks c) as [nb|] eqn:Hk.
      * destruct (nb =? 0); [discriminate|].
        destruct (_ && _); [|discriminate].
        inversion Hw. subst a0 b0 w0. cbn [is_some option_map glorot_weight].
        rewrite refill4_length. unfold Tensor4.
        now rewrite length_map, length_seq.
      * inversion Hw. subst a0 b0 w0. cbn [is_some option_map glorot_weight].
        rewrite refill3_length. unfold Tensor3.
        now rewrite length_map, length_seq.
Qed.

(** ** Within-relation attention *)

Lemma masked_select_map {A B : Type} (f : A -> B) mask (l : list A) :
  masked_select mask (map f l) = map f (masked_select mask l).
Proof.
  revert l. induction mask as [|b mask IH]; intros [|a l]; try reflexivity.
  simpl. rewrite IH. now destruct b.
Qed.

Lemma masked_select_nil {A : Type} mask : masked_select mask (@nil A) = [].
Proof. now destruct mask. Qed.

(** The edges of relation [r] into node [i], seen through the mask of [r]
    or through the pair key. *)
Lemma group_masked {A : Type} (r i : nat) (edge_type index : list nat)
      (v : list A) :
  group Nat.eqb (masked_select (map (fun ty => ty =? r) edge_type) index) i
        (masked_select (map (fun ty => ty =? r) edge_type) v)
  = group pair_eqb (combine edge_type index) (r, i) v.
Proof.
  revert index v.
  induction edge_type as [|ty edge_type IH]; intros index v.
  - reflexivity.
  - destruct index as [|j index].
    + simpl. reflexivity.
    + destruct v as [|a v].
      * simpl map. simpl masked_select. now rewrite !group_nil_r.
      * simpl map. simpl masked_select. simpl combine.
        rewrite (group_cons pair_eqb). unfold pair_eqb at 1. cbn [fst snd].
        destruct (ty =? r).
        -- rewrite group_cons, IH. reflexivity.
        -- cbn [andb]. apply IH.
Qed.

Lemma softmax_masked (r : nat) (alpha : matrix) (edge_type index : list nat) :
  softmax (masked_select (map (fun ty => ty =? r) edge_type) alpha)
          (masked_select (map (fun ty => ty =? r) edge_type) index) None
  = masked_select (map (fun ty => ty =? r) edge_type)
                  (grouped_softmax pair_eqb alpha (combine edge_type index)).
Proof.
  unfold softmax, grouped_softmax.
  set (F := fun (row : vector) (key : nat * nat) =>
              map (fun c =>
                     let g := group pair_eqb (combine edge_type index) key
                                    (col c alpha) in
                     (exp (nth c row 0 - seg_max g)
                      / Rsum (map (fun b => exp (b - seg_max g)) g))%R)
                  (seq 0 (length row))).
  transitivity
    (map2 (fun row i => F row (r, i))
          (masked_select (map (fun ty => ty =? r) edge_type) alpha)
          (masked_select (map (fun ty => ty =? r) edge_type) index)).
  - unfold map2. apply map_ext. intros [row i]. cbn [fst snd]. unfold F.
    apply map_ext. intros c. cbn zeta. unfold col.
    now rewrite <- masked_select_map, group_masked.
  - fold F. clearbody F. clear.
    revert alpha index.
    induction edge_type as [|ty edge_type IH]; intros alpha index.
    + reflexivity.
    + destruct alpha as [|row alpha]; [reflexivity|].
      destruct index as [|i index].
      * cbn [map masked_select combine]. unfold map2.
        rewrite combine_nil. reflexivity.
      * simpl map. simpl masked_select. unfold map2 in *. simpl combine.
        simpl map. destruct (ty =? r) eqn:Hty.
        -- apply Nat.eqb_eq in Hty. subst ty. simpl. now rewrite IH.
        -- apply IH.
Qed.

Lemma written_below_step (r : nat) (edge_type : list nat) (g z : matrix) :
  length g = length edge_type -> length z = length edge_type ->
  masked_assign (map (fun ty => ty =? r) edge_type)
                (written_below r edge_type g z)
                (masked_select (map (fun ty => ty =? r) edge_type) g)
  = written_below (S r) edge_type g z.
Proof.
  unfold written_below. revert g z.
  induction edge_type as [|ty edge_type IH]; intros [|a g] [|b z] Hg Hz;
    simpl in *; try lia; try reflexivity.
  destruct (ty =? r) eqn:Hty.
  - apply Nat.eqb_eq in Hty. subst ty.
    replace (r <? S r) with true by (symmetry; apply Nat.ltb_lt; lia).
    f_equal. apply IH; lia.
  - apply Nat.eqb_neq in Hty.
    replace (ty <? S r) with (ty <? r).
    + f_equal. apply IH; lia.
    + destruct (ty <? r) eqn:H1; symmetry.
      * apply Nat.ltb_lt in H1. apply Nat.ltb_lt. lia.
      * apply Nat.ltb_ge in H1. apply Nat.ltb_ge. lia.
Qed.

Lemma written_below_0 (edge_type : list nat) (g z : matrix) :
  length g = length edge_type -> length z = length edge_type ->
  written_below 0 edge_type g z = z.
Proof.
  unfold written_below. revert g z.
  induction edge_type as [|ty edge_type IH]; intros [|a g] [|b z] Hg Hz;
    simpl in *; try lia; try reflexivity.
  f_equal. apply IH; lia.
Qed.

Lemma written_below_all (r : nat) (edge_type : list nat) (g z : matrix) :
  length g = length edge_type -> length z = length edge_type ->
  Forall (fun ty => ty < r) edge_type ->
  written_below r edge_type g z = g.
Proof.
  unfold written_below. intros Hg Hz Hall. revert g z Hg Hz.
  induction Hall as [|ty edge_type Hty _ IH]; intros [|a g] [|b z] Hg Hz;
    simpl in *; try lia; try reflexivity.
  apply Nat.ltb_lt in Hty. rewrite Hty. f_equal. apply IH; lia.
Qed.

(** The loop of rgat.py:248-252 in closed form. *)
Lemma within_relation_closed (n_rel : nat) (alpha : matrix)
      (edge_type index : list nat) :
  length edge_type = length alpha -> length index = length alpha ->
  within_relation n_rel alpha edge_type index
  = written_below n_rel edge_type
      (grouped_softmax pair_eqb alpha (combine edge_type index))
      (zeros_like alpha).
Proof.
  intros Ht Hi. unfold within_relation.
  assert (Lg : length (grouped_softmax pair_eqb alpha
                                       (combine edge_type index))
               = length edge_type).
  { rewrite grouped_softmax_length, length_combine. lia. }
  assert (Lz : length (zeros_like alpha) = length edge_type).
  { unfold zeros_like. rewrite length_map. lia. }
  induction n_rel as [|r IH].
  - simpl. symmetry. now apply written_below_0.
  - rewrite seq_S, fold_left_app, IH. cbn [fold_left Nat.add].
    rewrite softmax_masked. now apply written_below_step.
Qed.

Lemma transform_types_in_range self x_i x_j edge_type outs :
  transform self x_i x_j edge_type = inr outs ->
  Forall (fun ty => ty < relation_axis self) edge_type.
Proof.
  unfold transform, basis_weight, relation_axis.
  destruct (num_blocks (hp self)).
  - destruct (match num_bases (hp self) with Some _ => _ | None => _ end);
      [discriminate|]. cbn [bind].
    destruct (is_long x_i && is_long x_j); [discriminate|].
    destruct (weight self) as [[wt|wt]|]; try discriminate.
    destruct (index_select wt edge_type) eqn:Hw; [discriminate|].
    intros _. apply (index_select_in_bounds _ _ Hw).
  - destruct (num_bases (hp self)).
    + destruct (att self) as [a|]; [|discriminate].
      destruct (basis self) as [b|]; [|discriminate].
      cbn [bind ret].
      destruct (index_select _ edge_type) eqn:Hw; [discriminate|].
      intros _. apply index_select_in_bounds in Hw.
      now rewrite length_map, matmul_length in Hw.
    + cbn [bind ret].
      destruct (weight self) as [[wt|wt]|]; try discriminate.
      cbn [bind ret].
      destruct (index_select wt edge_type) eqn:Hw; [discriminate|].
      intros _. apply (index_select_in_bounds _ _ Hw).
Qed.

Lemma mechanism_within self alpha edge_type index size_i :
  attention_mechanism (hp self) = "within-relation"%string ->
  normalize self alpha edge_type index size_i
  = within_relation (num_relations (hp self)) alpha edge_type index.
Proof. intros H. unfold normalize. rewrite H. reflexivity. Qed.

(** C2: with the within-relation scope, in a call of [forward] that returns
    the attention weights [alpha], the coefficients of the edges of relation
    [r] into node [i] add up to 1 whenever there is such an edge, in every
    one of the [heads * dim] columns.  The sum ranges over the group of the
    pair [(r, i)] only, and [alpha] is the softmax of the logits over these
    groups, so an edge of another relation into [i] enters neither the sum
    nor the normalisation. *)
Theorem within_relation_coefficients_sum_to_one
        (self : t) (x : features) (edge_index : edge_index_tensor)
        (edge_type : list nat) (edge_attr : option edge_attr_tensor)
        (b : bool) (keep : list (list bool))
        (out : matrix) (edge_index' : edge_index_tensor) (alpha : matrix)
        (self' : t) :
  attention_mechanism (hp self) = "within-relation"%string ->
  well_shaped self ->
  edge_lists_agree edge_index edge_type edge_attr ->
  forward self x edge_index edge_type edge_attr (Some b) keep
  = (inr (OutAttention out edge_index' alpha), self') ->
  (forall r i c,
      In (r, i) (combine edge_type (snd edge_index)) ->
      c < heads (hp self) * dim (hp self) ->
      Rsum (group pair_eqb (combine edge_type (snd edge_index)) (r, i)
                  (col c alpha)) = 1%R)
  /\ exists logits,
      length logits = length edge_type
      /\ alpha = grouped_softmax pair_eqb logits
                                 (combine edge_type (snd edge_index)).
Proof.
  intros Hmech Hwf (Lst & Lt & La) H.
  destruct (forward_inv _ _ _ _ _ _ _ H)
    as (xi & xj & msgs & alpha0 & Hj & Hi & Hm & _ & Hr).
  cbn zeta in Hr. inversion Hr; subst out edge_index' alpha0. clear Hr.
  apply message_inv in Hm as (outi & outj & ae & Ht & Hterm & Hs & _).
  set (logits := score self (matmul outi (q self)) (matmul outj (k self)) ae)
    in *.
  destruct (fun L1 L2 L3 L4 =>
              @logits_shape self _ _ edge_type edge_attr outi outj ae
                (length (snd edge_index)) Hwf L1 L2 L3 L4 Ht Hterm)
    as [Hrows Hlen]; try assumption.
  { cbn [rows]. apply (index_select_length _ _ Hi). }
  { cbn [rows]. rewrite (index_select_length _ _ Hj). exact Lst. }
  fold logits in Hrows, Hlen.
  assert (Halpha : alpha = grouped_softmax pair_eqb logits
                             (combine edge_type (snd edge_index))).
  { apply (f_equal _alpha) in Hs. cbn [_alpha set_alpha] in Hs.
    inversion Hs as [Ha]. rewrite mechanism_within by assumption.
    rewrite within_relation_closed by lia.
    apply written_below_all.
    - rewrite grouped_softmax_length, length_combine. lia.
    - unfold zeros_like. rewrite length_map. lia.
    - destruct Hwf as (_ & _ & _ & _ & <-).
      apply (transform_types_in_range _ _ _ _ Ht). }
  split.
  - intros r i c Hin Hc. rewrite Halpha.
    apply grouped_softmax_sums_to_one.
    + apply pair_eqb_spec.
    + rewrite length_combine. lia.
    + intros row Hrow. rewrite (Hrows row Hrow). exact Hc.
    + exact Hin.
  - exists logits. split; [lia | exact Halpha].
Qed.

Lemma within_relation_coefficients_sum_to_one_witness :
  exists out alpha,
    fst (forward (tiny_layer (tiny_config "within-relation" None)) tiny_x
                 tiny_edges tiny_types None (Some true) [])
    = inr (OutAttention out tiny_edges alpha)
    /\ Rsum (group pair_eqb [(0, 1); (1, 1)] (0, 1) (col 0 alpha)) = 1%R
    /\ Rsum (group pair_eqb [(0, 1); (1, 1)] (1, 1) (col 0 alpha)) = 1%R.
Proof.
  eexists. eexists. split; [reflexivity|].
  destruct (@within_relation_coefficients_sum_to_one
              (tiny_layer (tiny_config "within-relation" None)) tiny_x
              tiny_edges tiny_types None true [] _ _ _ _ eq_refl
              (proj2 (tiny_layer_well_shaped None))
              (conj eq_refl (conj eq_refl I)) eq_refl)
    as [Hsum _].
  split.
  - apply (Hsum 0 1 0); [simpl; tauto | simpl; lia].
  - apply (Hsum 1 1 0); [simpl; tauto | simpl; lia].
Defined.

(** ** Reordering the edges *)

Lemma permute_cons {A : Type} (n : nat) (p : list nat) (l : list A) :
  permute (n :: p) l
  = match nth_error l n with Some a => [a] | None => [] end ++ permute p l.
Proof. reflexivity. Qed.

Lemma permute_map {A B : Type} (f : A -> B) (p : list nat) (l : list A) :
  permute p (map f l) = map f (permute p l).
Proof.
  induction p as [|n p IH]; [reflexivity|].
  rewrite !permute_cons, map_app, IH, nth_error_map.
  now destruct (nth_error l n).
Qed.

Lemma nth_error_combine_eq {A B : Type} (la : list A) (lb : list B) (n : nat) :
  nth_error (combine la lb) n
  = match nth_error la n, nth_error lb n with
    | Some a, Some b => Some (a, b)
    | _, _ => None
    end.
Proof.
  revert lb n. induction la as [|a la IH]; intros lb n.
  - simpl. now destruct n.
  - destruct lb as [|b lb].
    + simpl. destruct n as [|n]; [reflexivity|].
      simpl. now destruct (nth_error la n).
    + destruct n as [|n]; [reflexivity|]. simpl. apply IH.
Qed.

Lemma nth_error_same_length {A B : Type} (l1 : list A) (l2 : list B) (n : nat) :
  length l1 = length l2 ->
  (nth_error l1 n = None <-> nth_error l2 n = None).
Proof. intros H. rewrite !nth_error_None. lia. Qed.

Lemma permute_combine {A B : Type} (p : list nat) (l1 : list A) (l2 : list B) :
  length l1 = length l2 ->
  permute p (combine l1 l2) = combine (permute p l1) (permute p l2).
Proof.
  intros Hl. induction p as [|n p IH]; [reflexivity|].
  rewrite !permute_cons, IH, nth_error_combine_eq.
  pose proof (nth_error_same_length l1 l2 n Hl) as Hn.
  destruct (nth_error l1 n) as [a|], (nth_error l2 n) as [b|];
    try reflexivity.
  - destruct Hn as [_ Hn]. discriminate (Hn eq_refl).
  - destruct Hn as [Hn _]. discriminate (Hn eq_refl).
Qed.

Lemma permute_map2 {A B C : Type} (f : A -> B -> C) p (l1 : list A)
      (l2 : list B) :
  length l1 = length l2 ->
  permute p (map2 f l1 l2) = map2 f (permute p l1) (permute p l2).
Proof.
  intros Hl. unfold map2. now rewrite permute_map, permute_combine.
Qed.

Lemma is_permutation_bound p E : is_permutation p E -> Forall (fun n => n < E) p.
Proof.
  intros H. apply Forall_forall. intros n Hn.
  apply (Permutation_in _ H) in Hn. apply in_seq in Hn. lia.
Qed.

Lemma is_permutation_length p E : is_permutation p E -> length p = E.
Proof.
  intros H. apply Permutation_length in H. now rewrite length_seq in H.
Qed.

Lemma permute_length_bound {A : Type} (p : list nat) (l : list A) :
  Forall (fun n => n < length l) p -> length (permute p l) = length p.
Proof.
  induction 1 as [|n p Hn _ IH]; [reflexivity|].
  rewrite permute_cons, length_app, IH.
  destruct (nth_error l n) eqn:Hl; [reflexivity|].
  apply nth_error_None in Hl. lia.
Qed.

Lemma permute_length {A : Type} (p : list nat) (l : list A) :
  is_permutation p (length l) -> length (permute p l) = length l.
Proof.
  intros H. rewrite permute_length_bound.
  - now apply is_permutation_length.
  - now apply is_permutation_bound.
Qed.

Lemma flat_map_perm {A B : Type} (f : A -> list B) (l l' : list A) :
  Permutation l l' -> Permutation (flat_map f l) (flat_map f l').
Proof.
  induction 1 as [|a l l' _ IH|a b l|l l' l'' _ IH1 _ IH2]; simpl.
  - constructor.
  - now apply Permutation_app_head.
  - rewrite !app_assoc. apply Permutation_app_tail, Permutation_app_comm.
  - now transitivity (flat_map f l').
Qed.

Lemma filter_perm {A : Type} (f : A -> bool) (l l' : list A) :
  Permutation l l' -> Permutation (filter f l) (filter f l').
Proof.
  induction 1 as [|a l l' _ IH|a b l|l l' l'' _ IH1 _ IH2]; simpl.
  - constructor.
  - destruct (f a); [now constructor | assumption].
  - destruct (f a), (f b); try reflexivity. constructor.
  - now transitivity (filter f l').
Qed.

Lemma permute_identity {A : Type} (l : list A) :
  permute (seq 0 (length l)) l = l.
Proof.
  induction l as [|a l IH]; [reflexivity|].
  cbn [length seq]. rewrite permute_cons. cbn [nth_error app].
  f_equal. rewrite <- seq_shift. unfold permute in *.
  rewrite flat_map_concat_map, map_map in *. cbn [nth_error].
  rewrite <- flat_map_concat_map in *. exact IH.
Qed.

Lemma permute_perm {A : Type} (p : list nat) (l : list A) :
  is_permutation p (length l) -> Permutation (permute p l) l.
Proof.
  intros H. rewrite <- (permute_identity l) at 2.
  unfold permute. now apply flat_map_perm.
Qed.

Lemma group_permute {K A : Type} (keq : K -> K -> bool) (p : list nat)
      (keys : list K) (key : K) (l : list A) :
  length keys = length l -> is_permutation p (length l) ->
  Permutation (group keq (permute p keys) key (permute p l))
              (group keq keys key l).
Proof.
  intros Hl Hp. unfold group.
  rewrite <- permute_combine by assumption.
  apply Permutation_map, filter_perm, permute_perm.
  rewrite length_combine. now replace (Nat.min (length keys) (length l))
    with (length l) by lia.
Qed.

(** The maximum of a group does not depend on the order of its edges. *)
Lemma seg_max_upper (g : vector) (a : R) : In a g -> (a <= seg_max g)%R.
Proof.
  unfold seg_max. generalize (hd 0%R g) as d.
  induction g as [|b g IH]; intros d Hin; [contradiction|].
  simpl. destruct Hin as [->|Hin].
  - apply Rmax_l.
  - eapply Rle_trans; [apply (IH d Hin) | apply Rmax_r].
Qed.

Lemma Rmax_either (x y : R) : Rmax x y = x \/ Rmax x y = y.
Proof. unfold Rmax. destruct (Rle_dec x y); auto. Qed.

Lemma seg_max_in (g : vector) : g <> [] -> In (seg_max g) g.
Proof.
  unfold seg_max. destruct g as [|a g]; [congruence|]. intros _.
  cbn [hd]. 
  assert (H : forall d l, fold_right Rmax d l = d \/ In (fold_right Rmax d l) l).
  { intros d l. induction l as [|b l IH]; [now left|].
    simpl. destruct (Rmax_either b (fold_right Rmax d l)) as [E|E]; rewrite E.
    - right. now left.
    - destruct IH as [IH|IH]; [now left | right; now right]. }
  destruct (H a (a :: g)) as [E|E]; [|exact E].
  rewrite E. now left.
Qed.

Lemma seg_max_perm (g g' : vector) :
  Permutation g g' -> seg_max g = seg_max g'.
Proof.
  intros H. destruct g as [|a g].
  - apply Permutation_nil in H. now subst.
  - assert (Hg' : g' <> []).
    { intros ->. symmetry in H. apply Permutation_nil in H. discriminate. }
    assert (Hg : a :: g <> []) by discriminate.
    apply Rle_antisym.
    + apply seg_max_upper. apply (Permutation_in _ H). now apply seg_max_in.
    + apply seg_max_upper. symmetry in H. apply (Permutation_in _ H).
      now apply seg_max_in.
Qed.

Lemma vadd_swap (a b c : vector) : vadd a (vadd b c) = vadd b (vadd a c).
Proof.
  unfold vadd, map2. revert b c.
  induction a as [|x a IH]; intros [|y b] [|z c]; try reflexivity.
  simpl. f_equal; [lra | apply IH].
Qed.

Lemma vsum_perm (n : nat) (l l' : list vector) :
  Permutation l l' -> vsum n l = vsum n l'.
Proof.
  unfold vsum.
  induction 1 as [|a l l' _ IH|a b l|l l' l'' _ IH1 _ IH2]; simpl.
  - reflexivity.
  - now rewrite IH.
  - apply vadd_swap.
  - now transitivity (fold_right vadd (repeat 0%R n) l').
Qed.

Lemma col_permute (c : nat) (p : list nat) (m : matrix) :
  col c (permute p m) = permute p (col c m).
Proof. unfold col. symmetry. apply permute_map. Qed.

(** The grouped softmax commutes with a reordering of the edges. *)
Lemma grouped_softmax_permute {K : Type} (keq : K -> K -> bool) (p : list nat)
      (src : matrix) (keys : list K) :
  length src = length keys -> is_permutation p (length keys) ->
  grouped_softmax keq (permute p src) (permute p keys)
  = permute p (grouped_softmax keq src keys).
Proof.
  intros Hl Hp. unfold grouped_softmax.
  rewrite permute_map2 by assumption.
  unfold map2. apply map_ext. intros [row key]. cbn [fst snd].
  apply map_ext. intros c. cbn zeta.
  assert (Hg : Permutation (group keq (permute p keys) key
                                  (col c (permute p src)))
                           (group keq keys key (col c src))).
  { rewrite col_permute. apply group_permute.
    - unfold col. rewrite length_map. lia.
    - unfold col. rewrite length_map. now rewrite Hl. }
  rewrite (seg_max_perm Hg).
  now rewrite (Rsum_perm (Permutation_map
                            (fun b => exp (b - seg_max (group keq keys key
                                                          (col c src))))
                            Hg)).
Qed.

Lemma index_select_nth {A : Type} (t0 : list A) (index : list nat) l n i :
  index_select t0 index = inr l -> nth_error index n = Some i ->
  exists a, nth_error l n = Some a /\ nth_error t0 i = Some a.
Proof.
  revert l n. induction index as [|j index IH]; intros l n H Hn.
  - destruct n; discriminate.
  - simpl in H. destruct (nth_error t0 j) as [a|] eqn:Hj; [|discriminate].
    destruct (index_select t0 index) as [|l']; [discriminate|].
    cbn [bind ret] in H. inversion H. subst l.
    destruct n as [|n].
    + simpl in Hn. inversion Hn. subst j. exists a. now split.
    + simpl in Hn. simpl. now apply IH.
Qed.

Lemma index_select_permute {A : Type} (p : list nat) (t0 : list A)
      (index : list nat) l :
  index_select t0 index = inr l ->
  index_select t0 (permute p index) = inr (permute p l).
Proof.
  intros H. induction p as [|n p IH]; [reflexivity|].
  rewrite !permute_cons.
  destruct (nth_error index n) as [i|] eqn:Hn.
  - destruct (@index_select_nth _ _ _ _ _ _ H Hn) as [a [Hl Ht]].
    rewrite Hl. simpl. rewrite Ht, IH. reflexivity.
  - assert (Hl : nth_error l n = None).
    { apply nth_error_None. apply nth_error_None in Hn.
      rewrite (index_select_length _ _ H). exact Hn. }
    rewrite Hl. exact IH.
Qed.

Lemma transform_permute self (p : list nat) x_i x_j edge_type outi outj E :
  is_permutation p E ->
  length (rows x_i) = E -> length (rows x_j) = E -> length edge_type = E ->
  transform self x_i x_j edge_type = inr (outi, outj) ->
  transform self (permute_features p x_i) (permute_features p x_j)
            (permute p edge_type)
  = inr (permute p outi, permute p outj).
Proof.
  intros Hp Li Lj Lt. unfold transform.
  destruct (basis_weight self) as [|wb]; [discriminate|]. cbn [bind].
  change (is_long (permute_features p x_i)) with (is_long x_i).
  change (is_long (permute_features p x_j)) with (is_long x_j).
  destruct (num_blocks (hp self)).
  - destruct (is_long x_i && is_long x_j); [discriminate|].
    destruct (weight self) as [[wt|wt]|]; try discriminate.
    destruct (index_select wt edge_type) as [|we] eqn:Hw; [discriminate|].
    rewrite (index_select_permute p _ _ Hw). cbn [bind ret].
    intros H. inversion H. clear H. cbn [permute_features rows].
    pose proof (index_select_length _ _ Hw) as Lw.
    unfold einsum_abcd_acde_ace.
    rewrite <- !permute_map, <- !permute_map2, <- !permute_map;
      rewrite ?length_map; try lia.
    reflexivity.
  - destruct (match wb with Some wt => ret wt | None => _ end) as [|wt];
      [discriminate|]. cbn [bind].
    destruct (index_select wt edge_type) as [|we] eqn:Hw; [discriminate|].
    rewrite (index_select_permute p _ _ Hw). cbn [bind ret].
    destruct (is_long x_i || is_long x_j); [discriminate|].
    intros H. inversion H. clear H. cbn [permute_features rows].
    pose proof (index_select_length _ _ Hw) as Lw.
    rewrite <- !permute_map2 by lia. reflexivity.
Qed.

Lemma edge_term_rows self (rows0 : matrix) (edge_type : list nat) :
  match lin_edge self with
  | None => raise (AssertionError LinEdgeIsNone)
  | Some wl =>
      ea' <- (if length (map (fun r => map (dot r) wl) rows0)
                 =? length rows0
              then ret (map (fun r => map (dot r) wl) rows0)
              else index_select (map (fun r => map (dot r) wl) rows0)
                                edge_type) ;;
      match e self with
      | None => raise TypeError
      | Some em => ret (Some (matmul ea' em))
      end
  end
  = match lin_edge self, e self with
    | None, _ => raise (AssertionError LinEdgeIsNone)
    | Some _, None => raise TypeError
    | Some wl, Some em =>
        ret (Some (matmul (map (fun r => map (dot r) wl) rows0) em))
    end.
Proof.
  destruct (lin_edge self) as [wl|]; [|reflexivity].
  rewrite length_map, Nat.eqb_refl. reflexivity.
Qed.

Lemma edge_term_permute self (p : list nat) edge_attr edge_type alpha_edge :
  edge_term self edge_attr edge_type = inr alpha_edge ->
  edge_term self (permute_attr p edge_attr) (permute p edge_type)
  = inr (option_map (permute p) alpha_edge).
Proof.
  unfold edge_term.
  destruct edge_attr as [[v|m]|]; cbn [permute_attr].
  - rewrite !edge_term_rows.
    destruct (lin_edge self) as [wl|]; [|discriminate].
    destruct (e self) as [em|]; [|discriminate].
    intros H. inversion H. cbn [option_map]. unfold matmul, ret.
    now rewrite <- !permute_map.
  - rewrite !edge_term_rows.
    destruct (lin_edge self) as [wl|]; [|discriminate].
    destruct (e self) as [em|]; [|discriminate].
    intros H. inversion H. cbn [option_map]. unfold matmul, ret.
    now rewrite <- !permute_map.
  - intros H. now inversion H.
Qed.

Lemma score_permute self (p : list nat) (qi kj : matrix)
      (alpha_edge : option matrix) E :
  is_additive (hp self) || is_multiplicative (hp self) = true ->
  length qi = E -> length kj = E ->
  match alpha_edge with
  | Some ae => length ae = E
  | None => True
  end ->
  score self (permute p qi) (permute p kj) (option_map (permute p) alpha_edge)
  = permute p (score self qi kj alpha_edge).
Proof.
  intros Hmode Lq Lk La. unfold score.
  destruct (is_additive (hp self)).
  - destruct alpha_edge as [ae|]; cbn [option_map]; unfold madd;
      rewrite permute_map, !permute_map2;
      rewrite ?map2_length; try lia; reflexivity.
  - cbn [orb] in Hmode. rewrite Hmode.
    destruct alpha_edge as [ae|]; cbn [option_map]; unfold mmul;
      rewrite !permute_map2; rewrite ?map2_length; try lia; reflexivity.
Qed.

Lemma written_below_permute (p : list nat) (r : nat) (edge_type : list nat)
      (g z : matrix) :
  length g = length edge_type -> length z = length edge_type ->
  written_below r (permute p edge_type) (permute p g) (permute p z)
  = permute p (written_below r edge_type g z).
Proof.
  intros Hg Hz. unfold written_below.
  rewrite permute_map, !permute_combine; rewrite ?length_combine; try lia.
  reflexivity.
Qed.

Lemma normalize_permute self (p : list nat) (alpha : matrix)
      (edge_type index : list nat) (size_i : nat) :
  length edge_type = length alpha -> length index = length alpha ->
  is_permutation p (length alpha) ->
  normalize self (permute p alpha) (permute p edge_type) (permute p index)
            size_i
  = permute p (normalize self alpha edge_type index size_i).
Proof.
  intros Lt Li Hp. unfold normalize.
  destruct (String.eqb (attention_mechanism (hp self)) "within-relation").
  - rewrite !within_relation_closed;
      rewrite ?permute_length; try (rewrite ?Lt, ?Li; assumption); try lia.
    rewrite <- permute_combine by lia.
    rewrite grouped_softmax_permute.
    + unfold zeros_like. rewrite <- permute_map.
      apply written_below_permute.
      * rewrite grouped_softmax_length, length_combine. lia.
      * rewrite length_map. lia.
    + rewrite length_combine. lia.
    + rewrite length_combine.
      now replace (Nat.min (length edge_type) (length index))
        with (length alpha) by lia.
  - destruct (String.eqb (attention_mechanism (hp self)) "across-relation");
      [|reflexivity].
    unfold softmax. apply grouped_softmax_permute; [lia|].
    now rewrite Li.
Qed.

Lemma degree_of_permute (p : list nat) (index : list nat) (size_i : nat) :
  is_permutation p (length index) ->
  degree_of (permute p index) size_i = permute p (degree_of index size_i).
Proof.
  intros Hp. unfold degree_of. cbn zeta. rewrite permute_map.
  apply map_ext. intros i. f_equal. unfold scatter_add.
  apply map_ext. intros n. apply Rsum_perm.
  rewrite <- permute_map. apply group_permute.
  - now rewrite length_map.
  - now rewrite length_map.
Qed.

Lemma degree_of_length (index : list nat) (size_i : nat) :
  length (degree_of index size_i) = length index.
Proof. unfold degree_of. cbn zeta. apply length_map. Qed.

Lemma degree_head_permute self (p : list nat) (index : list nat) (size_i : nat) :
  is_permutation p (length index) ->
  degree_head self (permute p index) size_i
  = permute p (degree_head self index size_i).
Proof.
  intros Hp. unfold degree_head. cbn zeta.
  rewrite degree_of_permute by assumption.
  unfold matmul. now rewrite <- !permute_map.
Qed.

Lemma degree_head_length self (index : list nat) (size_i : nat) :
  length (degree_head self index size_i) = length index.
Proof.
  unfold degree_head. cbn zeta.
  now rewrite !length_map, matmul_length, !length_map, matmul_length,
    length_map, degree_of_length.
Qed.

Lemma weighted_permute c (p : list nat) (alpha outj : matrix) :
  length alpha = length outj ->
  weighted c (permute p alpha) (permute p outj)
  = permute p (weighted c alpha outj).
Proof.
  intros H. unfold weighted.
  destruct (is_additive c); now rewrite permute_map2.
Qed.

Lemma weighted_length c (alpha outj : matrix) :
  length (weighted c alpha outj) = Nat.min (length alpha) (length outj).
Proof. unfold weighted. destruct (is_additive c); apply map2_length. Qed.

Lemma modulate_permute self (p : list nat) (alpha outj : matrix)
      (index : list nat) (size_i : nat) (keep : list (list bool)) E :
  is_permutation p E ->
  length alpha = E -> length outj = E -> length index = E -> length keep = E ->
  modulate self (permute p alpha) (permute p outj) (permute p index) size_i
           (permute p keep)
  = permute p (modulate self alpha outj index size_i keep).
Proof.
  intros Hp La Lo Li Lk. unfold modulate. cbn zeta.
  assert (Hpi : is_permutation p (length index)) by now rewrite Li.
  repeat match goal with
         | |- context [if ?b then _ else _] => destruct b
         end;
    rewrite ?degree_head_permute by assumption;
    unfold ones_like, f_additive, f_scaled, F_dropout;
    rewrite ?degree_of_permute by assumption;
    rewrite <- ?permute_map;
    rewrite <- ?permute_combine
      by (rewrite ?length_map, ?degree_head_length; lia);
    rewrite <- ?permute_map2
      by (rewrite ?length_map, ?degree_of_length; lia);
    rewrite ?weighted_permute
      by (rewrite ?length_map, ?map2_length, ?degree_of_length; lia);
    rewrite <- ?permute_map2
      by (rewrite ?length_combine, ?length_map, ?degree_head_length; lia);
    reflexivity.
Qed.

Lemma modulate_length self (alpha outj : matrix) (index : list nat)
      (size_i : nat) (keep : list (list bool)) E :
  length alpha = E -> length outj = E -> length index = E -> length keep = E ->
  length (modulate self alpha outj index size_i keep) = E.
Proof.
  intros La Lo Li Lk. unfold modulate. cbn zeta.
  repeat match goal with
         | |- context [if ?b then _ else _] => destruct b
         end;
    unfold ones_like, f_additive, f_scaled, F_dropout;
    rewrite ?weighted_length, ?map2_length, ?length_combine, ?length_map,
      ?map2_length, ?degree_head_length, ?degree_of_length; lia.
Qed.

Lemma aggregate_permute self (p : list nat) (msgs : matrix)
      (index : list nat) (n : nat) :
  length index = length msgs -> is_permutation p (length msgs) ->
  aggregate self (permute p msgs) (permute p index) n
  = aggregate self msgs index n.
Proof.
  intros Hl Hp. unfold aggregate. apply map_ext. intros i.
  apply vsum_perm. now apply group_permute.
Qed.

Lemma matmul_permute (p : list nat) (a b : matrix) :
  matmul (permute p a) b = permute p (matmul a b).
Proof. unfold matmul. symmetry. apply permute_map. Qed.

Lemma score_length self (qi kj : matrix) alpha_edge E :
  is_additive (hp self) || is_multiplicative (hp self) = true ->
  length qi = E -> length kj = E ->
  match alpha_edge with
  | Some ae => length ae = E
  | None => True
  end ->
  length (score self qi kj alpha_edge) = E.
Proof.
  intros Hmode Lq Lk La. unfold score.
  destruct (is_additive (hp self)).
  - destruct alpha_edge; unfold madd; rewrite length_map, !map2_length; lia.
  - cbn [orb] in Hmode. rewrite Hmode.
    destruct alpha_edge; unfold mmul; rewrite !map2_length; lia.
Qed.

Lemma written_below_length (r : nat) (edge_type : list nat) (g z : matrix) :
  length g = length edge_type -> length z = length edge_type ->
  length (written_below r edge_type g z) = length edge_type.
Proof.
  intros Hg Hz. unfold written_below.
  rewrite length_map, !length_combine. lia.
Qed.

Lemma normalize_length self (alpha : matrix) (edge_type index : list nat)
      (size_i : nat) :
  length edge_type = length alpha -> length index = length alpha ->
  length (normalize self alpha edge_type index size_i) = length alpha.
Proof.
  intros Lt Li. unfold normalize.
  destruct (String.eqb (attention_mechanism (hp self)) "within-relation").
  - rewrite within_relation_closed by assumption.
    rewrite written_below_length; [assumption| |].
    + rewrite grouped_softmax_length, length_combine. lia.
    + unfold zeros_like. rewrite length_map. lia.
  - destruct (String.eqb (attention_mechanism (hp self)) "across-relation");
      [|reflexivity].
    unfold softmax. rewrite grouped_softmax_length. lia.
Qed.

Lemma edge_term_length self edge_attr edge_type alpha_edge E :
  match edge_attr with
  | None => True
  | Some (Attr1 v) => length v = E
  | Some (Attr2 m) => length m = E
  end ->
  edge_term self edge_attr edge_type = inr alpha_edge ->
  match alpha_edge with
  | Some ae => length ae = E
  | None => True
  end.
Proof.
  intros La H. apply edge_term_shape in H.
  destruct edge_attr as [ea|], alpha_edge as [ae|]; try contradiction;
    [|exact I].
  destruct H as [-> _]. destruct ea; assumption.
Qed.

(** [message] on the reordered edges returns the reordered messages and
    stores the reordered coefficients. *)
Lemma message_permute self (p : list nat) x_i x_j edge_type edge_attr index
      size_i keep msgs alpha E :
  is_permutation p E ->
  is_additive (hp self) || is_multiplicative (hp self) = true ->
  length (rows x_i) = E -> length (rows x_j) = E -> length edge_type = E ->
  length index = E -> length keep = E ->
  match edge_attr with
  | None => True
  | Some (Attr1 v) => length v = E
  | Some (Attr2 m) => length m = E
  end ->
  message self x_i x_j edge_type edge_attr index size_i keep
  = (inr msgs, set_alpha (Some alpha) self) ->
  message self (permute_features p x_i) (permute_features p x_j)
          (permute p edge_type) (permute_attr p edge_attr) (permute p index)
          size_i (permute p keep)
  = (inr (permute p msgs), set_alpha (Some (permute p alpha)) self)
  /\ length msgs = E.
Proof.
  intros Hp Hmode Lxi Lxj Lt Li Lk La H.
  apply message_inv in H as (outi & outj & ae & Ht & Hterm & Hs & ->).
  apply (f_equal _alpha) in Hs. cbn [_alpha set_alpha] in Hs.
  inversion Hs as [Halpha]. clear Hs.
  pose proof Ht as Ht2. apply transform_length in Ht2 as [Loi Loj].
  pose proof Hterm as Lae. apply edge_term_length with (E := E) in Lae;
    [|exact La].
  assert (Lscore : length (score self (matmul outi (q self))
                                 (matmul outj (k self)) ae) = E).
  { apply score_length; rewrite ?matmul_length; try assumption; lia. }
  assert (Lnorm : length (normalize self
                            (score self (matmul outi (q self))
                                   (matmul outj (k self)) ae)
                            edge_type index size_i) = E).
  { rewrite normalize_length; lia. }
  split.
  - unfold message.
    rewrite transform_permute with (outi := outi) (outj := outj) (E := E)
      by assumption.
    rewrite edge_term_permute with (alpha_edge := ae) by assumption.
    change (modulate (set_alpha ?a self)) with (modulate self).
    rewrite !matmul_permute.
    rewrite score_permute with (E := E);
      rewrite ?matmul_length; try assumption; try lia.
    rewrite normalize_permute; try lia; [|now rewrite Lscore].
    rewrite modulate_permute with (E := E); try assumption; try lia.
    reflexivity.
  - apply modulate_length; try assumption; lia.
Qed.

(** ** Permutation invariance of forward *)

(** C8: when the columns of [edge_index] and the rows of [edge_type], of
    [edge_attr] and of the sampled dropout mask are reordered by one
    permutation [p] of the edges, [forward] returns the same node features
    (exactly, over the reals), and the attention weights in the new edge
    order. *)
Theorem forward_permutation_invariant
        (self : t) (x : features) (edge_index : edge_index_tensor)
        (edge_type : list nat) (edge_attr : option edge_attr_tensor)
        (raw : option bool) (keep : list (list bool)) (p : list nat)
        (r : forward_result) (self' : t) :
  is_permutation p (length (snd edge_index)) ->
  is_additive (hp self) || is_multiplicative (hp self) = true ->
  edge_lists_agree edge_index edge_type edge_attr ->
  length keep = length (snd edge_index) ->
  forward self x edge_index edge_type edge_attr raw keep = (inr r, self') ->
  forward self x (permute_edges p edge_index) (permute p edge_type)
          (permute_attr p edge_attr) raw (permute p keep)
  = (inr (permute_result p r), self').
Proof.
  intros Hp Hmode (Lst & Lt & La) Lk H.
  destruct (forward_inv _ _ _ _ _ _ _ H)
    as (xi & xj & msgs & alpha & Hj & Hi & Hm & -> & ->).
  pose proof Hi as Lxi. apply index_select_length in Lxi.
  pose proof Hj as Lxj. apply index_select_length in Lxj.
  pose proof Hm as Hm'.
  apply message_permute with (p := p) (E := length (snd edge_index)) in Hm';
    try assumption; try reflexivity; [|cbn [rows]; lia].
  destruct Hm' as [Hm' Lm].
  unfold forward, propagate. cbn [permute_edges fst snd].
  rewrite index_select_permute with (l := xj) by assumption.
  rewrite index_select_permute with (l := xi) by assumption.
  change {| x_dtype := x_dtype x; rows := permute p xi |}
    with (permute_features p {| x_dtype := x_dtype x; rows := xi |}).
  change {| x_dtype := x_dtype x; rows := permute p xj |}
    with (permute_features p {| x_dtype := x_dtype x; rows := xj |}).
  rewrite Hm'. cbn [_alpha set_alpha].
  change (aggregate (set_alpha ?a self)) with (aggregate self).
  change (update (set_alpha ?a self)) with (update self).
  rewrite aggregate_permute; [| lia | now rewrite Lm].
  destruct raw; reflexivity.
Qed.

Lemma forward_permutation_invariant_witness :
  exists r self',
    forward (tiny_layer (tiny_config "within-relation" None)) tiny_x
            tiny_edges tiny_types None (Some true) [[true]; [true]]
    = (inr r, self')
    /\ forward (tiny_layer (tiny_config "within-relation" None)) tiny_x
               (permute_edges [1; 0] tiny_edges) (permute [1; 0] tiny_types)
               (permute_attr [1; 0] None) (Some true)
               (permute [1; 0] [[true]; [true]])
       = (inr (permute_result [1; 0] r), self').
Proof.
  eexists. eexists. split; [reflexivity|].
  apply (@forward_permutation_invariant
           (tiny_layer (tiny_config "within-relation" None)) tiny_x
           tiny_edges tiny_types None (Some true) [[true]; [true]] [1; 0]).
  - apply perm_swap.
  - reflexivity.
  - repeat split.
  - reflexivity.
  - reflexivity.
Defined.

(** ** forward returns on well-formed calls *)

Lemma transform_returns self x_i x_j edge_type :
  weights_present self ->
  x_dtype x_i = float -> x_dtype x_j = float ->
  Forall (fun ty => ty < relation_axis self) edge_type ->
  exists outs, transform self x_i x_j edge_type = inr outs.
Proof.
  unfold weights_present, relation_axis, transform, basis_weight, is_long.
  intros Hw Hi Hj Hty. rewrite Hi, Hj.
  destruct (num_blocks (hp self)), (num_bases (hp self));
    try contradiction.
  - destruct Hw as [wt Hw]. rewrite Hw in *. cbn [bind ret andb].
    rewrite index_select_in_range with (d := @nil (list (list R)))
      by assumption.
    cbn [bind ret]. eauto.
  - destruct Hw as (a & b & Ha & Hb). rewrite Ha, Hb in *.
    cbn [bind ret].
    rewrite index_select_in_range with (d := @nil (list R)).
    + cbn [bind ret orb]. eauto.
    + now rewrite length_map, matmul_length.
  - destruct Hw as [wt Hw]. rewrite Hw in *. cbn [bind ret].
    rewrite index_select_in_range with (d := @nil (list R)) by assumption.
    cbn [bind ret orb]. eauto.
Qed.

(** With present weights, float features, indices in range and either no
    edge attributes or a configured edge projection, [forward] returns. *)
Lemma forward_returns self x edge_index edge_type edge_attr raw keep :
  weights_present self ->
  x_dtype x = float ->
  Forall (fun i => i < length (rows x)) (fst edge_index) ->
  Forall (fun i => i < length (rows x)) (snd edge_index) ->
  Forall (fun ty => ty < relation_axis self) edge_type ->
  (edge_attr = None \/ (lin_edge self <> None /\ e self <> None)) ->
  exists r,
    forward self x edge_index edge_type edge_attr raw keep
    = (inr r, set_alpha None self).
Proof.
  intros Hw Hx Hs Hd Hty Hea. unfold forward, propagate, message.
  rewrite !index_select_in_range with (d := @nil R) by assumption.
  destruct (@transform_returns self
              {| x_dtype := x_dtype x;
                 rows := map (fun i => nth i (rows x) []) (snd edge_index) |}
              {| x_dtype := x_dtype x;
                 rows := map (fun i => nth i (rows x) []) (fst edge_index) |}
              edge_type Hw Hx Hx Hty) as [[outi outj] Ht].
  rewrite Ht.
  assert (Hterm : exists ae, edge_term self edge_attr edge_type = inr ae).
  { destruct Hea as [->|[Hl He]]; [now exists None|].
    unfold edge_term. destruct edge_attr as [ea|]; [|now exists None].
    rewrite edge_term_rows.
    destruct (lin_edge self); [|congruence].
    destruct (e self); [|congruence]. eexists. reflexivity. }
  destruct Hterm as [ae Hterm]. rewrite Hterm. cbn [_alpha set_alpha].
  destruct raw; eexists; reflexivity.
Qed.

Lemma init_weights_present mem draw c self :
  __init__ mem draw c = inr self -> weights_present self.
Proof.
  unfold __init__. intros H.
  destruct (validate c) as [|[]] eqn:Hv; [discriminate|]. cbn [bind] in H.
  destruct (init_weights mem c) as [|[[a0 b0] w0]] eqn:Hw; [discriminate|].
  cbn [bind ret] in H. inversion H. clear H. subst self.
  unfold weights_present, reset_parameters. cbn [hp att basis weight].
  unfold init_weights in Hw.
  destruct (num_bases c) as [nb|] eqn:Hb.
  - inversion Hw. subst a0 b0 w0. cbn [is_some option_map].
    destruct (num_blocks c) eqn:Hk; [|eauto].
    unfold validate, raise, ret in Hv. rewrite Hb, Hk in Hv.
    cbn [is_some andb] in Hv.
    repeat match type of Hv with
           | context [if ?b then _ else _] => destruct b
           end; discriminate.
  - destruct (num_blocks c) as [nb|] eqn:Hk.
    + destruct (nb =? 0); [discriminate|].
      destruct (_ && _); [|discriminate].
      inversion Hw. subst a0 b0 w0. cbn [is_some option_map glorot_weight].
      eauto.
    + inversion Hw. subst a0 b0 w0. cbn [is_some option_map glorot_weight].
      eauto.
Qed.

(** ** Edge attributes on a layer without edge projection *)

Lemma weights_shaped_present self : weights_shaped self -> weights_present self.
Proof.
  unfold weights_shaped, weights_present.
  destruct (num_blocks (hp self)), (num_bases (hp self)); try tauto.
  - intros (wt & H & _). eauto.
  - intros (a & b & Ha & Hb & _). eauto.
  - intros (wt & H & _). eauto.
Qed.

(** The layer of the examples has the constructor's shapes. *)
Lemma tiny_layer_shaped :
  shaped_for_message (tiny_layer (tiny_config "across-relation" None)).
Proof.
  unfold shaped_for_message. cbn zeta.
  split; [simpl; lia|]. split; [simpl; lia|]. split; [discriminate|].
  split; [apply (proj1 (tiny_layer_well_shaped None))|].
  split.
  { exists [[[1%R]]; [[1%R]]]. split; [reflexivity|].
    intros wr [<-|[<-|[]]]; (split; [reflexivity|]);
      intros row [<-|[]]; reflexivity. }
  split; [split; [reflexivity|]; intros row [<-|[]]; reflexivity|].
  split; [split; [reflexivity|]; intros row [<-|[]]; reflexivity|].
  intros nb a H. discriminate H.
Qed.

(** C7: on a layer without edge projection ([lin_edge] is [None], as after
    construction without [edge_dim]), every call of [forward] that passes
    [edge_attr] raises: it returns no output and leaves the layer as it
    was.  On a layer with the constructor's shapes and an input of the
    data model (float features of [in_channels] columns, per-edge inputs
    of one length, node numbers and relation numbers in range) nothing
    before line 225 fails, and the exception is the assertion of
    rgat.py:225. *)
Theorem forward_edge_attr_requires_lin_edge
        (self : t) (x : features) (edge_index : edge_index_tensor)
        (edge_type : list nat) (ea : edge_attr_tensor)
        (raw : option bool) (keep : list (list bool)) :
  lin_edge self = None ->
  (exists err,
      forward self x edge_index edge_type (Some ea) raw keep = (inl err, self))
  /\ (shaped_for_message self ->
      x_dtype x = float ->
      rows_have (in_channels (hp self)) (rows x) ->
      edge_lists_agree edge_index edge_type (Some ea) ->
      Forall (fun i => i < length (rows x)) (fst edge_index) ->
      Forall (fun i => i < length (rows x)) (snd edge_index) ->
      Forall (fun ty => ty < num_relations (hp self)) edge_type ->
      forward self x edge_index edge_type (Some ea) raw keep
      = (inl (AssertionError LinEdgeIsNone), self)).
Proof.
  intros Hl.
  assert (Hgen : exists err,
             forward self x edge_index edge_type (Some ea) raw keep
             = (inl err, self)
             /\ (forall xi xj outs,
                   index_select (rows x) (fst edge_index) = inr xj ->
                   index_select (rows x) (snd edge_index) = inr xi ->
                   transform self {| x_dtype := x_dtype x; rows := xi |}
                             {| x_dtype := x_dtype x; rows := xj |} edge_type
                   = inr outs ->
                   err = AssertionError LinEdgeIsNone)).
  { unfold forward, propagate, message.
    destruct (index_select (rows x) (fst edge_index)) as [e1|xj].
    { exists e1. split; [reflexivity|]. intros ? ? ? H. discriminate H. }
    destruct (index_select (rows x) (snd edge_index)) as [e2|xi].
    { exists e2. split; [reflexivity|]. intros ? ? ? _ H. discriminate H. }
    destruct (transform self _ _ edge_type) as [e3|[outi outj]] eqn:Ht.
    { exists e3. split; [reflexivity|]. intros ? ? ? Hj Hi H.
      inversion Hj; inversion Hi; subst. rewrite Ht in H. discriminate H. }
    rewrite (edge_term_without_lin_edge self ea edge_type Hl).
    exists (AssertionError LinEdgeIsNone). split; reflexivity. }
  split.
  { destruct Hgen as [err [Hf _]]. now exists err. }
  intros (_ & _ & _ & Hwf & Hws & _) Hx _ _ Hs Hd Hty.
  pose proof (@weights_shaped_present self Hws) as Hw.
  destruct Hwf as (_ & _ & _ & _ & Hax). rewrite <- Hax in Hty.
  destruct Hgen as [err [Hf Herr]]. rewrite Hf.
  destruct (@transform_returns self
              {| x_dtype := x_dtype x;
                 rows := map (fun i => nth i (rows x) []) (snd edge_index) |}
              {| x_dtype := x_dtype x;
                 rows := map (fun i => nth i (rows x) []) (fst edge_index) |}
              edge_type Hw Hx Hx Hty) as [outs Ht].
  rewrite (Herr (map (fun i => nth i (rows x) []) (snd edge_index))
                (map (fun i => nth i (rows x) []) (fst edge_index)) outs);
    [reflexivity | | | exact Ht].
  - now apply index_select_in_range.
  - now apply index_select_in_range.
Qed.

Lemma forward_edge_attr_requires_lin_edge_witness :
  forward (tiny_layer (tiny_config "across-relation" None)) tiny_x
          tiny_edges tiny_types (Some (Attr1 [1%R; 1%R])) None []
  = (inl (AssertionError LinEdgeIsNone),
     tiny_layer (tiny_config "across-relation" None)).
Proof.
  apply (proj2 (@forward_edge_attr_requires_lin_edge
                  (tiny_layer (tiny_config "across-relation" None)) tiny_x
                  tiny_edges tiny_types (Attr1 [1%R; 1%R]) None [] eq_refl)).
  - exact tiny_layer_shaped.
  - reflexivity.
  - intros row [<-|[<-|[<-|[]]]]; reflexivity.
  - repeat split.
  - repeat constructor.
  - repeat constructor.
  - repeat constructor.
Defined.

(** * Further properties of the constructor and of reset_parameters *)

(** X1: a layer asked for zero blocks is refused while the assertion of
    rgat.py:128 is being evaluated: [in_channels % 0] raises
    [ZeroDivisionError] before the assertion can fail. *)
Theorem init_zero_blocks_divides_by_zero
        (mem draw : string -> list nat -> R) (c : config) :
  validate c = inr tt -> num_blocks c = Some 0 ->
  __init__ mem draw c = inl ZeroDivisionError.
Proof.
  intros Hv Hk. pose proof (validate_ok_no_bases c Hv Hk) as Hb.
  unfold __init__, init_weights. rewrite Hv, Hb, Hk. reflexivity.
Qed.

Lemma init_zero_blocks_divides_by_zero_witness :
  __init__ mem0 mem0 (block_config 0) = inl ZeroDivisionError.
Proof.
  apply (@init_zero_blocks_divides_by_zero mem0 mem0 (block_config 0)
           (validate_block_config 0) eq_refl).
Defined.

Lemma init_edge_projection mem draw c self :
  __init__ mem draw c = inr self ->
  (edge_dim c <> None -> lin_edge self <> None /\ e self <> None)
  /\ _alpha self = None /\ training self = true.
Proof.
  unfold __init__. intros H.
  destruct (validate c); [discriminate|]. cbn [bind] in H.
  destruct (init_weights mem c) as [|[[a0 b0] w0]]; [discriminate|].
  cbn [bind ret] in H. inversion H. cbn [lin_edge e _alpha training reset_parameters].
  split; [|split; reflexivity].
  intros Hd. destruct (edge_dim c); [|congruence].
  split; discriminate.
Qed.

(** X2: a layer that the constructor returned for positive sizes (at
    least one basis if bases are used, [edge_dim] not 0) and a dropout
    probability of at most 1 does not fail on an input of the data model:
    float features with [in_channels] columns, node numbers below the
    number of rows, relation numbers below [num_relations], per-edge
    inputs of one length, and edge attributes only if [edge_dim] was
    given.  The call returns and leaves the layer with [_alpha] cleared. *)
Theorem constructed_layer_forward_returns
        (mem draw : string -> list nat -> R) (c : config) (self : t)
        (x : features) (edge_index : edge_index_tensor)
        (edge_type : list nat) (edge_attr : option edge_attr_tensor)
        (raw : option bool) (keep : list (list bool)) :
  __init__ mem draw c = inr self ->
  0 < in_channels c -> 0 < heads c * out_channels c -> 0 < dim c ->
  num_bases c <> Some 0 -> edge_dim c <> Some 0 ->
  (dropout c <= 1)%R ->
  x_dtype x = float ->
  rows_have (in_channels c) (rows x) ->
  edge_lists_agree edge_index edge_type edge_attr ->
  Forall (fun i => i < length (rows x)) (fst edge_index) ->
  Forall (fun i => i < length (rows x)) (snd edge_index) ->
  Forall (fun ty => ty < num_relations c) edge_type ->
  edge_attr_fits c edge_attr ->
  exists r,
    forward self x edge_index edge_type edge_attr raw keep
    = (inr r, set_alpha None self).
Proof.
  intros Hinit _ Hpos _ _ _ _ Hx _ _ Hs Hd Hty Hea.
  destruct (init_well_shaped _ _ _ Hinit Hpos) as [Hc (_ & _ & _ & _ & Hax)].
  apply forward_returns; try assumption.
  - eapply init_weights_present. exact Hinit.
  - rewrite Hax, Hc. exact Hty.
  - unfold edge_attr_fits in Hea.
    destruct edge_attr as [ea|]; [right | now left].
    apply (proj1 (init_edge_projection _ _ _ Hinit)).
    destruct ea, (edge_dim c); try contradiction; discriminate.
Qed.

Lemma constructed_layer_forward_returns_witness :
  exists self r,
    __init__ mem0 mem0 (default_config 1 1 2) = inr self
    /\ forward self tiny_x tiny_edges tiny_types None None []
       = (inr r, set_alpha None self).
Proof.
  assert (Hv : validate (default_config 1 1 2) = inr tt)
    by (run_validate; reflexivity).
  assert (Hi : exists self, __init__ mem0 mem0 (default_config 1 1 2)
                            = inr self).
  { unfold __init__. rewrite Hv. eexists. reflexivity. }
  destruct Hi as [self Hi]. exists self.
  destruct (@constructed_layer_forward_returns mem0 mem0
              (default_config 1 1 2) self tiny_x tiny_edges tiny_types
              None None [] Hi) as [r Hr].
  - simpl. lia.
  - simpl. lia.
  - simpl. lia.
  - discriminate.
  - discriminate.
  - simpl. lra.
  - reflexivity.
  - intros row [H|[H|[H|[]]]]; subst; reflexivity.
  - repeat split.
  - repeat constructor.
  - repeat constructor.
  - repeat constructor.
  - exact I.
  - exists r. split; [exact Hi | exact Hr].
Defined.

Lemma mod_is_unknown c m name :
  mod_ c = Some m -> ~ In m mod_types -> In name mod_types ->
  mod_is c name = false.
Proof.
  intros Hm Hn Hin. unfold mod_is. rewrite Hm.
  destruct (String.eqb m name) eqn:E; [|reflexivity].
  apply String.eqb_eq in E. subst. contradiction.
Qed.

Lemma mod_in_mod_types_unknown c m :
  mod_ c = Some m -> ~ In m mod_types -> mod_in_mod_types c = false.
Proof.
  intros Hm Hn. unfold mod_in_mod_types.
  destruct (existsb (mod_is c) mod_types) eqn:E; [|reflexivity].
  apply existsb_exists in E as [name [Hin Hname]].
  rewrite mod_is_unknown with (m := m) in Hname by assumption.
  discriminate.
Qed.

Lemma modulate_unknown_mod self m alpha outj index size_i keep :
  mod_ (hp self) = Some m -> ~ In m mod_types ->
  modulate self alpha outj index size_i keep
  = modulate (layer_with_config (config_with_mod None (hp self)) self)
             alpha outj index size_i keep.
Proof.
  intros Hm Hn. unfold modulate. cbn zeta.
  rewrite !mod_is_unknown with (m := m) by (try assumption; simpl; tauto).
  reflexivity.
Qed.

(** X3: a [mod] string that is none of the four names is accepted by the
    checks of the constructor wherever [mod=None] is, also together with a
    positive [dropout], and [forward] treats the layer as one without
    modulation: the call returns what it returns for [mod=None]. *)
Theorem unknown_mod_acts_as_none
        (self : t) (m : string) (x : features)
        (edge_index : edge_index_tensor) (edge_type : list nat)
        (edge_attr : option edge_attr_tensor) (raw : option bool)
        (keep : list (list bool)) :
  mod_ (hp self) = Some m -> ~ In m mod_types ->
  validate (hp self) = validate (config_with_mod None (hp self))
  /\ fst (forward self x edge_index edge_type edge_attr raw keep)
     = fst (forward (layer_with_config (config_with_mod None (hp self)) self)
                    x edge_index edge_type edge_attr raw keep).
Proof.
  intros Hm Hn. split.
  - unfold validate.
    rewrite mod_in_mod_types_unknown with (m := m) by assumption.
    reflexivity.
  - unfold forward, propagate, message.
    destruct (index_select (rows x) (fst edge_index)) as [|xj];
      [reflexivity|].
    destruct (index_select (rows x) (snd edge_index)) as [|xi];
      [reflexivity|].
    change (transform (layer_with_config ?c self)) with (transform self).
    destruct (transform self _ _ edge_type) as [|[outi outj]];
      [reflexivity|].
    change (edge_term (layer_with_config ?c self)) with (edge_term self).
    destruct (edge_term self edge_attr edge_type) as [|ae]; [reflexivity|].
    cbn [_alpha set_alpha layer_with_config fst].
    change (modulate (set_alpha ?a ?s)) with (modulate s).
    rewrite modulate_unknown_mod with (m := m) by assumption.
    destruct raw; reflexivity.
Qed.

Lemma unknown_mod_acts_as_none_witness :
  fst (forward odd_mod_layer tiny_x tiny_edges tiny_types None None [])
  = fst (forward (tiny_layer (tiny_config "across-relation" None))
                 tiny_x tiny_edges tiny_types None None []).
Proof.
  refine (proj2 (@unknown_mod_acts_as_none odd_mod_layer "residual"%string
                   tiny_x tiny_edges tiny_types None None [] eq_refl _)).
  simpl. intros [H|[H|[H|[H|[]]]]]; discriminate H.
Defined.

(** X4: [reset_parameters] keeps the configuration, the training flag, the
    transient field and the residual weight [w] (which only the constructor
    sets to ones), and it keeps every shape: a well-shaped layer with
    present weights stays one. *)
Theorem reset_parameters_keeps_shapes
        (draw : string -> list nat -> R) (self : t) :
  hp (reset_parameters draw self) = hp self
  /\ training (reset_parameters draw self) = training self
  /\ _alpha (reset_parameters draw self) = _alpha self
  /\ w (reset_parameters draw self) = w self
  /\ (well_shaped self -> well_shaped (reset_parameters draw self))
  /\ (weights_present self -> weights_present (reset_parameters draw self)).
Proof.
  repeat (split; [reflexivity|]). split.
  - unfold well_shaped, relation_axis, reset_parameters.
    cbn [hp q k e att basis weight].
    intros (Hmode & Hq & Hk & He & Hax).
    split; [exact Hmode|]. rewrite !ncols_refill2.
    split; [exact Hq|]. split; [exact Hk|]. split.
    + intros em. destruct (e self) as [em0|]; [|discriminate].
      cbn [option_map]. intros H. inversion H.
      rewrite ncols_refill2. now apply He.
    + rewrite <- Hax.
      destruct (num_blocks (hp self)), (num_bases (hp self));
        cbn [is_some];
        try (destruct (weight self) as [[wt|wt]|]; cbn [option_map glorot_weight];
             rewrite ?refill3_length, ?refill4_length; reflexivity);
        try (destruct (att self); cbn [option_map];
             rewrite ?refill2_length; reflexivity).
  - unfold weights_present, reset_parameters. cbn [hp att basis weight].
    destruct (num_blocks (hp self)), (num_bases (hp self)); cbn [is_some];
      try contradiction.
    + intros [wt ->]. cbn. eauto.
    + intros (a & b & -> & ->). cbn. eauto.
    + intros [wt ->]. cbn. eauto.
Qed.

Lemma reset_parameters_keeps_shapes_witness :
  well_shaped (reset_parameters mem0
                 (tiny_layer (tiny_config "across-relation" None)))
  /\ weights_present (reset_parameters mem0
                        (tiny_layer (tiny_config "across-relation" None))).
Proof.
  destruct (@reset_parameters_keeps_shapes mem0
              (tiny_layer (tiny_config "across-relation" None)))
    as (_ & _ & _ & _ & H1 & H2).
  split.
  - apply H1. apply (proj1 (tiny_layer_well_shaped None)).
  - apply H2. exists [[[1%R]]; [[1%R]]]. reflexivity.
Defined.

(** * Further properties of forward *)

(** X5: asking for the attention weights changes neither the node output
    nor the layer that [forward] leaves behind, and any boolean asks for
    them: [return_attention_weights=False] returns the same pair as
    [True]. *)
Theorem attention_request_does_not_change_output
        (self : t) (x : features) (edge_index : edge_index_tensor)
        (edge_type : list nat) (edge_attr : option edge_attr_tensor)
        (keep : list (list bool)) (b : bool) :
  forward self x edge_index edge_type edge_attr (Some b) keep
  = forward self x edge_index edge_type edge_attr (Some true) keep
  /\ match forward self x edge_index edge_type edge_attr None keep with
     | (inr (Out out), self') =>
         exists alpha,
           forward self x edge_index edge_type edge_attr (Some b) keep
           = (inr (OutAttention out edge_index alpha), self')
     | (inr (OutAttention _ _ _), _) => False
     | (inl err, self') =>
         forward self x edge_index edge_type edge_attr (Some b) keep
         = (inl err, self')
     end.
Proof.
  split; [reflexivity|].
  unfold forward.
  destruct (propagate self edge_index edge_type x edge_attr keep)
    as [[err|out] s]; [reflexivity|].
  destruct (_alpha s) as [alpha|]; [|reflexivity].
  exists alpha. reflexivity.
Qed.

Lemma modulate_ignores_mask self alpha outj index size_i keep keep' :
  mod_in_mod_types (hp self) = true \/ training self = false
  \/ (dropout (hp self) <= 0)%R ->
  modulate self alpha outj index size_i keep
  = modulate self alpha outj index size_i keep'.
Proof.
  intros H. unfold modulate. cbn zeta.
  unfold mod_in_mod_types, mod_types in H. cbn [existsb] in H.
  destruct (mod_is (hp self) "additive"); [reflexivity|].
  destruct (mod_is (hp self) "scaled"); [reflexivity|].
  destruct (mod_is (hp self) "f-additive"); [reflexivity|].
  destruct (mod_is (hp self) "f-scaled"); [reflexivity|].
  cbn [orb] in H. destruct H as [H|[H|H]]; [discriminate| |].
  - now rewrite H.
  - apply Rgtb_false in H. rewrite H. now rewrite andb_false_r.
Qed.

(** Without sampling, the mask does not reach the result. *)
Lemma forward_mask_irrelevant self x edge_index edge_type edge_attr raw
      keep keep' :
  mod_in_mod_types (hp self) = true \/ training self = false
  \/ (dropout (hp self) <= 0)%R ->
  forward self x edge_index edge_type edge_attr raw keep
  = forward self x edge_index edge_type edge_attr raw keep'.
Proof.
  intros H. unfold forward, propagate, message.
  destruct (index_select (rows x) (fst edge_index)) as [|xj]; [reflexivity|].
  destruct (index_select (rows x) (snd edge_index)) as [|xi]; [reflexivity|].
  destruct (transform self _ _ edge_type) as [|[outi outj]]; [reflexivity|].
  destruct (edge_term self edge_attr edge_type) as [|ae]; [reflexivity|].
  change (modulate (set_alpha ?a self)) with (modulate self).
  now rewrite modulate_ignores_mask with (keep' := keep').
Qed.

(** X6: the dropout mask is consulted only when the layer samples: with a
    named modulation, in evaluation mode, or with [dropout] not above 0,
    [forward] returns the same result whatever mask is drawn, so the call
    is deterministic. *)
Theorem forward_ignores_mask_unless_sampling
        (self : t) (x : features) (edge_index : edge_index_tensor)
        (edge_type : list nat) (edge_attr : option edge_attr_tensor)
        (raw : option bool) (keep keep' : list (list bool)) :
  mod_in_mod_types (hp self) = true \/ training self = false
  \/ (dropout (hp self) <= 0)%R ->
  forward self x edge_index edge_type edge_attr raw keep
  = forward self x edge_index edge_type edge_attr raw keep'.
Proof. apply forward_mask_irrelevant. Qed.

Lemma forward_ignores_mask_unless_sampling_witness :
  forward (tiny_layer (tiny_config "across-relation" None)) tiny_x
          tiny_edges tiny_types None None [[true]; [false]]
  = forward (tiny_layer (tiny_config "across-relation" None)) tiny_x
            tiny_edges tiny_types None None [[false]; [false]].
Proof.
  apply (@forward_ignores_mask_unless_sampling
           (tiny_layer (tiny_config "across-relation" None)) tiny_x
           tiny_edges tiny_types None None).
  right. left. reflexivity.
Defined.

(** ** Shapes and ranges of the results *)

Lemma written_below_rows (n r : nat) (edge_type : list nat) (g z : matrix) :
  rows_have n g -> rows_have n z ->
  rows_have n (written_below r edge_type g z).
Proof.
  intros Hg Hz row Hin. unfold written_below in Hin.
  apply in_map_iff in Hin as [[ty [a b]] [<- Hin]]. cbn [fst snd].
  apply in_combine_r in Hin.
  destruct (ty <? r).
  - apply Hg. now apply in_combine_l in Hin.
  - apply Hz. now apply in_combine_r in Hin.
Qed.

Lemma normalize_rows self (n : nat) (alpha : matrix)
      (edge_type index : list nat) (size_i : nat) :
  length edge_type = length alpha -> length index = length alpha ->
  rows_have n alpha ->
  rows_have n (normalize self alpha edge_type index size_i).
Proof.
  intros Lt Li Hrows. unfold normalize.
  destruct (String.eqb (attention_mechanism (hp self)) "within-relation").
  - rewrite within_relation_closed by assumption.
    apply written_below_rows.
    + intros row Hr. eapply grouped_softmax_rows; [exact Hrows | exact Hr].
    + unfold zeros_like. now apply map_map_rows.
  - destruct (String.eqb (attention_mechanism (hp self)) "across-relation");
      [|assumption].
    unfold softmax. intros row Hr.
    eapply grouped_softmax_rows; [exact Hrows | exact Hr].
Qed.

(** What a successful call that returns the attention weights computed:
    the logits and their normalisation. *)
Lemma forward_attention_inv self x edge_index edge_type edge_attr b keep
      out edge_index' alpha self' :
  well_shaped self ->
  edge_lists_agree edge_index edge_type edge_attr ->
  forward self x edge_index edge_type edge_attr (Some b) keep
  = (inr (OutAttention out edge_index' alpha), self') ->
  exists logits msgs,
    rows_have (heads (hp self) * dim (hp self)) logits
    /\ length logits = length (snd edge_index)
    /\ alpha = normalize self logits edge_type (snd edge_index)
                         (length (rows x))
    /\ Forall (fun ty => ty < num_relations (hp self)) edge_type
    /\ Forall (fun i => i < length (rows x)) (snd edge_index)
    /\ out = update self (aggregate self msgs (snd edge_index)
                                    (length (rows x)))
    /\ exists outi outj,
        msgs = modulate self alpha outj (snd edge_index) (length (rows x))
                        keep
        /\ transform self
             {| x_dtype := x_dtype x;
                rows := map (fun i => nth i (rows x) []) (snd edge_index) |}
             {| x_dtype := x_dtype x;
                rows := map (fun i => nth i (rows x) []) (fst edge_index) |}
             edge_type
           = inr (outi, outj).
Proof.
  intros Hwf (Lst & Lt & La) H.
  destruct (forward_inv _ _ _ _ _ _ _ H)
    as (xi & xj & msgs & alpha0 & Hj & Hi & Hm & _ & Hr).
  cbn zeta in Hr. inversion Hr; subst out edge_index' alpha0. clear Hr.
  apply message_inv in Hm as (outi & outj & ae & Ht & Hterm & Hs & Hmsgs).
  destruct (fun L1 L2 L3 L4 =>
              @logits_shape self _ _ edge_type edge_attr outi outj ae
                (length (snd edge_index)) Hwf L1 L2 L3 L4 Ht Hterm)
    as [Hrows Hlen]; try assumption.
  { cbn [rows]. apply (index_select_length _ _ Hi). }
  { cbn [rows]. rewrite (index_select_length _ _ Hj). exact Lst. }
  apply (f_equal _alpha) in Hs. cbn [_alpha set_alpha] in Hs.
  inversion Hs as [Ha].
  pose proof Hi as Bi. apply index_select_in_bounds in Bi.
  pose proof Hj as Bj. apply index_select_in_bounds in Bj.
  rewrite index_select_in_range with (d := @nil R) in Hi, Hj by assumption.
  inversion Hi. inversion Hj. subst xi xj.
  eexists _, msgs. split; [exact Hrows|]. split; [exact Hlen|].
  split; [reflexivity|]. split.
  { destruct Hwf as (_ & _ & _ & _ & <-).
    apply (transform_types_in_range _ _ _ _ Ht). }
  split; [exact Bi|]. split; [reflexivity|].
  exists outi, outj. split; [|exact Ht].
  rewrite Hmsgs. reflexivity.
Qed.

Lemma update_length self (m : matrix) : length (update self m) = length m.
Proof.
  unfold update.
  destruct (is_additive (hp self)), (concat (hp self)), (bias self);
    now rewrite ?length_map.
Qed.

Lemma aggregate_length self (msgs : matrix) (index : list nat) (n : nat) :
  length (aggregate self msgs index n) = n.
Proof. unfold aggregate. now rewrite length_map, length_seq. Qed.

(** X7: a call that returns has one output row per node, and the
    attention weights it hands back have one row per edge with
    [heads * dim] entries each. *)
Theorem forward_result_shapes
        (self : t) (x : features) (edge_index : edge_index_tensor)
        (edge_type : list nat) (edge_attr : option edge_attr_tensor)
        (b : bool) (keep : list (list bool))
        (out : matrix) (edge_index' : edge_index_tensor) (alpha : matrix)
        (self' : t) :
  well_shaped self ->
  edge_lists_agree edge_index edge_type edge_attr ->
  forward self x edge_index edge_type edge_attr (Some b) keep
  = (inr (OutAttention out edge_index' alpha), self') ->
  length out = length (rows x)
  /\ edge_index' = edge_index
  /\ length alpha = length (snd edge_index)
  /\ rows_have (heads (hp self) * dim (hp self)) alpha.
Proof.
  intros Hwf Hagree H.
  assert (He : edge_index' = edge_index).
  { destruct (forward_inv _ _ _ _ _ _ _ H)
      as (xi & xj & msgs & a0 & _ & _ & _ & _ & Hr).
    cbn zeta in Hr. now inversion Hr. }
  destruct (forward_attention_inv _ _ _ Hwf Hagree H)
    as (logits & msgs & Hrows & Hlen & -> & _ & _ & -> & _).
  destruct Hagree as (_ & Lt & _).
  split; [now rewrite update_length, aggregate_length|].
  split; [exact He|]. split.
  - rewrite normalize_length; lia.
  - apply normalize_rows; try lia. exact Hrows.
Qed.

Lemma forward_result_shapes_witness :
  exists out alpha,
    fst (forward (tiny_layer (tiny_config "within-relation" None)) tiny_x
                 tiny_edges tiny_types None (Some false) [])
    = inr (OutAttention out tiny_edges alpha)
    /\ length out = 3 /\ length alpha = 2 /\ rows_have 1 alpha.
Proof.
  eexists. eexists. split; [reflexivity|].
  destruct (@forward_result_shapes
              (tiny_layer (tiny_config "within-relation" None)) tiny_x
              tiny_edges tiny_types None false [] _ _ _ _
              (proj2 (tiny_layer_well_shaped None))
              (conj eq_refl (conj eq_refl I)) eq_refl)
    as (H1 & _ & H2 & H3).
  split; [exact H1|]. split; [exact H2 | exact H3].
Defined.

(** ** The range of the coefficients *)

Lemma Rsum_ge_member (l : vector) (a : R) :
  (forall y, In y l -> (0 <= y)%R) -> In a l -> (a <= Rsum l)%R.
Proof.
  induction l as [|y l IH]; intros Hpos Hin; [contradiction|].
  simpl. assert (Hl : (0 <= Rsum l)%R).
  { clear IH Hin. induction l as [|z l IHl]; simpl; [lra|].
    assert (0 <= z)%R by (apply Hpos; right; now left).
    assert (0 <= Rsum l)%R.
    { apply IHl. intros u [Hu|Hu]; apply Hpos; [now left | right; now right]. }
    lra. }
  destruct Hin as [->|Hin].
  - lra.
  - assert (0 <= y)%R by (apply Hpos; now left).
    assert (a <= Rsum l)%R.
    { apply IH; [|assumption]. intros u Hu. apply Hpos. now right. }
    lra.
Qed.

Section GroupRange.
Variable K : Type.
Variable keq : K -> K -> bool.
Hypothesis keq_spec : forall a b, keq a b = true <-> a = b.

(** An edge belongs to the group of its own key. *)
Lemma in_own_group {A B : Type} (f : A -> B) (src : list A) (keys : list K)
      (a : A) (key : K) :
  In (a, key) (combine src keys) ->
  In (f a) (group keq keys key (map f src)).
Proof.
  revert keys. induction src as [|a0 src IH]; intros [|k0 keys] Hin;
    try contradiction.
  simpl map. rewrite group_cons. simpl in Hin.
  destruct Hin as [Hin|Hin].
  - inversion Hin. subst a0 k0.
    assert (Hk : keq key key = true) by now apply keq_spec.
    rewrite Hk. now left.
  - destruct (keq k0 key); [right|]; now apply IH.
Qed.

Lemma grouped_softmax_range (src : matrix) (keys : list K) (row : vector)
      (a : R) :
  In row (grouped_softmax keq src keys) -> In a row ->
  (0 < a <= 1)%R.
Proof.
  intros Hrow Ha. unfold grouped_softmax, map2 in Hrow.
  apply in_map_iff in Hrow as [[r key] [<- Hin]]. cbn [fst snd] in Ha.
  apply in_map_iff in Ha as [c [<- Hc]]. cbn zeta.
  set (g := group keq keys key (col c src)).
  set (S := Rsum (map (fun b => exp (b - seg_max g)) g)).
  assert (Hmem : In (exp (nth c r 0%R - seg_max g))
                    (map (fun b => exp (b - seg_max g)) g)).
  { apply (in_map (fun b => exp (b - seg_max g)) g (nth c r 0%R)).
    unfold g, col.
    apply (in_own_group (fun r0 : vector => nth c r0 0%R)). exact Hin. }
  assert (Hle : (exp (nth c r 0%R - seg_max g) <= S)%R).
  { apply Rsum_ge_member; [|exact Hmem].
    intros y Hy. apply in_map_iff in Hy as [b [<- _]].
    left. apply exp_pos. }
  pose proof (exp_pos (nth c r 0%R - seg_max g)) as Hpos.
  assert (HS : (0 < S)%R) by lra.
  split.
  - apply Rdiv_lt_0_compat; assumption.
  - apply Rmult_le_reg_r with (r := S); [exact HS|].
    unfold Rdiv. rewrite Rmult_assoc, Rinv_l by lra. lra.
Qed.

End GroupRange.

Lemma normalize_closed self (logits : matrix) (edge_type index : list nat)
      (size_i : nat) :
  length edge_type = length logits -> length index = length logits ->
  Forall (fun ty => ty < num_relations (hp self)) edge_type ->
  normalize self logits edge_type index size_i
  = if String.eqb (attention_mechanism (hp self)) "within-relation"
    then grouped_softmax pair_eqb logits (combine edge_type index)
    else if String.eqb (attention_mechanism (hp self)) "across-relation"
    then grouped_softmax Nat.eqb logits index
    else logits.
Proof.
  intros Lt Li Hty. unfold normalize.
  destruct (String.eqb (attention_mechanism (hp self)) "within-relation");
    [|reflexivity].
  rewrite within_relation_closed by assumption.
  apply written_below_all; [| |assumption].
  - rewrite grouped_softmax_length, length_combine. lia.
  - unfold zeros_like. rewrite length_map. lia.
Qed.

(** X8: in both attention scopes every normalised coefficient that
    [forward] returns lies in the interval [0, 1]: no edge is given a
    negative weight or a weight above 1.  (Over the exact reals no
    coefficient is 0; in floating point a coefficient far below the
    maximum of its group is rounded to 0, so the bound is stated
    closed.) *)
Theorem attention_coefficients_in_unit_interval
        (self : t) (x : features) (edge_index : edge_index_tensor)
        (edge_type : list nat) (edge_attr : option edge_attr_tensor)
        (b : bool) (keep : list (list bool))
        (out : matrix) (edge_index' : edge_index_tensor) (alpha : matrix)
        (self' : t) :
  validate (hp self) = inr tt ->
  well_shaped self ->
  edge_lists_agree edge_index edge_type edge_attr ->
  forward self x edge_index edge_type edge_attr (Some b) keep
  = (inr (OutAttention out edge_index' alpha), self') ->
  forall row a, In row alpha -> In a row -> (0 <= a <= 1)%R.
Proof.
  intros Hv Hwf Hagree H row a Hrow Ha.
  cut (0 < a <= 1)%R; [lra|].
  destruct (forward_attention_inv _ _ _ Hwf Hagree H)
    as (logits & msgs & Hrows & Hlen & Halpha & Hty & _).
  destruct Hagree as (_ & Lt & _).
  rewrite normalize_closed in Halpha by (try assumption; lia).
  assert (Hmech :
            String.eqb (attention_mechanism (hp self)) "within-relation"
            || String.eqb (attention_mechanism (hp self)) "across-relation"
            = true).
  { unfold validate, raise, ret in Hv.
    destruct (String.eqb (attention_mechanism (hp self)) "within-relation");
      [reflexivity|].
    destruct (String.eqb (attention_mechanism (hp self)) "across-relation");
      [reflexivity|]. discriminate Hv. }
  destruct (String.eqb (attention_mechanism (hp self)) "within-relation").
  - subst alpha.
    eapply grouped_softmax_range;
      [apply pair_eqb_spec | eassumption | eassumption].
  - cbn [orb] in Hmech. rewrite Hmech in Halpha. subst alpha.
    eapply grouped_softmax_range;
      [apply Nat.eqb_eq | eassumption | eassumption].
Qed.

Lemma tiny_config_valid mechanism m :
  (mechanism = "across-relation" \/ mechanism = "within-relation")%string ->
  validate (tiny_config mechanism m) = inr tt.
Proof.
  intros [->| ->]; run_validate; reflexivity.
Qed.

Lemma attention_coefficients_in_unit_interval_witness :
  exists out alpha,
    fst (forward (tiny_layer (tiny_config "across-relation" None)) tiny_x
                 tiny_edges tiny_types None (Some true) [])
    = inr (OutAttention out tiny_edges alpha)
    /\ forall row a, In row alpha -> In a row -> (0 <= a <= 1)%R.
Proof.
  eexists. eexists. split; [reflexivity|].
  apply (@attention_coefficients_in_unit_interval
           (tiny_layer (tiny_config "across-relation" None)) tiny_x
           tiny_edges tiny_types None true [] _ _ _ _
           (tiny_config_valid None (or_introl eq_refl))
           (proj1 (tiny_layer_well_shaped None))
           (conj eq_refl (conj eq_refl I)) eq_refl).
Defined.

Section LoneEdge.
Variable K : Type.
Variable keq : K -> K -> bool.
Hypothesis keq_spec : forall a b, keq a b = true <-> a = b.

(** The group of a key that occurs at position [n] only. *)
Lemma group_of_lone_key {A : Type} (keys : list K) (v : list A) (n : nat)
      (dk : K) (da : A) :
  length v = length keys -> n < length keys ->
  (forall m, m < length keys -> m <> n -> nth m keys dk <> nth n keys dk) ->
  group keq keys (nth n keys dk) v = [nth n v da].
Proof.
  revert v n. induction keys as [|k0 keys IH]; intros [|a v] n Hl Hn Hlone;
    simpl in Hl, Hn; try lia.
  rewrite group_cons. destruct n as [|n].
  - cbn [nth]. assert (Hk : keq k0 k0 = true) by now apply keq_spec.
    rewrite Hk. f_equal. apply group_not_in; [exact keq_spec|].
    intros Hin. apply (In_nth _ _ dk) in Hin as [m [Hm Hnth]].
    apply (Hlone (S m)); [simpl; lia | lia | exact Hnth].
  - cbn [nth]. destruct (keq k0 (nth n keys dk)) eqn:Hk.
    + apply keq_spec in Hk. exfalso.
      apply (Hlone 0); [simpl; lia | lia | exact Hk].
    + apply IH; [lia | lia |].
      intros m Hm Hmn. apply (Hlone (S m)); [simpl; lia | lia].
Qed.

Lemma grouped_softmax_lone (src : matrix) (keys : list K) (n c : nat) (dk : K) :
  length src = length keys -> n < length keys ->
  (forall row, In row src -> c < length row) ->
  (forall m, m < length keys -> m <> n -> nth m keys dk <> nth n keys dk) ->
  nth c (nth n (grouped_softmax keq src keys) []) 0%R = 1%R.
Proof.
  intros Hl Hn Hc Hlone.
  pose proof (@grouped_softmax_sums_to_one K keq keq_spec c src keys
                (nth n keys dk) Hl Hc (nth_In _ _ Hn)) as Hsum.
  rewrite group_of_lone_key with (da := 0%R) in Hsum; try assumption.
  - simpl in Hsum. unfold col in Hsum.
    rewrite nth_map_lt with (da := @nil R) in Hsum.
    + lra.
    + rewrite grouped_softmax_length. lia.
  - unfold col. rewrite length_map, grouped_softmax_length. lia.
Qed.

End LoneEdge.

(** X9: an edge that competes with no other edge gets the coefficient 1,
    in every column: in the across-relation scope when it is the only
    edge into its target, in the within-relation scope when every other
    edge into its target has another relation. *)
Theorem lone_edge_gets_coefficient_one
        (self : t) (x : features) (edge_index : edge_index_tensor)
        (edge_type : list nat) (edge_attr : option edge_attr_tensor)
        (b : bool) (keep : list (list bool))
        (out : matrix) (edge_index' : edge_index_tensor) (alpha : matrix)
        (self' : t) (n c : nat) :
  validate (hp self) = inr tt ->
  well_shaped self ->
  edge_lists_agree edge_index edge_type edge_attr ->
  forward self x edge_index edge_type edge_attr (Some b) keep
  = (inr (OutAttention out edge_index' alpha), self') ->
  n < length (snd edge_index) ->
  c < heads (hp self) * dim (hp self) ->
  (forall m, m < length (snd edge_index) -> m <> n ->
             nth m (snd edge_index) 0 = nth n (snd edge_index) 0 ->
             attention_mechanism (hp self) = "within-relation"%string
             /\ nth m edge_type 0 <> nth n edge_type 0) ->
  nth c (nth n alpha []) 0%R = 1%R.
Proof.
  intros Hv Hwf Hagree H Hn Hc Hlone.
  destruct (forward_attention_inv _ _ _ Hwf Hagree H)
    as (logits & msgs & Hrows & Hlen & Halpha & Hty & _).
  destruct Hagree as (_ & Lt & _).
  rewrite normalize_closed in Halpha by (try assumption; lia).
  assert (Hwidth : forall row, In row logits -> c < length row).
  { intros row Hrow. now rewrite (Hrows row Hrow). }
  destruct (String.eqb (attention_mechanism (hp self)) "within-relation")
    eqn:Hw.
  - subst alpha.
    apply grouped_softmax_lone with (dk := (0, 0)).
    + apply pair_eqb_spec.
    + rewrite length_combine. lia.
    + rewrite length_combine. lia.
    + exact Hwidth.
    + rewrite length_combine. intros m Hm Hmn.
      rewrite !combine_nth by lia. intros Heq. injection Heq as H1 H2.
      assert (Hm' : m < length (snd edge_index)) by lia.
      destruct (Hlone m Hm' Hmn H2) as [_ Hd]. now apply Hd.
  - assert (Ha : String.eqb (attention_mechanism (hp self)) "across-relation"
                 = true).
    { unfold validate, raise, ret in Hv. rewrite Hw in Hv.
      destruct (String.eqb (attention_mechanism (hp self)) "across-relation");
        [reflexivity | discriminate Hv]. }
    rewrite Ha in Halpha. subst alpha.
    apply grouped_softmax_lone with (dk := 0).
    + apply Nat.eqb_eq.
    + lia.
    + exact Hn.
    + exact Hwidth.
    + intros m Hm Hmn Heq. destruct (Hlone m Hm Hmn Heq) as [Hmech _].
      rewrite Hmech in Hw. discriminate Hw.
Qed.

Lemma lone_edge_gets_coefficient_one_witness :
  exists out alpha,
    fst (forward (tiny_layer (tiny_config "within-relation" None)) tiny_x
                 tiny_edges tiny_types None (Some true) [])
    = inr (OutAttention out tiny_edges alpha)
    /\ nth 0 (nth 0 alpha []) 0%R = 1%R
    /\ nth 0 (nth 1 alpha []) 0%R = 1%R.
Proof.
  eexists. eexists. split; [reflexivity|].
  assert (Hlone : forall n m, m < 2 -> m <> n -> n < 2 ->
            nth m [1; 1] 0 = nth n [1; 1] 0 ->
            "within-relation"%string = "within-relation"%string
            /\ nth m [0; 1] 0 <> nth n [0; 1] 0).
  { intros n m Hm Hmn Hn _. split; [reflexivity|].
    destruct m as [|[|m]], n as [|[|n]]; simpl; lia. }
  split.
  - apply (@lone_edge_gets_coefficient_one
             (tiny_layer (tiny_config "within-relation" None)) tiny_x
             tiny_edges tiny_types None true [] _ _ _ _ 0 0
             (tiny_config_valid None (or_intror eq_refl))
             (proj2 (tiny_layer_well_shaped None))
             (conj eq_refl (conj eq_refl I)) eq_refl);
      [simpl; lia | simpl; lia |].
    intros m Hm Hmn. apply (Hlone 0 m Hm Hmn). lia.
  - apply (@lone_edge_gets_coefficient_one
             (tiny_layer (tiny_config "within-relation" None)) tiny_x
             tiny_edges tiny_types None true [] _ _ _ _ 1 0
             (tiny_config_valid None (or_intror eq_refl))
             (proj2 (tiny_layer_well_shaped None))
             (conj eq_refl (conj eq_refl I)) eq_refl);
      [simpl; lia | simpl; lia |].
    intros m Hm Hmn. apply (Hlone 1 m Hm Hmn). lia.
Defined.

(** ** Bounds and element types *)

Lemma index_select_out_of_range {A : Type} (t0 : list A) (index : list nat) :
  Exists (fun i => length t0 <= i) index ->
  index_select t0 index = inl IndexError.
Proof.
  induction index as [|i index IH]; intros H.
  - inversion H.
  - simpl. destruct (nth_error t0 i) as [a|] eqn:Hi; [|reflexivity].
    inversion H as [? ? Hle|? ? Hex]; subst.
    + apply nth_error_None in Hle. congruence.
    + now rewrite (IH Hex).
Qed.

Lemma index_select_raises_IndexError {A : Type} (t0 : list A)
      (index : list nat) err :
  index_select t0 index = inl err -> err = IndexError.
Proof.
  induction index as [|i index IH]; simpl; [discriminate|].
  destruct (nth_error t0 i); [|now inversion 1].
  destruct (index_select t0 index); [|discriminate].
  cbn [bind]. intros H. inversion H. subst. now apply IH.
Qed.

Lemma transform_type_out_of_range self x_i x_j edge_type :
  weights_present self ->
  x_dtype x_i = float -> x_dtype x_j = float ->
  Exists (fun ty => relation_axis self <= ty) edge_type ->
  transform self x_i x_j edge_type = inl IndexError.
Proof.
  unfold weights_present, relation_axis, transform, basis_weight, is_long.
  intros Hw Hi Hj Hty. rewrite Hi, Hj.
  destruct (num_blocks (hp self)), (num_bases (hp self));
    try contradiction.
  - destruct Hw as [wt Hw]. rewrite Hw in *. cbn [bind ret andb].
    now rewrite index_select_out_of_range.
  - destruct Hw as (a & b & Ha & Hb). rewrite Ha, Hb in *.
    cbn [bind ret]. rewrite index_select_out_of_range; [reflexivity|].
    now rewrite length_map, matmul_length.
  - destruct Hw as [wt Hw]. rewrite Hw in *. cbn [bind ret].
    now rewrite index_select_out_of_range.
Qed.

(** The gathers of [forward] and their errors. *)
Lemma forward_index_errors
      (self : t) (x : features) (edge_index : edge_index_tensor)
      (edge_type : list nat) (edge_attr : option edge_attr_tensor)
      (raw : option bool) (keep : list (list bool)) :
  (Exists (fun i => length (rows x) <= i) (fst edge_index)
   \/ Exists (fun i => length (rows x) <= i) (snd edge_index) ->
   forward self x edge_index edge_type edge_attr raw keep
   = (inl IndexError, self))
  /\ (weights_present self -> x_dtype x = float ->
      Exists (fun ty => relation_axis self <= ty) edge_type ->
      forward self x edge_index edge_type edge_attr raw keep
      = (inl IndexError, self)).
Proof.
  split.
  - intros H. unfold forward, propagate.
    destruct (index_select (rows x) (fst edge_index)) as [err|xj] eqn:Hj.
    + now rewrite (index_select_raises_IndexError _ _ Hj).
    + destruct H as [H|H].
      * rewrite (index_select_out_of_range _ H) in Hj. discriminate.
      * now rewrite (index_select_out_of_range _ H).
  - intros Hw Hx Hty. unfold forward, propagate, message.
    destruct (index_select (rows x) (fst edge_index)) as [err|xj] eqn:Hj.
    { now rewrite (index_select_raises_IndexError _ _ Hj). }
    destruct (index_select (rows x) (snd edge_index)) as [err|xi] eqn:Hi.
    { now rewrite (index_select_raises_IndexError _ _ Hi). }
    now rewrite transform_type_out_of_range.
Qed.

(** X10: node numbers and relation numbers are checked by the gathers.  A
    source or target that is not below the number of feature rows makes
    [forward] raise [IndexError].  So does, on a layer with the
    constructor's shapes and float features of [in_channels] columns, a
    relation number that is not below [num_relations]: the gather of line
    206 or 214 is then the first operation that fails.  The layer is left
    as it was. *)
Theorem forward_raises_on_index_out_of_range
        (self : t) (x : features) (edge_index : edge_index_tensor)
        (edge_type : list nat) (edge_attr : option edge_attr_tensor)
        (raw : option bool) (keep : list (list bool)) :
  (Exists (fun i => length (rows x) <= i) (fst edge_index)
   \/ Exists (fun i => length (rows x) <= i) (snd edge_index) ->
   forward self x edge_index edge_type edge_attr raw keep
   = (inl IndexError, self))
  /\ (shaped_for_message self -> x_dtype x = float ->
      rows_have (in_channels (hp self)) (rows x) ->
      Exists (fun ty => num_relations (hp self) <= ty) edge_type ->
      forward self x edge_index edge_type edge_attr raw keep
      = (inl IndexError, self)).
Proof.
  destruct (forward_index_errors self x edge_index edge_type edge_attr raw
                                 keep) as [Hidx Hrel].
  split; [exact Hidx|].
  intros (_ & _ & _ & Hwf & Hws & _) Hx _ Hty.
  destruct Hwf as (_ & _ & _ & _ & Hax). rewrite <- Hax in Hty.
  apply Hrel; try assumption. now apply weights_shaped_present.
Qed.

Lemma forward_raises_on_index_out_of_range_witness :
  forward (tiny_layer (tiny_config "across-relation" None)) tiny_x
          ([0; 3], [1; 1]) tiny_types None None []
  = (inl IndexError, tiny_layer (tiny_config "across-relation" None))
  /\ forward (tiny_layer (tiny_config "across-relation" None)) tiny_x
             tiny_edges [0; 2] None None []
     = (inl IndexError, tiny_layer (tiny_config "across-relation" None)).
Proof.
  split.
  - apply (proj1 (@forward_raises_on_index_out_of_range
                    (tiny_layer (tiny_config "across-relation" None)) tiny_x
                    ([0; 3], [1; 1]) tiny_types None None [])).
    left. apply Exists_cons_tl. apply Exists_cons_hd. apply le_n.
  - apply (proj2 (@forward_raises_on_index_out_of_range
                    (tiny_layer (tiny_config "across-relation" None)) tiny_x
                    tiny_edges [0; 2] None None [])).
    + exact tiny_layer_shaped.
    + reflexivity.
    + intros row [<-|[<-|[<-|[]]]]; reflexivity.
    + apply Exists_cons_tl. apply Exists_cons_hd. apply le_n.
Defined.

(** X11: a layer with the block-diagonal decomposition refuses features of
    integer type: once the gathers succeed, [forward] raises the
    [ValueError] of rgat.py:201, whatever the edge types and attributes. *)
Theorem block_layer_rejects_long_features
        (self : t) (x : features) (edge_index : edge_index_tensor)
        (edge_type : list nat) (edge_attr : option edge_attr_tensor)
        (raw : option bool) (keep : list (list bool)) (nb : nat) :
  num_blocks (hp self) = Some nb -> num_bases (hp self) = None ->
  x_dtype x = long ->
  Forall (fun i => i < length (rows x)) (fst edge_index) ->
  Forall (fun i => i < length (rows x)) (snd edge_index) ->
  forward self x edge_index edge_type edge_attr raw keep
  = (inl (ValueError BlockOnLongFeatures), self).
Proof.
  intros Hk Hb Hx Hs Hd. unfold forward, propagate, message.
  rewrite !index_select_in_range with (d := @nil R) by assumption.
  unfold transform, basis_weight, is_long. cbn [x_dtype].
  rewrite Hb, Hk, Hx. reflexivity.
Qed.

Lemma block_layer_rejects_long_features_witness :
  forward tiny_block_layer tiny_long_x tiny_edges tiny_types None None []
  = (inl (ValueError BlockOnLongFeatures), tiny_block_layer).
Proof.
  apply (@block_layer_rejects_long_features tiny_block_layer tiny_long_x
           tiny_edges tiny_types None None [] 1 eq_refl eq_refl eq_refl).
  - repeat constructor.
  - repeat constructor.
Defined.

(** ** Nodes without incoming edge *)

Lemma vadd_zero_l (b : vector) : vadd (repeat 0%R (length b)) b = b.
Proof.
  unfold vadd, map2. induction b as [|a b IH]; [reflexivity|].
  simpl. rewrite IH. f_equal. lra.
Qed.

Lemma forward_out_inv self x edge_index edge_type edge_attr raw keep r self' :
  forward self x edge_index edge_type edge_attr raw keep = (inr r, self') ->
  exists msgs alpha,
    r = match raw with
        | Some _ =>
            OutAttention
              (update self (aggregate self msgs (snd edge_index)
                                      (length (rows x))))
              edge_index alpha
        | None =>
            Out (update self (aggregate self msgs (snd edge_index)
                                        (length (rows x))))
        end.
Proof.
  intros H.
  destruct (forward_inv _ _ _ _ _ _ _ H)
    as (xi & xj & msgs & alpha & _ & _ & _ & _ & Hr).
  exists msgs, alpha. exact Hr.
Qed.

(** X12: with [concat=True], a node without incoming edge gets the bias
    as its output row, whatever its own features are (a row of zeros when
    the layer has no bias). *)
Theorem isolated_node_outputs_bias
        (self : t) (x : features) (edge_index : edge_index_tensor)
        (edge_type : list nat) (edge_attr : option edge_attr_tensor)
        (keep : list (list bool)) (out : matrix) (self' : t) (i : nat) :
  concat (hp self) = true ->
  forward self x edge_index edge_type edge_attr None keep
  = (inr (Out out), self') ->
  i < length (rows x) -> ~ In i (snd edge_index) ->
  match bias self with
  | Some b => length b = message_width (hp self) -> nth i out [] = b
  | None => nth i out [] = repeat 0%R (message_width (hp self))
  end.
Proof.
  intros Hc H Hi Hn.
  pose proof H as Hr. apply forward_out_inv in Hr as (msgs & alpha & Hr).
  inversion Hr as [Hout]. clear Hr.
  assert (Hrow : nth i (aggregate self msgs (snd edge_index)
                                  (length (rows x))) []
                 = repeat 0%R (message_width (hp self))).
  { rewrite aggregate_row by assumption.
    rewrite group_not_in; [reflexivity | apply Nat.eqb_eq | assumption]. }
  unfold update. rewrite Hc.
  destruct (bias self) as [b|].
  - intros Hb.
    assert (Hmap : forall m : matrix,
               i < length m ->
               nth i (map (fun r => vadd r b) m) [] = vadd (nth i m []) b).
    { intros m Hm. now rewrite nth_map_lt with (da := @nil R). }
    destruct (is_additive (hp self));
      rewrite Hmap by (now rewrite aggregate_length);
      rewrite Hrow, <- Hb; apply vadd_zero_l.
  - destruct (is_additive (hp self)); exact Hrow.
Qed.

Lemma isolated_node_outputs_bias_witness :
  exists out,
    fst (forward (tiny_layer (tiny_config "across-relation" None)) tiny_x
                 tiny_edges tiny_types None None [])
    = inr (Out out)
    /\ nth 0 out [] = [0%R] /\ nth 2 out [] = [0%R].
Proof.
  eexists. split; [reflexivity|].
  split.
  - apply (@isolated_node_outputs_bias
             (tiny_layer (tiny_config "across-relation" None)) tiny_x
             tiny_edges tiny_types None [] _ _ 0 eq_refl eq_refl);
      [simpl; lia | simpl; intros [H|[H|[]]]; discriminate | reflexivity].
  - apply (@isolated_node_outputs_bias
             (tiny_layer (tiny_config "across-relation" None)) tiny_x
             tiny_edges tiny_types None [] _ _ 2 eq_refl eq_refl);
      [simpl; lia | simpl; intros [H|[H|[]]]; discriminate | reflexivity].
Defined.

(** ** The f-scaled modulation *)

Lemma ones_group_counts (index : list nat) (i : nat) :
  Rsum (group Nat.eqb index i (map (fun _ => 1%R) index))
  = INR (count_occ Nat.eq_dec index i).
Proof.
  induction index as [|j index IH]; [reflexivity|].
  simpl map. rewrite group_cons. simpl count_occ.
  destruct (Nat.eq_dec j i) as [->|Hne].
  - rewrite Nat.eqb_refl. cbn [Rsum fold_right]. fold (Rsum
      (group Nat.eqb index i (map (fun _ => 1%R) index))).
    rewrite IH, S_INR. lra.
  - apply Nat.eqb_neq in Hne. rewrite Hne. exact IH.
Qed.

(** [degree_of] gives every edge the number of edges into its target. *)
Lemma degree_of_counts (index : list nat) (size_i : nat) :
  Forall (fun i => i < size_i) index ->
  degree_of index size_i
  = map (fun i => INR (count_occ Nat.eq_dec index i)) index.
Proof.
  intros H. unfold degree_of, scatter_add. cbn zeta.
  apply map_ext_in. intros i Hi.
  rewrite Forall_forall in H.
  rewrite nth_map_seq by now apply H.
  apply ones_group_counts.
Qed.

Lemma map2_map_r {A B C D : Type} (f : A -> C -> D) (g : B -> C)
      (la : list A) (lb : list B) :
  map2 f la (map g lb) = map2 (fun a b => f a (g b)) la lb.
Proof.
  unfold map2. revert lb. induction la as [|a la IH]; intros [|b lb];
    try reflexivity.
  simpl. now rewrite IH.
Qed.

Lemma nth_scaled (row : vector) (d : R) (c : nat) :
  nth c (map (fun a => (a * d)%R) row) 0%R = (nth c row 0 * d)%R.
Proof.
  destruct (Nat.lt_ge_cases c (length row)) as [H|H].
  - now rewrite nth_map_lt with (da := 0%R).
  - rewrite !nth_overflow; [lra | assumption | now rewrite length_map].
Qed.

Lemma Rsum_map_scale {A : Type} (f : A -> R) (d : R) (l : list A) :
  Rsum (map (fun a => (f a * d)%R) l) = (Rsum (map f l) * d)%R.
Proof.
  induction l as [|a l IH]; simpl; [lra|]. rewrite IH. lra.
Qed.

(** The coefficients that the f-scaled modulation passes on add up, over
    the edges into a node, to the in-degree of the node. *)
Lemma f_scaled_group_sum (alpha : matrix) (index : list nat) (size_i i c : nat) :
  length alpha = length index ->
  Forall (fun j => j < size_i) index ->
  (forall row, In row alpha -> c < length row) ->
  In i index ->
  Rsum (group Nat.eqb index i
              (col c (f_scaled (grouped_softmax Nat.eqb alpha index)
                               index size_i)))
  = INR (count_occ Nat.eq_dec index i).
Proof.
  intros Hl Hb Hc Hin. unfold f_scaled.
  rewrite degree_of_counts by assumption. rewrite map2_map_r.
  set (D := fun j => INR (count_occ Nat.eq_dec index j)).
  assert (Hcol :
            col c (map2 (fun (arow : vector) j =>
                           map (fun a => (a * D j)%R) arow)
                        (grouped_softmax Nat.eqb alpha index) index)
            = map2 (fun (arow : vector) j => (nth c arow 0 * D j)%R)
                   (grouped_softmax Nat.eqb alpha index) index).
  { unfold col, map2. rewrite map_map. apply map_ext. intros [arow j].
    cbn [fst snd]. apply nth_scaled. }
  unfold D in Hcol |- *. rewrite Hcol.
  rewrite (group_map2_key Nat.eqb Nat.eqb_eq).
  rewrite (Rsum_map_scale (fun arow : vector => nth c arow 0%R)).
  rewrite <- group_map. fold (col c (grouped_softmax Nat.eqb alpha index)).
  rewrite grouped_softmax_sums_to_one; try assumption; [lra|].
  apply Nat.eqb_eq.
Qed.

(** The in-degree scaling of lines 306-309, written with the number of
    edges that point into the target of each edge. *)
Lemma f_scaled_as_in_degree (alpha : matrix) (index : list nat)
      (size_i : nat) :
  Forall (fun j => j < size_i) index ->
  f_scaled alpha index size_i
  = map2 (fun arow j =>
            map (fun a => (a * INR (count_occ Nat.eq_dec index j))%R) arow)
         alpha index.
Proof.
  intros Hb. unfold f_scaled.
  rewrite degree_of_counts by assumption. now rewrite map2_map_r.
Qed.

(** X14: with the f-scaled modulation and the across-relation scope, the
    node output is the aggregation of the products of the rows that the
    relation transform gives the sources with the effective coefficients:
    the returned coefficient [alpha] of every edge times the number of
    edges into its target.  In every column the effective coefficients of
    the edges into a node add up to the number of these edges, so the
    modulation turns the weighted mean of the neighbours into a weighted
    sum. *)
Theorem f_scaled_coefficients_sum_to_in_degree
        (self : t) (x : features) (edge_index : edge_index_tensor)
        (edge_type : list nat) (edge_attr : option edge_attr_tensor)
        (b : bool) (keep : list (list bool))
        (out : matrix) (edge_index' : edge_index_tensor) (alpha : matrix)
        (self' : t) :
  mod_ (hp self) = Some "f-scaled"%string ->
  attention_mechanism (hp self) = "across-relation"%string ->
  well_shaped self ->
  edge_lists_agree edge_index edge_type edge_attr ->
  forward self x edge_index edge_type edge_attr (Some b) keep
  = (inr (OutAttention out edge_index' alpha), self') ->
  let effective :=
    map2 (fun arow j =>
            map (fun a =>
                   (a * INR (count_occ Nat.eq_dec (snd edge_index) j))%R)
                arow)
         alpha (snd edge_index) in
  (exists outi outj,
      transform self
        {| x_dtype := x_dtype x;
           rows := map (fun i => nth i (rows x) []) (snd edge_index) |}
        {| x_dtype := x_dtype x;
           rows := map (fun i => nth i (rows x) []) (fst edge_index) |}
        edge_type
      = inr (outi, outj)
      /\ out = update self
                 (aggregate self (weighted (hp self) effective outj)
                            (snd edge_index) (length (rows x))))
  /\ forall i c,
      In i (snd edge_index) -> c < heads (hp self) * dim (hp self) ->
      Rsum (group Nat.eqb (snd edge_index) i (col c effective))
      = INR (count_occ Nat.eq_dec (snd edge_index) i).
Proof.
  intros Hmod Hmech Hwf Hagree H. cbn zeta.
  destruct (forward_attention_inv _ _ _ Hwf Hagree H)
    as (logits & msgs & Hrows & Hlen & Halpha & Hty & Hb & Hout
        & outi & outj & Hmsgs & Ht).
  rewrite <- (f_scaled_as_in_degree alpha Hb).
  split.
  - exists outi, outj. split; [exact Ht|].
    rewrite Hout, Hmsgs. do 2 f_equal.
    unfold modulate, mod_is. rewrite Hmod. reflexivity.
  - intros i c Hi Hc. rewrite Halpha.
    rewrite mechanism_across by assumption.
    apply f_scaled_group_sum; try assumption.
    intros row Hrow. now rewrite (Hrows row Hrow).
Qed.

Lemma f_scaled_coefficients_sum_to_in_degree_witness :
  exists out alpha,
    fst (forward (tiny_layer (tiny_config "across-relation"
                                          (Some "f-scaled"%string)))
                 tiny_x tiny_edges tiny_types None (Some true) [])
    = inr (OutAttention out tiny_edges alpha)
    /\ Rsum (group Nat.eqb [1; 1] 1
                   (col 0 (map2 (fun arow j =>
                                   map (fun a =>
                                          (a * INR (count_occ Nat.eq_dec
                                                              (snd tiny_edges)
                                                              j))%R)
                                       arow)
                                alpha [1; 1])))
       = 2%R.
Proof.
  eexists. eexists. split; [reflexivity|].
  destruct (@f_scaled_coefficients_sum_to_in_degree
              (tiny_layer (tiny_config "across-relation"
                                       (Some "f-scaled"%string)))
              tiny_x tiny_edges tiny_types None true [] _ _ _ _ eq_refl
              eq_refl
              (proj1 (tiny_layer_well_shaped (Some "f-scaled"%string)))
              (conj eq_refl (conj eq_refl I)) eq_refl)
    as [_ Hsum].
  transitivity (INR (count_occ Nat.eq_dec (snd tiny_edges) 1)).
  - apply (Hsum 1 0); simpl; [tauto | lia].
  - simpl. lra.
Defined.

(** ** The two scopes on a graph with one relation *)

Lemma masked_select_all {A : Type} (r : nat) (edge_type : list nat)
      (l : list A) :
  Forall (fun ty => ty = r) edge_type -> length l <= length edge_type ->
  masked_select (map (fun ty => ty =? r) edge_type) l = l.
Proof.
  intros H. revert l. induction H as [|ty edge_type Hty _ IH];
    intros [|a l] Hl; simpl in *; try reflexivity; try lia.
  subst ty. rewrite Nat.eqb_refl. f_equal. apply IH. lia.
Qed.

Lemma single_relation_softmax (r : nat) (alpha : matrix)
      (edge_type index : list nat) :
  length edge_type = length alpha -> length index = length alpha ->
  Forall (fun ty => ty = r) edge_type ->
  grouped_softmax pair_eqb alpha (combine edge_type index)
  = grouped_softmax Nat.eqb alpha index.
Proof.
  intros Lt Li Hr.
  pose proof (softmax_masked r alpha edge_type index) as H.
  rewrite !masked_select_all in H; try assumption; try lia.
  - symmetry. exact H.
  - rewrite grouped_softmax_length, length_combine. lia.
Qed.

(** X15: on a graph whose edges all carry one relation the two attention
    scopes coincide: [forward] returns the same result with
    "within-relation" as with "across-relation". *)
Theorem scopes_agree_on_single_relation
        (self : t) (x : features) (edge_index : edge_index_tensor)
        (edge_type : list nat) (edge_attr : option edge_attr_tensor)
        (raw : option bool) (keep : list (list bool)) (r : nat) :
  well_shaped self ->
  edge_lists_agree edge_index edge_type edge_attr ->
  Forall (fun ty => ty = r) edge_type ->
  fst (forward (layer_with_config
                  (config_with_mechanism "within-relation" (hp self)) self)
               x edge_index edge_type edge_attr raw keep)
  = fst (forward (layer_with_config
                    (config_with_mechanism "across-relation" (hp self)) self)
                 x edge_index edge_type edge_attr raw keep).
Proof.
  intros Hwf (Lst & Lt & La) Hr. unfold forward, propagate, message.
  destruct (index_select (rows x) (fst edge_index)) as [|xj] eqn:Hj;
    [reflexivity|].
  destruct (index_select (rows x) (snd edge_index)) as [|xi] eqn:Hi;
    [reflexivity|].
  change (transform (layer_with_config ?c self)) with (transform self).
  destruct (transform self _ _ edge_type) as [|[outi outj]] eqn:Ht;
    [reflexivity|].
  change (edge_term (layer_with_config ?c self)) with (edge_term self).
  destruct (edge_term self edge_attr edge_type) as [|ae] eqn:Hterm;
    [reflexivity|].
  cbn [q k layer_with_config].
  change (score (layer_with_config ?c self)) with (score self).
  set (logits := score self (matmul outi (q self)) (matmul outj (k self)) ae).
  destruct (fun L1 L2 L3 L4 =>
              @logits_shape self _ _ edge_type edge_attr outi outj ae
                (length (snd edge_index)) Hwf L1 L2 L3 L4 Ht Hterm)
    as [Hrows Hlen]; try assumption.
  { cbn [rows]. apply (index_select_length _ _ Hi). }
  { cbn [rows]. rewrite (index_select_length _ _ Hj). exact Lst. }
  fold logits in Hlen.
  assert (Hnorm :
            normalize (layer_with_config
                         (config_with_mechanism "within-relation" (hp self))
                         self)
                      logits edge_type (snd edge_index) (length (rows x))
            = normalize (layer_with_config
                           (config_with_mechanism "across-relation" (hp self))
                           self)
                        logits edge_type (snd edge_index) (length (rows x))).
  { rewrite mechanism_within by reflexivity.
    rewrite mechanism_across by reflexivity.
    rewrite within_relation_closed by lia.
    rewrite written_below_all.
    - apply single_relation_softmax with (r := r); try assumption; lia.
    - rewrite grouped_softmax_length, length_combine. lia.
    - unfold zeros_like. rewrite length_map. lia.
    - change (num_relations (hp (layer_with_config ?c self)))
        with (num_relations (hp self)).
      destruct Hwf as (_ & _ & _ & _ & <-).
      apply (transform_types_in_range _ _ _ _ Ht). }
  rewrite Hnorm. cbn [_alpha set_alpha layer_with_config fst].
  destruct raw; reflexivity.
Qed.

Lemma scopes_agree_on_single_relation_witness :
  fst (forward (tiny_layer (tiny_config "within-relation" None)) tiny_x
               tiny_edges [1; 1] None (Some true) [])
  = fst (forward (tiny_layer (tiny_config "across-relation" None)) tiny_x
                 tiny_edges [1; 1] None (Some true) []).
Proof.
  apply (@scopes_agree_on_single_relation
           (tiny_layer (tiny_config "across-relation" None)) tiny_x
           tiny_edges [1; 1] None (Some true) [] 1
           (proj1 (tiny_layer_well_shaped None))
           (conj eq_refl (conj eq_refl I))).
  repeat constructor.
Defined.


(** ** The width of the output rows *)

Lemma blocks_length {A : Type} (k n : nat) (l : list A) :
  length (blocks k n l) = k.
Proof.
  revert l. induction k as [|k IH]; intros l; simpl; [reflexivity|].
  now rewrite IH.
Qed.

Lemma blocks_rows {A : Type} (k n : nat) (l : list A) :
  length l = k * n -> forall b, In b (blocks k n l) -> length b = n.
Proof.
  revert l. induction k as [|k IH]; intros l Hl b Hin; simpl in *.
  - contradiction.
  - destruct Hin as [<-|Hin].
    + rewrite length_firstn. lia.
    + apply (IH (skipn n l)); [|exact Hin]. rewrite length_skipn. lia.
Qed.

Lemma concat_length_const {A : Type} (n : nat) (l : list (list A)) :
  (forall b, In b l -> length b = n) ->
  length (List.concat l) = length l * n.
Proof.
  induction l as [|a l IH]; intros H; simpl; [reflexivity|].
  rewrite length_app, IH by (intros; apply H; simpl; auto).
  rewrite (H a) by (simpl; auto). reflexivity.
Qed.

Lemma in_map2 {A B C : Type} (f : A -> B -> C) la lb c :
  In c (map2 f la lb) ->
  exists a b, In a la /\ In b lb /\ c = f a b.
Proof.
  unfold map2. intros H. apply in_map_iff in H as [[a b] [<- H]].
  exists a, b. cbn [fst snd].
  split; [now apply in_combine_l in H|].
  split; [now apply in_combine_r in H|reflexivity].
Qed.

Lemma vadd_length (u v : vector) :
  length (vadd u v) = Nat.min (length u) (length v).
Proof. apply map2_length. Qed.

Lemma vmul_length (u v : vector) :
  length (vmul u v) = Nat.min (length u) (length v).
Proof. apply map2_length. Qed.

Lemma vsum_width (n : nat) (l : list vector) :
  (forall v, In v l -> length v = n) -> length (vsum n l) = n.
Proof.
  unfold vsum. induction l as [|a l IH]; intros H; simpl.
  - apply repeat_length.
  - rewrite vadd_length, IH by (intros; apply H; simpl; auto).
    rewrite (H a) by (simpl; auto). lia.
Qed.

Lemma group_In {K A : Type} (keq : K -> K -> bool) keys key (l : list A) a :
  In a (group keq keys key l) -> In a l.
Proof.
  unfold group. intros H. apply in_map_iff in H as [[k0 b] [<- H]].
  apply filter_In in H as [H _]. now apply in_combine_r in H.
Qed.

Lemma aggregate_rows self (msgs : matrix) (index : list nat) (n : nat) :
  rows_have (message_width (hp self)) msgs ->
  rows_have (message_width (hp self)) (aggregate self msgs index n).
Proof.
  intros H row Hin. unfold aggregate in Hin.
  apply in_map_iff in Hin as [i [<- _]].
  apply vsum_width. intros v Hv. apply H. eapply group_In. exact Hv.
Qed.

Lemma vecmat_length (v : vector) (m : matrix) :
  length (vecmat v m) = ncols m.
Proof. unfold vecmat. now rewrite length_map, length_seq. Qed.

Lemma ncols_shape2 (d1 d2 : nat) (m : matrix) :
  shape2 d1 d2 m -> 0 < d1 -> ncols m = d2.
Proof.
  intros [Hl Hr] Hpos. unfold ncols. destruct m as [|r m]; simpl in *.
  - lia.
  - apply Hr. now left.
Qed.

Lemma index_select_In {A : Type} (t0 : list A) (index : list nat) l a :
  index_select t0 index = inr l -> In a l -> In a t0.
Proof.
  revert l. induction index as [|i index IH]; intros l H Hin; simpl in H.
  - inversion H. subst l. contradiction.
  - destruct (nth_error t0 i) as [b|] eqn:Hb; [|discriminate].
    destruct (index_select t0 index) as [|l']; [discriminate|].
    cbn [bind ret] in H. inversion H. subst l.
    destruct Hin as [<-|Hin].
    + eapply nth_error_In. exact Hb.
    + now apply (IH l').
Qed.

Lemma blocks_shape2 (k n : nat) (l : vector) :
  length l = k * n -> shape2 k n (blocks k n l).
Proof.
  intros H. split; [apply blocks_length|].
  intros b Hb. eapply blocks_rows; eassumption.
Qed.

(** Every row that the relation transform returns has
    [heads * out_channels] entries. *)
Lemma transform_rows self x_i x_j edge_type outi outj :
  weights_shaped self ->
  0 < in_channels (hp self) ->
  num_bases (hp self) <> Some 0 ->
  transform self x_i x_j edge_type = inr (outi, outj) ->
  rows_have (heads (hp self) * out_channels (hp self)) outi
  /\ rows_have (heads (hp self) * out_channels (hp self)) outj.
Proof.
  unfold weights_shaped, transform, basis_weight.
  intros Hw Hin Hnb.
  destruct (num_blocks (hp self)) as [nb|] eqn:Hk.
  - destruct (num_bases (hp self)); [contradiction|].
    destruct Hw as (wt & -> & Hdi & Hdo & Hwt). cbn [bind ret].
    destruct (is_long x_i && is_long x_j); [discriminate|].
    destruct (index_select wt edge_type) as [|we] eqn:Hwe; [discriminate|].
    cbn [bind ret]. intros H. inversion H. clear H.
    assert (Hblock : forall (x : features) row,
               In row (map (@List.concat R)
                           (einsum_abcd_acde_ace
                              (map (fun r => [blocks (size1 wt) (size2 wt) r])
                                   (rows x)) we)) ->
               length row = heads (hp self) * out_channels (hp self)).
    { intros x row Hrow.
      apply in_map_iff in Hrow as [m [<- Hm]].
      unfold einsum_abcd_acde_ace in Hm.
      apply in_map2 in Hm as (xa & wa & Hxa & Hwa & ->).
      apply in_map_iff in Hxa as [r [<- _]]. cbn [map fold_left].
      pose proof (index_select_In _ _ _ Hwe Hwa) as Hwa'.
      assert (Hs1 : size1 wt = nb).
      { unfold size1. destruct wt as [|w0 wt']; [contradiction|].
        cbn [hd]. apply (Hwt w0). now left. }
      destruct (Hwt wa Hwa') as [Hla Hra].
      rewrite concat_length_const with (n := heads (hp self) * out_channels (hp self) / nb).
      - rewrite map2_length, blocks_length, Hs1, Hla, Nat.min_id.
        exact Hdo.
      - intros b Hb. apply in_map2 in Hb as (u & wb & _ & Hwb & ->).
        rewrite vecmat_length.
        apply ncols_shape2 with (d1 := in_channels (hp self) / nb).
        + now apply Hra.
        + destruct (in_channels (hp self) / nb); [|lia].
          rewrite Nat.mul_0_r in Hdi. lia. }
    split; intros row Hrow; eapply Hblock; exact Hrow.
  - assert (Hdense : forall wt : tensor3,
               (forall wr, In wr wt ->
                  ncols wr = heads (hp self) * out_channels (hp self)) ->
               match index_select wt edge_type with
               | inl x => inl x
               | inr we =>
                   if is_long x_i || is_long x_j
                   then raise RuntimeError
                   else ret (map2 vecmat (rows x_i) we,
                             map2 vecmat (rows x_j) we)
               end = inr (outi, outj) ->
               rows_have (heads (hp self) * out_channels (hp self)) outi
               /\ rows_have (heads (hp self) * out_channels (hp self)) outj).
    { intros wt Hwt.
      destruct (index_select wt edge_type) as [|we] eqn:Hwe; [discriminate|].
      destruct (is_long x_i || is_long x_j); [discriminate|].
      intros H. inversion H. clear H.
      split; intros row Hrow; apply in_map2 in Hrow as (u & wr & _ & Hwr & ->);
        rewrite vecmat_length; apply Hwt;
        eapply index_select_In; eassumption. }
    destruct (num_bases (hp self)) as [nbs|] eqn:Hb.
    + destruct Hw as (a & b & -> & -> & Hlb & Hrb). cbn [bind ret].
      apply Hdense. intros wr Hwr.
      apply in_map_iff in Hwr as [flat [<- Hflat]].
      apply ncols_shape2 with (d1 := in_channels (hp self)); [|assumption].
      apply blocks_shape2.
      apply (matmul_rows a (map (@List.concat R) b)) in Hflat.
      rewrite Hflat. unfold ncols.
      destruct b as [|b0 b]; [simpl in Hlb; congruence|]. cbn [map hd].
      destruct (Hrb b0 (or_introl eq_refl)) as [Hl0 Hr0].
      rewrite concat_length_const with (n := heads (hp self) * out_channels (hp self))
        by exact Hr0.
      now rewrite Hl0.
    + destruct Hw as (wt & -> & Hwt). cbn [bind ret].
      apply Hdense. intros wr Hwr.
      apply ncols_shape2 with (d1 := in_channels (hp self)); [|assumption].
      now apply Hwt.
Qed.

Lemma shape2_map (f : vector -> vector) (d1 d2 : nat) (t0 : matrix) :
  (forall v, length v = d2 -> length (f v) = d2) ->
  shape2 d1 d2 t0 -> shape2 d1 d2 (map f t0).
Proof.
  intros Hf [Hl Hr]. split; [now rewrite length_map|].
  intros row Hin. apply in_map_iff in Hin as [v [<- Hv]].
  apply Hf. now apply Hr.
Qed.

Lemma shape2_map2 {A : Type} (f : vector -> A -> vector) (d1 d2 : nat)
      (t0 : matrix) (a : list A) :
  (forall v s, length v = d2 -> length (f v s) = d2) ->
  shape2 d1 d2 t0 -> length a = d1 -> shape2 d1 d2 (map2 f t0 a).
Proof.
  intros Hf [Hl Hr] Ha. split; [rewrite map2_length; lia|].
  intros row Hin. apply in_map2 in Hin as (v & s & Hv & _ & ->).
  apply Hf. now apply Hr.
Qed.

Lemma rows_scaled_shape (H O : nat) (t0 : matrix) (a : vector) :
  shape2 H O t0 -> length a = H -> shape2 H O (rows_scaled t0 a).
Proof.
  intros Ht Ha. unfold rows_scaled. apply shape2_map2; try assumption.
  intros v s Hv. now rewrite length_map.
Qed.

Lemma scale_rows_shape (H O : nat) (a : vector) (t0 : matrix) :
  length a = H -> shape2 H O t0 -> shape2 H O (scale_rows a t0).
Proof.
  intros Ha [Hl Hr]. unfold scale_rows. split; [rewrite map2_length; lia|].
  intros row Hin. apply in_map2 in Hin as (s & v & _ & Hv & ->).
  rewrite length_map. now apply Hr.
Qed.

Lemma rows_scaled_dim_shape (H D O : nat) (t0 a : matrix) :
  shape2 H O t0 -> shape2 H D a -> shape3 H D O (rows_scaled_dim t0 a).
Proof.
  intros [Hl Hr] [Hla Hra]. unfold rows_scaled_dim.
  split; [rewrite map2_length; lia|].
  intros m Hin. apply in_map2 in Hin as (blk & ablk & Hb & Hab & ->).
  split; [rewrite length_map; now apply Hra|].
  intros row Hrow. apply in_map_iff in Hrow as [s [<- _]].
  rewrite length_map. now apply Hr.
Qed.

Lemma scale_rows_dim_shape (H D O : nat) (a t0 : matrix) :
  shape2 H D a -> shape2 H O t0 -> shape3 H D O (scale_rows_dim a t0).
Proof.
  intros [Hla Hra] [Hl Hr]. unfold scale_rows_dim.
  split; [rewrite map2_length; lia|].
  intros m Hin. apply in_map2 in Hin as (ablk & blk & Hab & Hb & ->).
  split; [rewrite length_map; now apply Hra|].
  intros row Hrow. apply in_map_iff in Hrow as [s [<- _]].
  rewrite length_map. now apply Hr.
Qed.

Lemma flat2_shape (H O : nat) (t0 : matrix) :
  shape2 H O t0 -> length (flat2 t0) = H * O.
Proof.
  intros [Hl Hr]. unfold flat2.
  rewrite concat_length_const with (n := O) by exact Hr. now rewrite Hl.
Qed.

Lemma flat3_shape (H D O : nat) (t0 : tensor3) :
  shape3 H D O t0 -> length (flat3 t0) = H * D * O.
Proof.
  intros [Hl Hr]. unfold flat3.
  rewrite concat_length_const with (n := D * O).
  - rewrite length_map, Hl. lia.
  - intros b Hb. apply in_map_iff in Hb as [m [<- Hm]].
    destruct (Hr m Hm) as [Hlm Hrm].
    rewrite concat_length_const with (n := O) by exact Hrm. now rewrite Hlm.
Qed.

Lemma madd_shape (d1 d2 : nat) (a b : matrix) :
  shape2 d1 d2 a -> shape2 d1 d2 b -> shape2 d1 d2 (madd a b).
Proof.
  intros [Hla Hra] [Hlb Hrb]. split.
  - unfold madd. rewrite map2_length. lia.
  - now apply madd_rows.
Qed.

Lemma shape3_map (f : matrix -> matrix) (d1 d2 d3 : nat) (t0 : tensor3) :
  (forall m, shape2 d2 d3 m -> shape2 d2 d3 (f m)) ->
  shape3 d1 d2 d3 t0 -> shape3 d1 d2 d3 (map f t0).
Proof.
  intros Hf [Hl Hr]. split; [now rewrite length_map|].
  intros m Hin. apply in_map_iff in Hin as [m0 [<- Hm]].
  apply Hf. now apply Hr.
Qed.

Lemma shape3_map2_madd (d1 d2 d3 : nat) (a b : tensor3) :
  shape3 d1 d2 d3 a -> shape3 d1 d2 d3 b -> shape3 d1 d2 d3 (map2 madd a b).
Proof.
  intros [Hla Hra] [Hlb Hrb]. split; [rewrite map2_length; lia|].
  intros m Hin. apply in_map2 in Hin as (u & v & Hu & Hv & ->).
  apply madd_shape; auto.
Qed.

Lemma vmul_width_l (n : nat) (u v : vector) :
  length u = n -> length v = n -> length (vmul u v) = n.
Proof. intros Hu Hv. rewrite vmul_length. lia. Qed.

Lemma weighted_rows c (alpha outj : matrix) :
  is_additive c || is_multiplicative c = true ->
  (is_additive c = true -> dim c = 1) ->
  rows_have (heads c * dim c) alpha ->
  rows_have (heads c * out_channels c) outj ->
  rows_have (message_width c) (weighted c alpha outj).
Proof.
  intros Hmode Hdim Ha Ho row Hin. unfold weighted, message_width in *.
  destruct (is_additive c) eqn:Hadd.
  - apply in_map2 in Hin as (arow & orow & Harow & Horow & ->).
    apply flat2_shape. apply scale_rows_shape.
    + rewrite (Ha arow Harow), Hdim by reflexivity. lia.
    + apply blocks_shape2. now apply Ho.
  - apply in_map2 in Hin as (arow & orow & Harow & Horow & ->).
    apply flat3_shape. apply scale_rows_dim_shape.
    + apply blocks_shape2. now apply Ha.
    + apply blocks_shape2. now apply Ho.
Qed.

Lemma degree_head_rows self (index : list nat) (size_i : nat) :
  0 < out_channels (hp self) ->
  shape2 (out_channels (hp self)) (out_channels (hp self)) (l2 self) ->
  shape2 1 (out_channels (hp self)) (b2 self) ->
  rows_have (out_channels (hp self)) (degree_head self index size_i).
Proof.
  intros Hpos Hl2 [Hb2 Hb2r] row Hin. unfold degree_head in Hin.
  apply in_map_iff in Hin as [r [<- Hr]].
  apply matmul_rows in Hr.
  rewrite vadd_length, Hr, (ncols_shape2 Hl2 Hpos).
  destruct (b2 self) as [|b0 b2']; [discriminate|]. cbn [hd].
  rewrite (Hb2r b0) by now left. lia.
Qed.

(** Every message has [message_width] entries. *)
Lemma modulate_rows self (alpha outj : matrix) (index : list nat)
      (size_i : nat) (keep : list (list bool)) :
  is_additive (hp self) || is_multiplicative (hp self) = true ->
  (is_additive (hp self) = true -> dim (hp self) = 1) ->
  rows_have (heads (hp self) * dim (hp self)) alpha ->
  rows_have (heads (hp self) * out_channels (hp self)) outj ->
  length (w self) = out_channels (hp self) ->
  rows_have (out_channels (hp self)) (degree_head self index size_i) ->
  (forall row, In row keep ->
               length row = heads (hp self) * dim (hp self)) ->
  rows_have (message_width (hp self))
            (modulate self alpha outj index size_i keep).
Proof.
  intros Hmode Hdim Ha Ho Hw Hdeg Hkeep. unfold modulate. cbn zeta.
  assert (Hblk : forall orow, In orow outj ->
            shape2 (heads (hp self)) (out_channels (hp self))
                   (blocks (heads (hp self)) (out_channels (hp self)) orow)).
  { intros orow Hin. apply blocks_shape2. now apply Ho. }
  assert (Hones : rows_have (heads (hp self) * dim (hp self))
                            (ones_like alpha)).
  { unfold ones_like. now apply map_map_rows. }
  destruct (mod_is (hp self) "additive").
  { unfold message_width.
    destruct (is_additive (hp self)) eqn:Hadd.
    - intros row Hin. apply in_map2 in Hin as (orow & [ar1 ar2] & Horow & Har & ->).
      cbn [fst snd].
      pose proof (in_combine_l _ _ _ _ Har) as H1.
      pose proof (in_combine_r _ _ _ _ Har) as H2.
      apply Ha in H1. apply Hones in H2.
      rewrite Hdim, Nat.mul_1_r in H1, H2 by reflexivity.
      apply flat2_shape. apply madd_shape.
      + apply rows_scaled_shape; auto.
      + apply shape2_map.
        * intros v Hv. apply vmul_width_l; assumption.
        * apply rows_scaled_shape; auto.
    - cbn [orb] in Hmode. rewrite Hmode.
      intros row Hin. apply in_map2 in Hin as (orow & [ar1 ar2] & Horow & Har & ->).
      cbn [fst snd].
      pose proof (in_combine_l _ _ _ _ Har) as H1.
      pose proof (in_combine_r _ _ _ _ Har) as H2.
      apply Ha in H1. apply Hones in H2.
      apply flat3_shape. apply shape3_map2_madd.
      + apply rows_scaled_dim_shape; auto. now apply blocks_shape2.
      + apply shape3_map.
        * intros m Hm. apply shape2_map; [|exact Hm].
          intros v Hv. apply vmul_width_l; assumption.
        * apply rows_scaled_dim_shape; auto. now apply blocks_shape2. }
  destruct (mod_is (hp self) "scaled").
  { unfold message_width.
    destruct (is_additive (hp self)) eqn:Hadd.
    - intros row Hin. apply in_map2 in Hin as (orow & [ad1 ad2] & Horow & Had & ->).
      cbn [fst snd].
      pose proof (in_combine_l _ _ _ _ Had) as H1.
      pose proof (in_combine_r _ _ _ _ Had) as H2.
      apply Ha in H1. apply Hdeg in H2.
      rewrite Hdim, Nat.mul_1_r in H1 by reflexivity.
      apply flat2_shape. apply shape2_map.
      + intros v Hv. apply vmul_width_l; assumption.
      + apply rows_scaled_shape; auto.
    - cbn [orb] in Hmode. rewrite Hmode.
      intros row Hin. apply in_map2 in Hin as (orow & [ad1 ad2] & Horow & Had & ->).
      cbn [fst snd].
      pose proof (in_combine_l _ _ _ _ Had) as H1.
      pose proof (in_combine_r _ _ _ _ Had) as H2.
      apply Ha in H1. apply Hdeg in H2.
      apply flat3_shape. apply shape3_map.
      + intros m Hm. apply shape2_map; [|exact Hm].
        intros v Hv. apply vmul_width_l; assumption.
      + apply rows_scaled_dim_shape; auto. now apply blocks_shape2. }
  destruct (mod_is (hp self) "f-additive").
  { apply weighted_rows; try assumption.
    unfold f_additive. now apply map_map_rows. }
  destruct (mod_is (hp self) "f-scaled").
  { apply weighted_rows; try assumption.
    unfold f_scaled. intros row Hin.
    apply in_map2 in Hin as (arow & d & Harow & _ & ->).
    rewrite length_map. now apply Ha. }
  destruct (training self && Rgtb (dropout (hp self)) 0).
  { apply weighted_rows; try assumption.
    unfold F_dropout. intros row Hin.
    apply in_map2 in Hin as (arow & krow & Harow & Hkrow & ->).
    rewrite map2_length, (Ha arow Harow), (Hkeep krow Hkrow). lia. }
  now apply weighted_rows.
Qed.

Lemma Tensor1_length mem d1 : length (Tensor1 mem d1) = d1.
Proof. unfold Tensor1. now rewrite length_map, length_seq. Qed.

Lemma Tensor2_shape mem d1 d2 : shape2 d1 d2 (Tensor2 mem d1 d2).
Proof.
  unfold Tensor2. split; [now rewrite length_map, length_seq|].
  intros row Hin. apply in_map_iff in Hin as [i [<- _]].
  apply Tensor1_length.
Qed.

Lemma Tensor3_shape mem d1 d2 d3 : shape3 d1 d2 d3 (Tensor3 mem d1 d2 d3).
Proof.
  unfold Tensor3. split; [now rewrite length_map, length_seq|].
  intros m Hin. apply in_map_iff in Hin as [i [<- _]].
  apply Tensor2_shape.
Qed.

Lemma refill1_length f (v : vector) : length (refill1 f v) = length v.
Proof. unfold refill1. rewrite map2_length, length_seq. lia. Qed.

Lemma refill2_keeps_shape f d1 d2 (m : matrix) :
  shape2 d1 d2 m -> shape2 d1 d2 (refill2 f m).
Proof.
  intros [Hl Hr]. split; [now rewrite refill2_length|].
  intros row Hin. unfold refill2 in Hin.
  apply in_map2 in Hin as (i & r & _ & Hin & ->).
  rewrite refill1_length. now apply Hr.
Qed.

Lemma refill3_keeps_shape f d1 d2 d3 (t0 : tensor3) :
  shape3 d1 d2 d3 t0 -> shape3 d1 d2 d3 (refill3 f t0).
Proof.
  intros [Hl Hr]. split; [now rewrite refill3_length|].
  intros m Hin. unfold refill3 in Hin.
  apply in_map2 in Hin as (i & r & _ & Hin & ->).
  apply refill2_keeps_shape. now apply Hr.
Qed.

Lemma update_rows self (m : matrix) :
  is_additive (hp self) || is_multiplicative (hp self) = true ->
  (is_additive (hp self) = true -> dim (hp self) = 1) ->
  rows_have (message_width (hp self)) m ->
  (forall b, bias self = Some b -> length b = out_width (hp self)) ->
  rows_have (out_width (hp self)) (update self m).
Proof.
  intros Hmode Hdim Hm Hb. unfold update, message_width, out_width in *.
  cbn zeta.
  assert (Hbias : forall m0 : matrix,
             rows_have (if concat (hp self)
                        then heads (hp self) * dim (hp self)
                             * out_channels (hp self)
                        else dim (hp self) * out_channels (hp self)) m0 ->
             rows_have (if concat (hp self)
                        then heads (hp self) * dim (hp self)
                             * out_channels (hp self)
                        else dim (hp self) * out_channels (hp self))
                       match bias self with
                       | Some b => map (fun r => vadd r b) m0
                       | None => m0
                       end).
  { intros m0 Hm0. destruct (bias self) as [b|]; [|exact Hm0].
    intros row Hin. apply in_map_iff in Hin as [r [<- Hr]].
    rewrite vadd_length, (Hm0 r Hr), (Hb b eq_refl). lia. }
  assert (Hmean : forall n, rows_have (heads (hp self) * n) m ->
                            rows_have n (map (mean_heads (heads (hp self)) n) m)).
  { intros n Hn row Hin. apply in_map_iff in Hin as [r [<- Hr]].
    unfold mean_heads. rewrite length_map. apply vsum_width.
    apply blocks_rows. now apply Hn. }
  destruct (is_additive (hp self)) eqn:Hadd.
  - rewrite Hdim in * by reflexivity. apply Hbias.
    destruct (concat (hp self)).
    + now rewrite Nat.mul_1_r.
    + rewrite Nat.mul_1_l. now apply Hmean.
  - apply Hbias. destruct (concat (hp self)); [exact Hm|].
    apply Hmean. intros row Hin. rewrite (Hm row Hin). lia.
Qed.

Lemma validate_additive_dim_le c :
  validate c = inr tt -> is_additive c = true -> dim c <= 1.
Proof.
  unfold validate, is_additive, raise, ret. intros H Hadd.
  rewrite Hadd in H. cbn [negb andb] in H.
  destruct (negb _ && negb _); [discriminate|].
  destruct (1 <? dim c) eqn:Hd; [discriminate|].
  apply Nat.ltb_ge in Hd. exact Hd.
Qed.

(** The shapes of the parameters of a layer that the constructor
    returned. *)
Lemma init_shapes mem draw c self :
  __init__ mem draw c = inr self ->
  hp self = c
  /\ weights_shaped self
  /\ length (w self) = out_channels c
  /\ shape2 (out_channels c) (out_channels c) (l2 self)
  /\ shape2 1 (out_channels c) (b2 self)
  /\ (forall b, bias self = Some b -> length b = out_width c)
  /\ validate c = inr tt.
Proof.
  unfold __init__. intros H.
  destruct (validate c) as [|[]] eqn:Hv; [discriminate|]. cbn [bind] in H.
  destruct (init_weights mem c) as [|[[a0 b0] w0]] eqn:Hw; [discriminate|].
  cbn [bind ret] in H. inversion H. clear H. subst self.
  cbn [hp w l2 b2 bias reset_parameters].
  split; [reflexivity|].
  split.
  { unfold weights_shaped. cbn [hp att basis weight reset_parameters].
    unfold init_weights in Hw.
    destruct (num_bases c) as [nb|] eqn:Hb.
    - inversion Hw. subst a0 b0 w0. cbn [is_some option_map].
      destruct (num_blocks c) eqn:Hk.
      + unfold validate, raise, ret in Hv. rewrite Hb, Hk in Hv.
        cbn [is_some andb] in Hv.
        repeat match type of Hv with
               | context [if ?b then _ else _] => destruct b
               end; discriminate.
      + do 2 eexists. split; [reflexivity|]. split; [reflexivity|].
        apply refill3_keeps_shape, Tensor3_shape.
    - destruct (num_blocks c) as [nb|] eqn:Hk.
      + destruct (nb =? 0) eqn:Hz; [discriminate|].
        apply Nat.eqb_neq in Hz.
        destruct ((in_channels c mod nb =? 0)
                  && (heads c * out_channels c mod nb =? 0)) eqn:Hdiv;
          [|discriminate].
        apply andb_prop in Hdiv as [Hdi Hdo].
        apply Nat.eqb_eq in Hdi, Hdo.
        inversion Hw. subst a0 b0 w0. cbn [is_some option_map glorot_weight].
        eexists. split; [reflexivity|].
        split; [|split].
        * pose proof (Nat.div_mod_eq (in_channels c) nb). lia.
        * pose proof (Nat.div_mod_eq (heads c * out_channels c) nb). lia.
        * intros wr Hin. unfold refill4 in Hin.
          apply in_map2 in Hin as (i & r & _ & Hin & ->).
          apply refill3_keeps_shape. unfold Tensor4 in Hin.
          apply in_map_iff in Hin as [j [<- _]]. apply Tensor3_shape.
      + inversion Hw. subst a0 b0 w0. cbn [is_some option_map glorot_weight].
        eexists. split; [reflexivity|].
        intros wr Hin. unfold refill3 in Hin.
        apply in_map2 in Hin as (i & r & _ & Hin & ->).
        apply refill2_keeps_shape. unfold Tensor3 in Hin.
        apply in_map_iff in Hin as [j [<- _]]. apply Tensor2_shape. }
  split; [now rewrite length_map, length_seq|].
  split; [apply Tensor2_shape|].
  split; [apply refill2_keeps_shape, Tensor2_shape|].
  split; [|reflexivity].
  intros b Hb. unfold out_width.
  destruct (bias_arg c), (concat c); cbn [andb negb option_map] in Hb;
    try discriminate; inversion Hb; unfold zeros1;
    now rewrite refill1_length, Tensor1_length.
Qed.

(** The constructor establishes [shaped_for_message]. *)
Lemma init_shaped_for_message mem draw c self :
  __init__ mem draw c = inr self ->
  0 < in_channels c -> 0 < heads c * out_channels c ->
  num_bases c <> Some 0 ->
  shaped_for_message self.
Proof.
  intros Hinit Hin Hho Hnb.
  destruct (init_well_shaped _ _ _ Hinit Hho) as [Hc Hwf].
  destruct (init_shapes _ _ _ Hinit) as (_ & Hws & _).
  unfold shaped_for_message. cbn zeta. rewrite Hc.
  split; [exact Hin|]. split; [exact Hho|]. split; [exact Hnb|].
  split; [exact Hwf|]. split; [exact Hws|].
  unfold __init__ in Hinit.
  destruct (validate c) as [|[]]; [discriminate|]. cbn [bind] in Hinit.
  destruct (init_weights mem c) as [|[[a0 b0] w0]] eqn:Hw; [discriminate|].
  cbn [bind ret] in Hinit. inversion Hinit. clear Hinit.
  cbn [q k att hp reset_parameters].
  split; [apply refill2_keeps_shape, Tensor2_shape|].
  split; [apply refill2_keeps_shape, Tensor2_shape|].
  intros nb a Hb Ha. rewrite Hb in Ha. cbn [is_some] in Ha.
  unfold init_weights in Hw. rewrite Hb in Hw. inversion Hw. subst a0.
  cbn [option_map] in Ha. inversion Ha.
  apply refill2_keeps_shape, Tensor2_shape.
Qed.

(** The rows that [forward] returns for a layer with the constructor's
    shapes. *)
Lemma constructed_forward_rows mem draw c self x edge_index edge_type
      edge_attr raw keep r self' :
  __init__ mem draw c = inr self ->
  0 < in_channels c -> 0 < heads c * out_channels c -> 0 < dim c ->
  num_bases c <> Some 0 ->
  edge_lists_agree edge_index edge_type edge_attr ->
  (forall row, In row keep -> length row = heads c * dim c) ->
  forward self x edge_index edge_type edge_attr raw keep = (inr r, self') ->
  length (out_of r) = length (rows x) /\ rows_have (out_width c) (out_of r).
Proof.
  intros Hinit Hin Hho Hdim Hnb (Lst & Lt & La) Hkeep H.
  destruct (init_well_shaped _ _ _ Hinit Hho) as [Hc Hwf].
  destruct (init_shapes _ _ _ Hinit)
    as (_ & Hws & Hw & Hl2 & Hb2 & Hbias & Hv).
  subst c.
  assert (Hone : is_additive (hp self) = true -> dim (hp self) = 1).
  { intros Hadd. pose proof (validate_additive_dim_le _ Hv Hadd). lia. }
  assert (HO : 0 < out_channels (hp self)).
  { destruct (out_channels (hp self)) eqn:E; [|lia].
    rewrite Nat.mul_0_r in Hho. lia. }
  destruct (forward_inv _ _ _ _ _ _ _ H)
    as (xi & xj & msgs & alpha0 & Hj & Hi & Hm & _ & Hr).
  assert (Hout : out_of r = update self (aggregate self msgs (snd edge_index)
                                                  (length (rows x)))).
  { cbn zeta in Hr. rewrite Hr. now destruct raw. }
  rewrite Hout. split; [now rewrite update_length, aggregate_length|].
  apply message_inv in Hm as (outi & outj & ae & Ht & Hterm & _ & Hmsgs).
  destruct (fun L1 L2 L3 L4 =>
              @logits_shape self _ _ edge_type edge_attr outi outj ae
                (length (snd edge_index)) Hwf L1 L2 L3 L4 Ht Hterm)
    as [Hrows Hlen]; try assumption.
  { cbn [rows]. apply (index_select_length _ _ Hi). }
  { cbn [rows]. rewrite (index_select_length _ _ Hj). exact Lst. }
  pose proof Ht as Ht'.
  apply transform_rows in Ht' as [_ Hoj]; try assumption.
  apply update_rows; try assumption.
  - apply (proj1 Hwf).
  - apply aggregate_rows. rewrite Hmsgs.
    apply modulate_rows; try assumption.
    + apply (proj1 Hwf).
    + apply normalize_rows; try lia. exact Hrows.
    + now apply degree_head_rows.
Qed.

(** X16: a layer that the constructor returned (positive sizes, at least
    one basis if bases are used) gives every node an output row of
    [heads * dim * out_channels] entries with [concat=True] and of
    [dim * out_channels] entries with [concat=False], in both attention
    modes and for every modulation; the mask that dropout samples has the
    shape of the attention weights. *)
Theorem constructed_layer_output_width
        (mem draw : string -> list nat -> R) (c : config) (self : t)
        (x : features) (edge_index : edge_index_tensor)
        (edge_type : list nat) (edge_attr : option edge_attr_tensor)
        (raw : option bool) (keep : list (list bool))
        (r : forward_result) (self' : t) :
  __init__ mem draw c = inr self ->
  0 < in_channels c -> 0 < heads c * out_channels c -> 0 < dim c ->
  num_bases c <> Some 0 ->
  edge_lists_agree edge_index edge_type edge_attr ->
  (forall row, In row keep -> length row = heads c * dim c) ->
  forward self x edge_index edge_type edge_attr raw keep = (inr r, self') ->
  length (out_of r) = length (rows x) /\ rows_have (out_width c) (out_of r).
Proof.
  intros Hinit Hin Hho Hdim Hnb Hagree Hkeep H.
  eapply constructed_forward_rows; eassumption.
Qed.

Lemma constructed_layer_output_width_witness :
  exists self r self',
    __init__ mem0 mem0 (default_config 1 1 2) = inr self
    /\ forward self tiny_x tiny_edges tiny_types None None [] = (inr r, self')
    /\ length (out_of r) = 3 /\ rows_have 1 (out_of r).
Proof.
  assert (Hv : validate (default_config 1 1 2) = inr tt)
    by (run_validate; reflexivity).
  assert (Hi : exists self, __init__ mem0 mem0 (default_config 1 1 2)
                            = inr self).
  { unfold __init__. rewrite Hv. eexists. reflexivity. }
  destruct Hi as [self Hi]. exists self.
  assert (Hr : exists r, forward self tiny_x tiny_edges tiny_types None None []
                         = (inr r, set_alpha None self)).
  { destruct (init_well_shaped _ _ _ Hi) as [Hc (_ & _ & _ & _ & Hax)];
      [simpl; lia|].
    apply forward_returns.
    - eapply init_weights_present. exact Hi.
    - reflexivity.
    - repeat constructor.
    - repeat constructor.
    - rewrite Hax, Hc. repeat constructor.
    - now left. }
  destruct Hr as [r Hr]. exists r, (set_alpha None self).
  split; [exact Hi|]. split; [exact Hr|].
  apply (@constructed_layer_output_width mem0 mem0 (default_config 1 1 2)
           self tiny_x tiny_edges tiny_types None None [] r
           (set_alpha None self) Hi).
  - simpl. lia.
  - simpl. lia.
  - simpl. lia.
  - discriminate.
  - repeat split.
  - intros row [].
  - exact Hr.
Defined.


(** ** The model: construction *)

Lemma conv_config_valid in_c out_c n_rel blocks :
  validate (RGAT.conv_config in_c out_c n_rel blocks) = inr tt.
Proof. run_validate. reflexivity. Qed.

Lemma conv_init_dense mem draw in_c out_c n_rel :
  exists c,
    __init__ mem draw (RGAT.conv_config in_c out_c n_rel None) = inr c.
Proof.
  unfold __init__. rewrite conv_config_valid. cbn [bind].
  eexists. reflexivity.
Qed.

Lemma conv_init_blocked mem draw in_c out_c n_rel :
  (in_c mod 4 = 0 /\ out_c mod 4 = 0 ->
   exists c,
     __init__ mem draw (RGAT.conv_config in_c out_c n_rel (Some 4)) = inr c)
  /\ (~ (in_c mod 4 = 0 /\ out_c mod 4 = 0) ->
      __init__ mem draw (RGAT.conv_config in_c out_c n_rel (Some 4))
      = inl (AssertionError BlocksNotMultiple)).
Proof.
  unfold __init__. rewrite conv_config_valid. cbn [bind].
  unfold init_weights.
  cbn [RGAT.conv_config num_bases num_blocks heads out_channels in_channels].
  rewrite Nat.mul_1_l. cbn [Nat.eqb].
  split.
  - intros [Hi Ho]. rewrite Hi, Ho. cbn [Nat.eqb andb bind ret].
    eexists. reflexivity.
  - intros Hn.
    destruct (in_c mod 4 =? 0) eqn:Ei; [|reflexivity].
    destruct (out_c mod 4 =? 0) eqn:Eo; [|reflexivity].
    apply Nat.eqb_eq in Ei, Eo. tauto.
Qed.

Lemma rgat_init_inv mem draw a num_nodes num_edge_type m :
  RGAT.__init__ mem draw a num_nodes num_edge_type = inr m ->
  __init__ (mem "conv1"%string) (draw "conv1"%string)
           (RGAT.conv_config (RGAT.in_dim a) (RGAT.hidden_dim a)
                             (num_edge_type * 2)
                             (model_blocks num_edge_type))
  = inr (RGAT.conv1 m)
  /\ __init__ (mem "conv2"%string) (draw "conv2"%string)
              (RGAT.conv_config (RGAT.hidden_dim a) (RGAT.out_dim a)
                                (num_edge_type * 2)
                                (model_blocks num_edge_type))
     = inr (RGAT.conv2 m)
  /\ RGAT.node_emb m
     = Tensor2 (draw "node_emb"%string "weight"%string) num_nodes
               (RGAT.in_dim a)
  /\ RGAT.W m
     = refill2 (draw ""%string "W"%string)
               (Tensor2 (mem ""%string "W"%string) num_edge_type
                        (RGAT.out_dim a)).
Proof.
  unfold RGAT.__init__, model_blocks. cbn zeta.
  destruct (__init__ (mem "conv1"%string) _ _) as [|c1]; [discriminate|].
  cbn [bind].
  destruct (__init__ (mem "conv2"%string) _ _) as [|c2]; [discriminate|].
  cbn [bind ret]. intros H. inversion H. cbn. auto.
Qed.

Lemma rgat_init_of_layers mem draw a num_nodes num_edge_type c1 c2 :
  __init__ (mem "conv1"%string) (draw "conv1"%string)
           (RGAT.conv_config (RGAT.in_dim a) (RGAT.hidden_dim a)
                             (num_edge_type * 2)
                             (model_blocks num_edge_type))
  = inr c1 ->
  __init__ (mem "conv2"%string) (draw "conv2"%string)
           (RGAT.conv_config (RGAT.hidden_dim a) (RGAT.out_dim a)
                             (num_edge_type * 2)
                             (model_blocks num_edge_type))
  = inr c2 ->
  exists m, RGAT.__init__ mem draw a num_nodes num_edge_type = inr m.
Proof.
  unfold RGAT.__init__, model_blocks. cbn zeta. intros -> ->.
  cbn [bind ret]. eexists. reflexivity.
Qed.

(** X17: with positive sizes, a model for at most 20 edge types can always
    be built.  A model for more than 20 edge types uses four blocks in both
    layers, so its constructor succeeds exactly when [in_dim], [hidden_dim]
    and [out_dim] are all multiples of four, and fails on the assertion of
    rgat.py:128 otherwise. *)
Theorem rgat_init_needs_multiples_of_four
        (mem draw : string -> string -> list nat -> R) (a : RGAT.args)
        (num_nodes num_edge_type : nat) :
  0 < RGAT.in_dim a -> 0 < RGAT.hidden_dim a -> 0 < RGAT.out_dim a ->
  (num_edge_type <= 20 ->
   exists m, RGAT.__init__ mem draw a num_nodes num_edge_type = inr m)
  /\ (20 < num_edge_type ->
      RGAT.in_dim a mod 4 = 0 /\ RGAT.hidden_dim a mod 4 = 0
      /\ RGAT.out_dim a mod 4 = 0 ->
      exists m, RGAT.__init__ mem draw a num_nodes num_edge_type = inr m)
  /\ (20 < num_edge_type ->
      ~ (RGAT.in_dim a mod 4 = 0 /\ RGAT.hidden_dim a mod 4 = 0
         /\ RGAT.out_dim a mod 4 = 0) ->
      RGAT.__init__ mem draw a num_nodes num_edge_type
      = inl (AssertionError BlocksNotMultiple)).
Proof.
  intros _ _ _. split; [|split].
  - intros Hle.
    assert (Hb : model_blocks num_edge_type = None).
    { unfold model_blocks. destruct (20 <? num_edge_type) eqn:E; [|reflexivity].
      apply Nat.ltb_lt in E. lia. }
    destruct (conv_init_dense (mem "conv1"%string) (draw "conv1"%string)
                (RGAT.in_dim a) (RGAT.hidden_dim a) (num_edge_type * 2))
      as [c1 H1].
    destruct (conv_init_dense (mem "conv2"%string) (draw "conv2"%string)
                (RGAT.hidden_dim a) (RGAT.out_dim a) (num_edge_type * 2))
      as [c2 H2].
    apply rgat_init_of_layers with (c1 := c1) (c2 := c2);
      now rewrite Hb.
  - intros Hlt (Hi & Hh & Ho).
    assert (Hb : model_blocks num_edge_type = Some 4).
    { unfold model_blocks. apply Nat.ltb_lt in Hlt. now rewrite Hlt. }
    destruct (proj1 (conv_init_blocked (mem "conv1"%string)
                       (draw "conv1"%string) (RGAT.in_dim a)
                       (RGAT.hidden_dim a) (num_edge_type * 2)))
      as [c1 H1]; [now split|].
    destruct (proj1 (conv_init_blocked (mem "conv2"%string)
                       (draw "conv2"%string) (RGAT.hidden_dim a)
                       (RGAT.out_dim a) (num_edge_type * 2)))
      as [c2 H2]; [now split|].
    apply rgat_init_of_layers with (c1 := c1) (c2 := c2);
      now rewrite Hb.
  - intros Hlt Hn. unfold RGAT.__init__. cbn zeta.
    apply Nat.ltb_lt in Hlt. rewrite Hlt.
    destruct (Nat.eq_dec (RGAT.in_dim a mod 4) 0) as [Hi|Hi];
      [destruct (Nat.eq_dec (RGAT.hidden_dim a mod 4) 0) as [Hh|Hh]|].
    + destruct (proj1 (conv_init_blocked (mem "conv1"%string)
                         (draw "conv1"%string) (RGAT.in_dim a)
                         (RGAT.hidden_dim a) (num_edge_type * 2)))
        as [c1 H1]; [now split|].
      rewrite H1. cbn [bind].
      rewrite (proj2 (conv_init_blocked (mem "conv2"%string)
                        (draw "conv2"%string) (RGAT.hidden_dim a)
                        (RGAT.out_dim a) (num_edge_type * 2)));
        [reflexivity | tauto].
    + rewrite (proj2 (conv_init_blocked (mem "conv1"%string)
                        (draw "conv1"%string) (RGAT.in_dim a)
                        (RGAT.hidden_dim a) (num_edge_type * 2)));
        [reflexivity | tauto].
    + rewrite (proj2 (conv_init_blocked (mem "conv1"%string)
                        (draw "conv1"%string) (RGAT.in_dim a)
                        (RGAT.hidden_dim a) (num_edge_type * 2)));
        [reflexivity | tauto].
Qed.

Lemma rgat_init_needs_multiples_of_four_witness :
  (exists m, RGAT.__init__ mem1 mem1 uneven_args 3 20 = inr m)
  /\ (exists m, RGAT.__init__ mem1 mem1 even_args 3 21 = inr m)
  /\ RGAT.__init__ mem1 mem1 uneven_args 3 21
     = inl (AssertionError BlocksNotMultiple).
Proof.
  destruct (@rgat_init_needs_multiples_of_four mem1 mem1 uneven_args 3 20)
    as (H1 & _ & _); [simpl; lia | simpl; lia | simpl; lia |].
  destruct (@rgat_init_needs_multiples_of_four mem1 mem1 even_args 3 21)
    as (_ & H2 & _); [simpl; lia | simpl; lia | simpl; lia |].
  destruct (@rgat_init_needs_multiples_of_four mem1 mem1 uneven_args 3 21)
    as (_ & _ & H3); [simpl; lia | simpl; lia | simpl; lia |].
  split; [apply H1; lia|].
  split; [apply H2; [lia | repeat split]|].
  apply H3; [lia|]. simpl. intros (_ & H & _). discriminate.
Defined.

(** ** The model: encoding *)

Lemma set_alpha_None_id self : _alpha self = None -> set_alpha None self = self.
Proof. destruct self. cbn. now intros ->. Qed.

(** One layer call of the encoder: the layer is one that the model's
    constructor built, the call passes neither edge attributes nor
    [return_attention_weights]. *)
Lemma conv_call mem draw in_c out_c n_rel blocks c x edge edge_type keep :
  __init__ mem draw (RGAT.conv_config in_c out_c n_rel blocks) = inr c ->
  0 < in_c -> 0 < out_c ->
  x_dtype x = float ->
  edge_lists_agree edge edge_type None ->
  Forall (fun i => i < length (rows x)) (fst edge) ->
  Forall (fun i => i < length (rows x)) (snd edge) ->
  Forall (fun ty => ty < n_rel) edge_type ->
  exists out,
    forward c x edge edge_type None None keep = (inr (Out out), c)
    /\ length out = length (rows x) /\ rows_have out_c out.
Proof.
  intros Hinit Hin Hout Hx Hagree Hs Hd Hty.
  assert (Hho : 0 < heads (RGAT.conv_config in_c out_c n_rel blocks)
                    * out_channels (RGAT.conv_config in_c out_c n_rel blocks)).
  { cbn [RGAT.conv_config heads out_channels]. lia. }
  destruct (init_well_shaped _ _ _ Hinit Hho) as [Hc (_ & _ & _ & _ & Hax)].
  destruct (init_edge_projection _ _ _ Hinit) as (_ & Halpha & _).
  rewrite forward_mask_irrelevant with (keep' := @nil (list bool))
    by (right; right; rewrite Hc; cbn [RGAT.conv_config dropout]; lra).
  destruct (@forward_returns c x edge edge_type None None [])
    as [r Hr]; try assumption.
  { eapply init_weights_present. exact Hinit. }
  { rewrite Hax, Hc. exact Hty. }
  { now left. }
  rewrite set_alpha_None_id in Hr by exact Halpha.
  destruct (forward_out_inv _ _ _ _ _ _ _ Hr) as (msgs & alpha & Hres).
  exists (out_of r). split; [rewrite Hr, Hres; reflexivity|].
  pose proof (@constructed_forward_rows _ _ _ _ x edge edge_type None None []
                r c Hinit) as Hrows.
  cbn [RGAT.conv_config in_channels heads out_channels dim num_bases]
    in Hrows.
  unfold out_width in Hrows. cbn [RGAT.conv_config concat heads dim
                                   out_channels] in Hrows.
  rewrite !Nat.mul_1_l in Hrows.
  apply Hrows; try assumption; try lia.
  - discriminate.
  - intros row [].
Qed.

Lemma set_convs_id (m : RGAT.t) :
  RGAT.set_convs (RGAT.conv1 m) (RGAT.conv2 m) m = m.
Proof. now destruct m. Qed.

(** The two layer calls of the encoder on a model that the constructor
    built. *)
Lemma encoder_calls mem draw a num_nodes num_edge_type m x edge edge_type
      b keep1 keep2 :
  RGAT.__init__ mem draw a num_nodes num_edge_type = inr m ->
  0 < RGAT.in_dim a -> 0 < RGAT.hidden_dim a -> 0 < RGAT.out_dim a ->
  Forall (fun i => i < num_nodes) x ->
  edge_lists_agree edge edge_type None ->
  Forall (fun i => i < length x) (fst edge) ->
  Forall (fun i => i < length x) (snd edge) ->
  Forall (fun ty => ty < 2 * num_edge_type) edge_type ->
  exists emb x1 x2,
    index_select (RGAT.node_emb m) x = inr emb
    /\ forward (RGAT.conv1 m) {| x_dtype := float; rows := emb |}
               edge edge_type None None keep1
       = (inr (Out x1), RGAT.conv1 m)
    /\ forward (RGAT.conv2 m)
               {| x_dtype := float; rows := map (map relu) x1 |}
               edge edge_type None None keep2
       = (inr (Out x2), RGAT.conv2 m)
    /\ RGAT.forward m x edge edge_type b keep1 keep2
       = (inr (if b then RGAT.AllEmb x1 x2 else RGAT.Emb x2), m)
    /\ shape2 (length x) (RGAT.hidden_dim a) x1
    /\ shape2 (length x) (RGAT.out_dim a) x2.
Proof.
  intros Hinit Hin Hhid Hout Hx Hagree Hs Hd Hty.
  destruct (rgat_init_inv _ _ _ _ _ Hinit) as (H1 & H2 & Hemb & _).
  assert (Hsel : index_select (RGAT.node_emb m) x
                 = inr (map (fun i => nth i (RGAT.node_emb m) []) x)).
  { apply index_select_in_range. rewrite Hemb.
    rewrite (proj1 (Tensor2_shape _ _ _)). exact Hx. }
  assert (Hty' : Forall (fun ty => ty < num_edge_type * 2) edge_type).
  { eapply Forall_impl; [|exact Hty]. cbn beta. intros; lia. }
  destruct (@conv_call _ _ _ _ _ _ (RGAT.conv1 m)
              {| x_dtype := float;
                 rows := map (fun i => nth i (RGAT.node_emb m) []) x |}
              edge edge_type keep1 H1)
    as (x1 & Hc1 & Hl1 & Hr1); try assumption;
    try (cbn [rows]; now rewrite length_map); try reflexivity.
  cbn [rows] in Hl1. rewrite length_map in Hl1.
  destruct (@conv_call _ _ _ _ _ _ (RGAT.conv2 m)
              {| x_dtype := float; rows := map (map relu) x1 |}
              edge edge_type keep2 H2)
    as (x2 & Hc2 & Hl2 & Hr2); try assumption;
    try (cbn [rows]; now rewrite length_map, Hl1); try reflexivity.
  cbn [rows] in Hl2. rewrite length_map, Hl1 in Hl2.
  exists (map (fun i => nth i (RGAT.node_emb m) []) x), x1, x2.
  split; [exact Hsel|]. split; [exact Hc1|]. split; [exact Hc2|].
  split; [|split; split; assumption].
  unfold RGAT.forward. rewrite Hsel, Hc1. cbn [RGAT.node_tensor ret].
  rewrite Hc2. cbn [RGAT.node_tensor ret].
  rewrite set_convs_id. now destruct b.
Qed.

(** X18: on a model that the constructor built (positive sizes), the
    encoder does not fail on node numbers below [num_nodes], edges between
    positions of [x] and relation numbers below [2 * num_edge_type]: it
    returns one embedding of [out_dim] entries per entry of [x] (and, with
    [return_all_emb], the first layer's output of [hidden_dim] entries per
    node before the ReLU), and it leaves the model as it was. *)
Theorem encoder_returns_embeddings
        (mem draw : string -> string -> list nat -> R) (a : RGAT.args)
        (num_nodes num_edge_type : nat) (m : RGAT.t) (x : list nat)
        (edge : edge_index_tensor) (edge_type : list nat) (b : bool)
        (keep1 keep2 : list (list bool)) :
  RGAT.__init__ mem draw a num_nodes num_edge_type = inr m ->
  0 < RGAT.in_dim a -> 0 < RGAT.hidden_dim a -> 0 < RGAT.out_dim a ->
  Forall (fun i => i < num_nodes) x ->
  edge_lists_agree edge edge_type None ->
  Forall (fun i => i < length x) (fst edge) ->
  Forall (fun i => i < length x) (snd edge) ->
  Forall (fun ty => ty < 2 * num_edge_type) edge_type ->
  exists x1 x2,
    RGAT.forward m x edge edge_type b keep1 keep2
    = (inr (if b then RGAT.AllEmb x1 x2 else RGAT.Emb x2), m)
    /\ shape2 (length x) (RGAT.hidden_dim a) x1
    /\ shape2 (length x) (RGAT.out_dim a) x2.
Proof.
  intros Hinit Hin Hhid Hout Hx Hagree Hs Hd Hty.
  destruct (@encoder_calls mem draw a num_nodes num_edge_type m x edge
              edge_type b keep1 keep2)
    as (emb & x1 & x2 & _ & _ & _ & Hf & Hs1 & Hs2); try assumption.
  exists x1, x2. auto.
Qed.

Lemma even_model_builds :
  exists m, RGAT.__init__ mem1 mem1 even_args 3 21 = inr m.
Proof.
  destruct (proj1 (conv_init_blocked (mem1 "conv1"%string)
                     (mem1 "conv1"%string) 4 8 (21 * 2)))
    as [c1 H1]; [now split|].
  destruct (proj1 (conv_init_blocked (mem1 "conv2"%string)
                     (mem1 "conv2"%string) 8 4 (21 * 2)))
    as [c2 H2]; [now split|].
  apply rgat_init_of_layers with (c1 := c1) (c2 := c2); assumption.
Qed.

Lemma encoder_returns_embeddings_witness :
  exists m x1 x2,
    RGAT.__init__ mem1 mem1 even_args 3 21 = inr m
    /\ RGAT.forward m [0; 1; 2] tiny_edges [0; 25] false [] []
       = (inr (RGAT.Emb x2), m)
    /\ shape2 3 8 x1 /\ shape2 3 4 x2.
Proof.
  destruct even_model_builds as [m Hm]. exists m.
  destruct (@encoder_returns_embeddings mem1 mem1 even_args 3 21 m
              [0; 1; 2] tiny_edges [0; 25] false [] [] Hm)
    as (x1 & x2 & Hf & H1 & H2).
  - simpl. lia.
  - simpl. lia.
  - simpl. lia.
  - repeat constructor.
  - repeat split.
  - repeat constructor.
  - repeat constructor.
  - repeat constructor.
  - exists x1, x2. split; [exact Hm|]. split; [exact Hf|]. split; assumption.
Defined.

(** ** The model: the order of the edges *)

(** One layer call on reordered edges. *)
Lemma forward_permute self x edge_index edge_type edge_attr raw keep p r
      self' :
  is_permutation p (length (snd edge_index)) ->
  is_additive (hp self) || is_multiplicative (hp self) = true ->
  edge_lists_agree edge_index edge_type edge_attr ->
  length keep = length (snd edge_index) ->
  forward self x edge_index edge_type edge_attr raw keep = (inr r, self') ->
  forward self x (permute_edges p edge_index) (permute p edge_type)
          (permute_attr p edge_attr) raw (permute p keep)
  = (inr (permute_result p r), self').
Proof.
  intros Hp Hmode (Lst & Lt & La) Lk H.
  destruct (forward_inv _ _ _ _ _ _ _ H)
    as (xi & xj & msgs & alpha & Hj & Hi & Hm & -> & ->).
  pose proof Hi as Lxi. apply index_select_length in Lxi.
  pose proof Hj as Lxj. apply index_select_length in Lxj.
  pose proof Hm as Hm'.
  apply message_permute with (p := p) (E := length (snd edge_index)) in Hm';
    try assumption; try reflexivity; [|cbn [rows]; lia].
  destruct Hm' as [Hm' Lm].
  unfold forward, propagate. cbn [permute_edges fst snd].
  rewrite index_select_permute with (l := xj) by assumption.
  rewrite index_select_permute with (l := xi) by assumption.
  change {| x_dtype := x_dtype x; rows := permute p xi |}
    with (permute_features p {| x_dtype := x_dtype x; rows := xi |}).
  change {| x_dtype := x_dtype x; rows := permute p xj |}
    with (permute_features p {| x_dtype := x_dtype x; rows := xj |}).
  rewrite Hm'. cbn [_alpha set_alpha].
  change (aggregate (set_alpha ?a self)) with (aggregate self).
  change (update (set_alpha ?a self)) with (update self).
  rewrite aggregate_permute; [| lia | now rewrite Lm].
  destruct raw; reflexivity.
Qed.

Lemma node_tensor_permute p r :
  RGAT.node_tensor (permute_result p r) = RGAT.node_tensor r.
Proof. now destruct r. Qed.

(** X19: the encoder does not depend on the order of the edges.  When the
    columns of [edge], the rows of [edge_type] and the two dropout masks
    are reordered by one permutation of the edges, a call that returned
    returns the same embeddings (exactly, over the reals) and leaves the
    same model. *)
Theorem encoder_permutation_invariant
        (m : RGAT.t) (x : list nat) (edge : edge_index_tensor)
        (edge_type : list nat) (b : bool) (keep1 keep2 : list (list bool))
        (p : list nat) (r : RGAT.encode_result) (m' : RGAT.t) :
  is_permutation p (length (snd edge)) ->
  is_additive (hp (RGAT.conv1 m)) || is_multiplicative (hp (RGAT.conv1 m))
  = true ->
  is_additive (hp (RGAT.conv2 m)) || is_multiplicative (hp (RGAT.conv2 m))
  = true ->
  edge_lists_agree edge edge_type None ->
  length keep1 = length (snd edge) -> length keep2 = length (snd edge) ->
  RGAT.forward m x edge edge_type b keep1 keep2 = (inr r, m') ->
  RGAT.forward m x (permute_edges p edge) (permute p edge_type) b
               (permute p keep1) (permute p keep2)
  = (inr r, m').
Proof.
  intros Hp Hm1 Hm2 Hagree Lk1 Lk2. unfold RGAT.forward.
  destruct (index_select (RGAT.node_emb m) x) as [|emb]; [discriminate|].
  destruct (forward (RGAT.conv1 m) _ edge edge_type None None keep1)
    as [[err|r1] c1] eqn:H1; [discriminate|].
  apply forward_permute with (p := p) in H1; try assumption.
  cbn [permute_attr] in H1. rewrite H1, node_tensor_permute.
  destruct (RGAT.node_tensor r1) as [|x1]; [discriminate|].
  destruct (forward (RGAT.conv2 m) _ edge edge_type None None keep2)
    as [[err|r2] c2] eqn:H2; [discriminate|].
  apply forward_permute with (p := p) in H2; try assumption.
  cbn [permute_attr] in H2. rewrite H2, node_tensor_permute.
  destruct (RGAT.node_tensor r2) as [|x2]; [discriminate|].
  auto.
Qed.

Lemma encoder_permutation_invariant_witness :
  exists r m',
    RGAT.forward tiny_model [0; 1; 2] tiny_edges tiny_types false
                 full_mask full_mask
    = (inr r, m')
    /\ RGAT.forward tiny_model [0; 1; 2] (permute_edges [1; 0] tiny_edges)
                    (permute [1; 0] tiny_types) false
                    (permute [1; 0] full_mask) (permute [1; 0] full_mask)
       = (inr r, m').
Proof.
  assert (H : exists r m',
             RGAT.forward tiny_model [0; 1; 2] tiny_edges tiny_types false
                          full_mask full_mask
             = (inr r, m')).
  { eexists. eexists. reflexivity. }
  destruct H as (r & m' & H). exists r, m'. split; [exact H|].
  apply (@encoder_permutation_invariant tiny_model [0; 1; 2] tiny_edges
           tiny_types false full_mask full_mask [1; 0] r m').
  - apply perm_swap.
  - reflexivity.
  - reflexivity.
  - repeat split.
  - reflexivity.
  - reflexivity.
  - exact H.
Defined.

(** ** The decoder *)

Lemma vmul3_swap (a b c : vector) :
  vmul (vmul a b) c = vmul (vmul c b) a.
Proof.
  unfold vmul, map2. revert b c.
  induction a as [|x a IH]; intros [|y b] [|z c]; try reflexivity.
  cbn [combine map fst snd]. rewrite IH. f_equal. ring.
Qed.

Lemma mmul3_swap (a b c : matrix) :
  mmul (mmul a b) c = mmul (mmul c b) a.
Proof.
  unfold mmul, map2. revert b c.
  induction a as [|x a IH]; intros [|y b] [|z c]; try reflexivity.
  cbn [combine map fst snd]. rewrite IH. f_equal. apply vmul3_swap.
Qed.

(** X20: the decoder is symmetric in head and tail (exactly, over the
    reals): exchanging the two rows of [edge_index] gives the same scores,
    and the same error when an index is out of range. *)
Theorem decode_symmetric
        (self : RGAT.t) (z : matrix) (heads_ tails_ : list nat)
        (edge_type : list nat) :
  RGAT.decode self z (heads_, tails_) edge_type
  = RGAT.decode self z (tails_, heads_) edge_type.
Proof.
  unfold RGAT.decode. cbn [fst snd].
  destruct (index_select z heads_) as [e1|h] eqn:Hh;
    destruct (index_select z tails_) as [e2|tl] eqn:Ht; cbn [bind].
  - apply index_select_raises_IndexError in Hh, Ht. now subst.
  - apply index_select_raises_IndexError in Hh. subst e1.
    destruct (index_select (RGAT.W self) edge_type) as [e3|r] eqn:Hr;
      cbn [bind]; reflexivity.
  - apply index_select_raises_IndexError in Ht. subst e2.
    destruct (index_select (RGAT.W self) edge_type) as [e3|r] eqn:Hr;
      cbn [bind]; reflexivity.
  - destruct (index_select (RGAT.W self) edge_type) as [e3|r];
      cbn [bind ret]; [reflexivity|].
    now rewrite mmul3_swap.
Qed.

Lemma not_Forall_lt_Exists_ge (n : nat) (l : list nat) :
  ~ Forall (fun i => i < n) l -> Exists (fun i => n <= i) l.
Proof.
  intros H. apply Exists_exists.
  apply neg_Forall_Exists_neg in H.
  - apply Exists_exists in H as [i [Hin Hi]]. exists i. split; [exact Hin|lia].
  - intros i. apply lt_dec.
Qed.

Lemma decode_raises_IndexError (self : RGAT.t) (z : matrix)
      (edge_index : edge_index_tensor) (edge_type : list nat) err :
  RGAT.decode self z edge_index edge_type = inl err -> err = IndexError.
Proof.
  unfold RGAT.decode.
  destruct (index_select z (fst edge_index)) as [e1|h] eqn:Hh; cbn [bind].
  { intros H. inversion H. subst. eapply index_select_raises_IndexError.
    exact Hh. }
  destruct (index_select z (snd edge_index)) as [e2|tl] eqn:Ht; cbn [bind].
  { intros H. inversion H. subst. eapply index_select_raises_IndexError.
    exact Ht. }
  destruct (index_select (RGAT.W self) edge_type) as [e3|r] eqn:Hr;
    cbn [bind ret]; [|discriminate].
  intros H. inversion H. subst. eapply index_select_raises_IndexError.
  exact Hr.
Qed.

(** X21: the decoder of a model that the constructor built knows
    [num_edge_type] relations, half of the [2 * num_edge_type] that its
    layers are built for.  On embeddings of [out_dim] entries and node
    numbers in range it returns one score per triple when every relation
    number is below [num_edge_type], and raises [IndexError] as soon as
    one is not. *)
Theorem decode_knows_num_edge_type_relations
        (mem draw : string -> string -> list nat -> R) (a : RGAT.args)
        (num_nodes num_edge_type : nat) (m : RGAT.t) (z : matrix)
        (edge_index : edge_index_tensor) (edge_type : list nat) :
  RGAT.__init__ mem draw a num_nodes num_edge_type = inr m ->
  rows_have (RGAT.out_dim a) z ->
  edge_lists_agree edge_index edge_type None ->
  Forall (fun i => i < length z) (fst edge_index) ->
  Forall (fun i => i < length z) (snd edge_index) ->
  num_relations (hp (RGAT.conv1 m)) = 2 * num_edge_type
  /\ num_relations (hp (RGAT.conv2 m)) = 2 * num_edge_type
  /\ (Forall (fun ty => ty < num_edge_type) edge_type ->
      exists logits,
        RGAT.decode m z edge_index edge_type = inr logits
        /\ length logits = length edge_type)
  /\ (~ Forall (fun ty => ty < num_edge_type) edge_type ->
      RGAT.decode m z edge_index edge_type = inl IndexError).
Proof.
  intros Hinit _ (Lst & Lt & _) Hs Hd.
  destruct (rgat_init_inv _ _ _ _ _ Hinit) as (H1 & H2 & _ & HW).
  assert (LW : length (RGAT.W m) = num_edge_type).
  { rewrite HW, refill2_length. apply Tensor2_shape. }
  split; [|split; [|split]].
  - destruct (init_shapes _ _ _ H1) as (-> & _). cbn. lia.
  - destruct (init_shapes _ _ _ H2) as (-> & _). cbn. lia.
  - intros Hty. unfold RGAT.decode.
    rewrite !index_select_in_range with (d := @nil R);
      try assumption; [|now rewrite LW].
    cbn [bind ret]. eexists. split; [reflexivity|].
    unfold mmul. rewrite length_map, !map2_length, !length_map. lia.
  - intros Hty. apply not_Forall_lt_Exists_ge in Hty.
    rewrite <- LW in Hty.
    apply index_select_out_of_range in Hty.
    destruct (RGAT.decode m z edge_index edge_type) as [err|l] eqn:Hdec.
    + f_equal. eapply decode_raises_IndexError. exact Hdec.
    + unfold RGAT.decode in Hdec. rewrite Hty in Hdec.
      destruct (index_select z (fst edge_index)); [discriminate|].
      destruct (index_select z (snd edge_index)); discriminate.
Qed.

Lemma decode_knows_num_edge_type_relations_witness :
  exists m,
    RGAT.__init__ mem1 mem1 even_args 3 21 = inr m
    /\ num_relations (hp (RGAT.conv1 m)) = 42
    /\ (exists logits,
          RGAT.decode m (repeat (repeat 1%R 4) 3) tiny_edges [0; 20]
          = inr logits
          /\ length logits = 2)
    /\ RGAT.decode m (repeat (repeat 1%R 4) 3) tiny_edges [0; 21]
       = inl IndexError.
Proof.
  destruct even_model_builds as [m Hm]. exists m.
  assert (Hz : rows_have (RGAT.out_dim even_args) (repeat (repeat 1%R 4) 3)).
  { intros row Hin. apply repeat_spec in Hin. now subst. }
  destruct (@decode_knows_num_edge_type_relations mem1 mem1 even_args 3 21 m
              (repeat (repeat 1%R 4) 3) tiny_edges [0; 20] Hm Hz)
    as (Hn & _ & Hok & _).
  - repeat split.
  - simpl. repeat constructor.
  - simpl. repeat constructor.
  - destruct (@decode_knows_num_edge_type_relations mem1 mem1 even_args 3 21
                m (repeat (repeat 1%R 4) 3) tiny_edges [0; 21] Hm Hz)
      as (_ & _ & _ & Hbad).
    + repeat split.
    + simpl. repeat constructor.
    + simpl. repeat constructor.
    + split; [exact Hm|]. split; [exact Hn|]. split.
      * apply Hok. repeat constructor.
      * apply Hbad. intros H. inversion H as [|? ? _ H']. subst.
        inversion H' as [|? ? Hlt _]. lia.
Defined.


(** ** Locality: the edges into other nodes *)

Lemma filter_permute {A : Type} (f : A -> bool) (p : list nat) (l : list A) :
  filter f (permute p l)
  = permute (filter (fun n => match nth_error l n with
                              | Some a => f a
                              | None => false
                              end) p) l.
Proof.
  induction p as [|n p IH]; [reflexivity|].
  rewrite permute_cons, filter_app, IH. cbn [filter].
  destruct (nth_error l n) as [a|] eqn:Hn.
  - cbn [filter]. destruct (f a).
    + rewrite permute_cons, Hn. reflexivity.
    + reflexivity.
  - reflexivity.
Qed.

Lemma permute_Permutation {A : Type} (p p' : list nat) (l : list A) :
  Permutation p p' -> Permutation (permute p l) (permute p' l).
Proof. intros H. unfold permute. now apply flat_map_perm. Qed.

Lemma In_permute {A : Type} (p : list nat) (l : list A) (a : A) :
  In a (permute p l) <-> exists n, In n p /\ nth_error l n = Some a.
Proof.
  unfold permute. rewrite in_flat_map. split.
  - intros (n & Hn & Ha). exists n. split; [exact Hn|].
    destruct (nth_error l n); [|contradiction].
    destruct Ha as [->|[]]. reflexivity.
  - intros (n & Hn & Ha). exists n. split; [exact Hn|].
    rewrite Ha. now left.
Qed.

Section Selection.
Variable K : Type.
Variable keq : K -> K -> bool.
Variable p : list nat.
Variable keys : list K.
Hypothesis Hsel : whole_groups keq p keys.

(** The group of a selected edge is the same in the selection. *)
Lemma group_select {A : Type} (key : K) (l : list A) :
  length keys = length l -> In key (permute p keys) ->
  Permutation (group keq (permute p keys) key (permute p l))
              (group keq keys key l).
Proof.
  intros Hl Hkey. destruct Hsel as [Hnd Hcl].
  apply In_permute in Hkey as (n0 & Hn0 & Hk0).
  unfold group. rewrite <- permute_combine by assumption.
  apply Permutation_map. rewrite filter_permute.
  rewrite <- (permute_identity (combine keys l)) at 2.
  rewrite filter_permute.
  apply permute_Permutation. apply NoDup_Permutation.
  - now apply NoDup_filter.
  - apply NoDup_filter, seq_NoDup.
  - intros n. rewrite !filter_In, in_seq.
    rewrite nth_error_combine_eq.
    split.
    + intros [Hn Hf]. split; [|exact Hf]. split; [lia|].
      destruct (nth_error keys n) eqn:Hkn; [|discriminate].
      assert (n < length keys) by (apply nth_error_Some; congruence).
      rewrite length_combine. simpl. lia.
    + intros [Hn Hf]. split; [|exact Hf].
      destruct (nth_error keys n) as [b|] eqn:Hkn; [|discriminate].
      destruct (nth_error l n); [|discriminate]. cbn [fst] in Hf.
      eapply Hcl; eassumption.
Qed.

(** The grouped softmax of the selected edges. *)
Lemma grouped_softmax_select (src : matrix) :
  length src = length keys ->
  grouped_softmax keq (permute p src) (permute p keys)
  = permute p (grouped_softmax keq src keys).
Proof.
  intros Hl. unfold grouped_softmax.
  rewrite permute_map2 by assumption.
  unfold map2. apply map_ext_in. intros [row key] Hin. cbn [fst snd].
  apply in_combine_r in Hin.
  apply map_ext. intros c. cbn zeta.
  assert (Hg : Permutation (group keq (permute p keys) key
                                  (col c (permute p src)))
                           (group keq keys key (col c src))).
  { rewrite col_permute. apply group_select; [|exact Hin].
    unfold col. rewrite length_map. lia. }
  rewrite (seg_max_perm Hg).
  now rewrite (Rsum_perm (Permutation_map
                            (fun b => exp (b - seg_max (group keq keys key
                                                          (col c src))))
                            Hg)).
Qed.

End Selection.

Lemma whole_groups_pairs (p : list nat) (edge_type index : list nat) :
  whole_groups Nat.eqb p index ->
  whole_groups pair_eqb p (combine edge_type index).
Proof.
  intros [Hnd Hcl]. split; [exact Hnd|].
  intros n n' [ty i] [ty' i'] Hn Ha Hb Heq.
  rewrite nth_error_combine_eq in Ha, Hb.
  destruct (nth_error edge_type n); [|discriminate].
  destruct (nth_error index n) as [i0|] eqn:Hi; [|discriminate].
  destruct (nth_error edge_type n'); [|discriminate].
  destruct (nth_error index n') as [i1|] eqn:Hi'; [|discriminate].
  inversion Ha. inversion Hb. subst.
  unfold pair_eqb in Heq. cbn [fst snd] in Heq.
  apply andb_prop in Heq as [_ Heq].
  eapply Hcl; eassumption.
Qed.

Lemma normalize_select self (p : list nat) (alpha : matrix)
      (edge_type index : list nat) (size_i : nat) :
  whole_groups Nat.eqb p index ->
  Forall (fun n => n < length alpha) p ->
  length edge_type = length alpha -> length index = length alpha ->
  normalize self (permute p alpha) (permute p edge_type) (permute p index)
            size_i
  = permute p (normalize self alpha edge_type index size_i).
Proof.
  intros Hsel Hp Lt Li. unfold normalize.
  assert (Lp : forall (A : Type) (l : list A),
             length l = length alpha -> length (permute p l) = length p).
  { intros A l Hl. apply permute_length_bound. now rewrite Hl. }
  destruct (String.eqb (attention_mechanism (hp self)) "within-relation").
  - rewrite !within_relation_closed;
      rewrite ?Lp; try reflexivity; try assumption.
    rewrite <- permute_combine by lia.
    rewrite grouped_softmax_select.
    + unfold zeros_like. rewrite <- permute_map.
      apply written_below_permute.
      * rewrite grouped_softmax_length, length_combine. lia.
      * rewrite length_map. lia.
    + now apply whole_groups_pairs.
    + rewrite length_combine. lia.
  - destruct (String.eqb (attention_mechanism (hp self)) "across-relation");
      [|reflexivity].
    unfold softmax. apply grouped_softmax_select; [assumption | lia].
Qed.

Lemma degree_of_select (p : list nat) (index : list nat) (size_i : nat) :
  whole_groups Nat.eqb p index ->
  degree_of (permute p index) size_i = permute p (degree_of index size_i).
Proof.
  intros Hsel. unfold degree_of. cbn zeta. rewrite permute_map.
  apply map_ext_in. intros i Hi. unfold scatter_add.
  destruct (Nat.lt_ge_cases i size_i) as [Hlt|Hge].
  - rewrite !nth_map_seq by assumption. apply Rsum_perm.
    rewrite <- permute_map. apply group_select; try assumption.
    now rewrite length_map.
  - rewrite !nth_overflow; try reflexivity;
      now rewrite length_map, length_seq.
Qed.

Lemma degree_head_select self (p : list nat) (index : list nat)
      (size_i : nat) :
  whole_groups Nat.eqb p index ->
  degree_head self (permute p index) size_i
  = permute p (degree_head self index size_i).
Proof.
  intros Hsel. unfold degree_head. cbn zeta.
  rewrite degree_of_select by assumption.
  unfold matmul. now rewrite <- !permute_map.
Qed.

Lemma modulate_select self (p : list nat) (alpha outj : matrix)
      (index : list nat) (size_i : nat) (keep : list (list bool)) E :
  whole_groups Nat.eqb p index ->
  length alpha = E -> length outj = E -> length index = E -> length keep = E ->
  modulate self (permute p alpha) (permute p outj) (permute p index) size_i
           (permute p keep)
  = permute p (modulate self alpha outj index size_i keep).
Proof.
  intros Hsel La Lo Li Lk. unfold modulate. cbn zeta.
  repeat match goal with
         | |- context [if ?b then _ else _] => destruct b
         end;
    rewrite ?degree_head_select by assumption;
    unfold ones_like, f_additive, f_scaled, F_dropout;
    rewrite ?degree_of_select by assumption;
    rewrite <- ?permute_map;
    rewrite <- ?permute_combine
      by (rewrite ?length_map, ?degree_head_length; lia);
    rewrite <- ?permute_map2
      by (rewrite ?length_map, ?degree_of_length; lia);
    rewrite ?weighted_permute
      by (rewrite ?length_map, ?map2_length, ?degree_of_length; lia);
    rewrite <- ?permute_map2
      by (rewrite ?length_combine, ?length_map, ?degree_head_length; lia);
    reflexivity.
Qed.

Lemma transform_select self (p : list nat) x_i x_j edge_type outi outj E :
  length (rows x_i) = E -> length (rows x_j) = E -> length edge_type = E ->
  transform self x_i x_j edge_type = inr (outi, outj) ->
  transform self (permute_features p x_i) (permute_features p x_j)
            (permute p edge_type)
  = inr (permute p outi, permute p outj).
Proof.
  intros Li Lj Lt. unfold transform.
  destruct (basis_weight self) as [|wb]; [discriminate|]. cbn [bind].
  change (is_long (permute_features p x_i)) with (is_long x_i).
  change (is_long (permute_features p x_j)) with (is_long x_j).
  destruct (num_blocks (hp self)).
  - destruct (is_long x_i && is_long x_j); [discriminate|].
    destruct (weight self) as [[wt|wt]|]; try discriminate.
    destruct (index_select wt edge_type) as [|we] eqn:Hw; [discriminate|].
    rewrite (index_select_permute p _ _ Hw). cbn [bind ret].
    intros H. inversion H. clear H. cbn [permute_features rows].
    pose proof (index_select_length _ _ Hw) as Lw.
    unfold einsum_abcd_acde_ace.
    rewrite <- !permute_map, <- !permute_map2, <- !permute_map;
      rewrite ?length_map; try lia.
    reflexivity.
  - destruct (match wb with Some wt => ret wt | None => _ end) as [|wt];
      [discriminate|]. cbn [bind].
    destruct (index_select wt edge_type) as [|we] eqn:Hw; [discriminate|].
    rewrite (index_select_permute p _ _ Hw). cbn [bind ret].
    destruct (is_long x_i || is_long x_j); [discriminate|].
    intros H. inversion H. clear H. cbn [permute_features rows].
    pose proof (index_select_length _ _ Hw) as Lw.
    rewrite <- !permute_map2 by lia. reflexivity.
Qed.

(** [message] on a selection of whole groups of edges returns the
    messages and the attention weights of the selected edges. *)
Lemma message_select self (p : list nat) x_i x_j edge_type edge_attr index
      size_i keep msgs alpha E :
  whole_groups Nat.eqb p index ->
  Forall (fun n => n < E) p ->
  is_additive (hp self) || is_multiplicative (hp self) = true ->
  length (rows x_i) = E -> length (rows x_j) = E -> length edge_type = E ->
  length index = E -> length keep = E ->
  match edge_attr with
  | None => True
  | Some (Attr1 v) => length v = E
  | Some (Attr2 m) => length m = E
  end ->
  message self x_i x_j edge_type edge_attr index size_i keep
  = (inr msgs, set_alpha (Some alpha) self) ->
  message self (permute_features p x_i) (permute_features p x_j)
          (permute p edge_type) (permute_attr p edge_attr) (permute p index)
          size_i (permute p keep)
  = (inr (permute p msgs), set_alpha (Some (permute p alpha)) self)
  /\ length msgs = E.
Proof.
  intros Hsel Hp Hmode Lxi Lxj Lt Li Lk La H.
  apply message_inv in H as (outi & outj & ae & Ht & Hterm & Hs & ->).
  apply (f_equal _alpha) in Hs. cbn [_alpha set_alpha] in Hs.
  inversion Hs as [Halpha]. clear Hs.
  pose proof Ht as Ht2. apply transform_length in Ht2 as [Loi Loj].
  pose proof Hterm as Lae. apply edge_term_length with (E := E) in Lae;
    [|exact La].
  assert (Lscore : length (score self (matmul outi (q self))
                                 (matmul outj (k self)) ae) = E).
  { apply score_length; rewrite ?matmul_length; try assumption; lia. }
  assert (Lnorm : length (normalize self
                            (score self (matmul outi (q self))
                                   (matmul outj (k self)) ae)
                            edge_type index size_i) = E).
  { rewrite normalize_length; lia. }
  split.
  - unfold message.
    rewrite transform_select with (outi := outi) (outj := outj) (E := E)
      by assumption.
    rewrite edge_term_permute with (alpha_edge := ae) by assumption.
    change (modulate (set_alpha ?a self)) with (modulate self).
    rewrite !matmul_permute.
    rewrite score_permute with (E := E);
      rewrite ?matmul_length; try assumption; try lia.
    rewrite normalize_select; try lia; try assumption;
      [|now rewrite Lscore].
    rewrite modulate_select with (E := E); try assumption; try lia.
    reflexivity.
  - apply modulate_length; try assumption; lia.
Qed.

Lemma nth_map_same {A B : Type} (f : A -> B) (l l' : list A) (i : nat)
      (da : A) (db : B) :
  length l = length l' -> nth i l da = nth i l' da ->
  nth i (map f l) db = nth i (map f l') db.
Proof.
  intros Hl Hn. destruct (Nat.lt_ge_cases i (length l)) as [Hi|Hi].
  - rewrite !nth_map_lt with (da := da) by lia. now rewrite Hn.
  - rewrite !nth_overflow; try reflexivity; rewrite length_map; lia.
Qed.

(** [update] works row by row. *)
Lemma update_nth self (m m' : matrix) (i : nat) :
  length m = length m' -> nth i m [] = nth i m' [] ->
  nth i (update self m) [] = nth i (update self m') [].
Proof.
  intros Hl Hn. unfold update. cbn zeta.
  assert (Hb : forall a a' : matrix,
             length a = length a' -> nth i a [] = nth i a' [] ->
             nth i match bias self with
                   | Some b => map (fun r => vadd r b) a
                   | None => a
                   end []
             = nth i match bias self with
                     | Some b => map (fun r => vadd r b) a'
                     | None => a'
                     end []).
  { intros a a' Ha Hna. destruct (bias self); [|exact Hna].
    now apply nth_map_same with (da := @nil R). }
  destruct (is_additive (hp self)), (concat (hp self)); apply Hb;
    rewrite ?length_map; try assumption;
    now apply nth_map_same with (da := @nil R).
Qed.

Lemma group_empty_select {K A : Type} (keq : K -> K -> bool)
      (p : list nat) (keys : list K) (key : K) (l : list A) :
  length keys = length l ->
  (forall k0, In k0 keys -> keq k0 key = false) ->
  group keq (permute p keys) key (permute p l) = []
  /\ group keq keys key l = [].
Proof.
  intros Hl Hno.
  assert (H : forall (ks : list K) (l0 : list A),
             (forall k0, In k0 ks -> keq k0 key = false) ->
             group keq ks key l0 = []).
  { intros ks. induction ks as [|k0 ks IH]; intros [|a l0] Hks;
      try reflexivity.
    rewrite group_cons, (Hks k0) by now left.
    apply IH. intros k1 Hk1. apply Hks. now right. }
  split; [|now apply H].
  apply H. intros k0 Hk0. apply In_permute in Hk0 as (n & _ & Hn).
  apply Hno. eapply nth_error_In. exact Hn.
Qed.

(** [forward] on a selection of whole groups of edges: the rows of the
    nodes whose incoming edges are selected, and of the nodes without
    incoming edge, are those of the call on all edges. *)
Lemma forward_select self x edge_index edge_type edge_attr raw keep p r
      self' :
  whole_groups Nat.eqb p (snd edge_index) ->
  Forall (fun n => n < length (snd edge_index)) p ->
  is_additive (hp self) || is_multiplicative (hp self) = true ->
  edge_lists_agree edge_index edge_type edge_attr ->
  length keep = length (snd edge_index) ->
  forward self x edge_index edge_type edge_attr raw keep = (inr r, self') ->
  exists out',
    forward self x (permute_edges p edge_index) (permute p edge_type)
            (permute_attr p edge_attr) raw (permute p keep)
    = (inr (with_out out' (permute_result p r)), self')
    /\ forall i,
         In i (permute p (snd edge_index)) \/ ~ In i (snd edge_index) ->
         nth i out' [] = nth i (out_of r) [].
Proof.
  intros Hsel Hp Hmode (Lst & Lt & La) Lk H.
  destruct (forward_inv _ _ _ _ _ _ _ H)
    as (xi & xj & msgs & alpha & Hj & Hi & Hm & -> & ->).
  pose proof Hi as Lxi. apply index_select_length in Lxi.
  pose proof Hj as Lxj. apply index_select_length in Lxj.
  pose proof Hm as Hm'.
  apply message_select with (p := p) (E := length (snd edge_index)) in Hm';
    try assumption; try reflexivity; [|cbn [rows]; lia].
  destruct Hm' as [Hm' Lm].
  exists (update self (aggregate self (permute p msgs)
                                 (permute p (snd edge_index))
                                 (length (rows x)))).
  split.
  - unfold forward, propagate. cbn [permute_edges fst snd].
    rewrite index_select_permute with (l := xj) by assumption.
    rewrite index_select_permute with (l := xi) by assumption.
    change {| x_dtype := x_dtype x; rows := permute p xi |}
      with (permute_features p {| x_dtype := x_dtype x; rows := xi |}).
    change {| x_dtype := x_dtype x; rows := permute p xj |}
      with (permute_features p {| x_dtype := x_dtype x; rows := xj |}).
    rewrite Hm'. cbn [_alpha set_alpha].
    change (aggregate (set_alpha ?a self)) with (aggregate self).
    change (update (set_alpha ?a self)) with (update self).
    destruct raw; reflexivity.
  - intros i Hin.
    assert (Hout : out_of (let out := update self
                                        (aggregate self msgs (snd edge_index)
                                                   (length (rows x))) in
                           match raw with
                           | Some _ => OutAttention out edge_index alpha
                           | None => Out out
                           end)
                   = update self (aggregate self msgs (snd edge_index)
                                            (length (rows x)))).
    { cbn zeta. now destruct raw. }
    rewrite Hout. apply update_nth; [now rewrite !aggregate_length|].
    destruct (Nat.lt_ge_cases i (length (rows x))) as [Hlt|Hge].
    + rewrite !aggregate_row by assumption.
      destruct Hin as [Hin|Hin].
      * apply vsum_perm. apply group_select; try assumption. lia.
      * destruct (@group_empty_select _ _ Nat.eqb p (snd edge_index) i msgs)
          as [-> ->]; [lia | | reflexivity].
        intros k0 Hk0. apply Nat.eqb_neq. intros ->. contradiction.
    + rewrite !nth_overflow; try reflexivity;
        rewrite aggregate_length; lia.
Qed.

Lemma edges_into_whole (keepnode : nat -> bool) (index : list nat) :
  whole_groups Nat.eqb (edges_into keepnode index) index
  /\ Forall (fun n => n < length index) (edges_into keepnode index).
Proof.
  unfold edges_into. split; [split|].
  - apply NoDup_filter, seq_NoDup.
  - intros n n' a b Hn Ha Hb Heq.
    apply filter_In in Hn as [_ Hn]. rewrite Ha in Hn.
    apply Nat.eqb_eq in Heq. subst b.
    apply filter_In. split.
    + apply in_seq. split; [lia|]. simpl. apply nth_error_Some. congruence.
    + now rewrite Hb.
  - apply Forall_forall. intros n Hn.
    apply filter_In in Hn as [Hn _]. apply in_seq in Hn. lia.
Qed.

Lemma edges_into_covers (keepnode : nat -> bool) (index : list nat) (i : nat) :
  keepnode i = true ->
  In i (permute (edges_into keepnode index) index) \/ ~ In i index.
Proof.
  intros Hk. destruct (in_dec Nat.eq_dec i index) as [Hin|Hin];
    [left | now right].
  apply In_nth_error in Hin as [n Hn].
  apply In_permute. exists n. split; [|exact Hn].
  unfold edges_into. apply filter_In. split.
  - apply in_seq. split; [lia|]. simpl. apply nth_error_Some. congruence.
  - now rewrite Hn.
Qed.

(** X22: the output row of a node depends only on the edges that point
    into it.  When every edge whose target is outside a set of nodes is
    removed (from [edge_index], [edge_type], [edge_attr] and the dropout
    mask), [forward] returns the same rows for the nodes of the set, the
    same attention weights for the edges that remain, and leaves the same
    layer. *)
Theorem forward_depends_on_incoming_edges
        (self : t) (x : features) (edge_index : edge_index_tensor)
        (edge_type : list nat) (edge_attr : option edge_attr_tensor)
        (raw : option bool) (keep : list (list bool))
        (keepnode : nat -> bool) (r : forward_result) (self' : t) :
  is_additive (hp self) || is_multiplicative (hp self) = true ->
  edge_lists_agree edge_index edge_type edge_attr ->
  length keep = length (snd edge_index) ->
  forward self x edge_index edge_type edge_attr raw keep = (inr r, self') ->
  exists out',
    forward self x
            (permute_edges (edges_into keepnode (snd edge_index)) edge_index)
            (permute (edges_into keepnode (snd edge_index)) edge_type)
            (permute_attr (edges_into keepnode (snd edge_index)) edge_attr)
            raw
            (permute (edges_into keepnode (snd edge_index)) keep)
    = (inr (with_out out'
              (permute_result (edges_into keepnode (snd edge_index)) r)),
       self')
    /\ forall i, keepnode i = true -> nth i out' [] = nth i (out_of r) [].
Proof.
  intros Hmode Hagree Lk H.
  destruct (edges_into_whole keepnode (snd edge_index)) as [Hsel Hp].
  destruct (@forward_select self x edge_index edge_type edge_attr raw keep
              (edges_into keepnode (snd edge_index)) r self'
              Hsel Hp Hmode Hagree Lk H) as (out' & Hf & Hrows).
  exists out'. split; [exact Hf|].
  intros i Hi. apply Hrows. now apply edges_into_covers.
Qed.

Lemma forward_depends_on_incoming_edges_witness :
  exists r self' out',
    forward (tiny_layer (tiny_config "across-relation" None)) tiny_x
            fork_edges fork_types None (Some true) fork_mask
    = (inr r, self')
    /\ forward (tiny_layer (tiny_config "across-relation" None)) tiny_x
               ([0; 1], [1; 1]) [0; 1] None (Some true) [[true]; [true]]
       = (inr (with_out out' (permute_result [0; 1] r)), self')
    /\ nth 1 out' [] = nth 1 (out_of r) [].
Proof.
  assert (H : exists r self',
             forward (tiny_layer (tiny_config "across-relation" None)) tiny_x
                     fork_edges fork_types None (Some true) fork_mask
             = (inr r, self')).
  { eexists. eexists. reflexivity. }
  destruct H as (r & self' & H). exists r, self'.
  destruct (@forward_depends_on_incoming_edges
              (tiny_layer (tiny_config "across-relation" None)) tiny_x
              fork_edges fork_types None (Some true) fork_mask only_node_1
              r self') as (out' & Hf & Hrows).
  - reflexivity.
  - repeat split.
  - reflexivity.
  - exact H.
  - exists out'. split; [exact H|]. split; [exact Hf|].
    apply Hrows. reflexivity.
Defined.


(** ** Locality: the features of other nodes *)

Lemma index_select_agree {A : Type} (t0 t1 : list A) (index : list nat) :
  Forall (fun j => nth_error t0 j = nth_error t1 j) index ->
  index_select t0 index = index_select t1 index.
Proof.
  induction 1 as [|j index Hj _ IH]; [reflexivity|].
  simpl. now rewrite Hj, IH.
Qed.

Lemma permute_Forall {A : Type} (P : A -> Prop) (p : list nat) (l : list A) :
  (forall n a, In n p -> nth_error l n = Some a -> P a) ->
  Forall P (permute p l).
Proof.
  intros H. apply Forall_forall. intros a Ha.
  apply In_permute in Ha as (n & Hn & Hna). eapply H; eassumption.
Qed.

(** X23: the output row of node [i] depends only on the features of [i]
    and of the sources of the edges into [i].  Two calls on feature
    tensors of one element type and one number of rows that agree on those
    nodes return the same row for [i]. *)
Theorem forward_row_receptive_field
        (self : t) (x x' : features) (edge_index : edge_index_tensor)
        (edge_type : list nat) (edge_attr : option edge_attr_tensor)
        (raw : option bool) (keep : list (list bool)) (i : nat)
        (r r' : forward_result) (s s' : t) :
  is_additive (hp self) || is_multiplicative (hp self) = true ->
  edge_lists_agree edge_index edge_type edge_attr ->
  length keep = length (snd edge_index) ->
  x_dtype x = x_dtype x' ->
  length (rows x) = length (rows x') ->
  nth_error (rows x) i = nth_error (rows x') i ->
  (forall n j, nth_error (snd edge_index) n = Some i ->
               nth_error (fst edge_index) n = Some j ->
               nth_error (rows x) j = nth_error (rows x') j) ->
  forward self x edge_index edge_type edge_attr raw keep = (inr r, s) ->
  forward self x' edge_index edge_type edge_attr raw keep = (inr r', s') ->
  nth i (out_of r) [] = nth i (out_of r') [].
Proof.
  intros Hmode Hagree Lk Hdt Hlen Hi Hsrc H H'.
  set (p := edges_into (Nat.eqb i) (snd edge_index)).
  destruct (edges_into_whole (Nat.eqb i) (snd edge_index)) as [Hsel Hp].
  fold p in Hsel, Hp.
  destruct (@forward_select self x edge_index edge_type edge_attr raw keep
              p r s Hsel Hp Hmode Hagree Lk H) as (out & Hf & Hrows).
  destruct (@forward_select self x' edge_index edge_type edge_attr raw keep
              p r' s' Hsel Hp Hmode Hagree Lk H') as (out' & Hf' & Hrows').
  assert (Hin : forall n, In n p -> nth_error (snd edge_index) n = Some i).
  { intros n Hn. unfold p, edges_into in Hn.
    apply filter_In in Hn as [_ Hn].
    destruct (nth_error (snd edge_index) n) as [t0|]; [|discriminate].
    apply Nat.eqb_eq in Hn. now subst. }
  assert (Hsame : forward self x (permute_edges p edge_index)
                          (permute p edge_type) (permute_attr p edge_attr)
                          raw (permute p keep)
                  = forward self x' (permute_edges p edge_index)
                            (permute p edge_type) (permute_attr p edge_attr)
                            raw (permute p keep)).
  { unfold forward, propagate. cbn [permute_edges fst snd].
    rewrite (@index_select_agree _ (rows x) (rows x')
               (permute p (fst edge_index))).
    2:{ apply permute_Forall. intros n j Hn Hj.
        apply (Hsrc n j); [now apply Hin | exact Hj]. }
    rewrite (@index_select_agree _ (rows x) (rows x')
               (permute p (snd edge_index))).
    2:{ apply permute_Forall. intros n j Hn Hj.
        rewrite (Hin n Hn) in Hj. inversion Hj. subst j. exact Hi. }
    now rewrite Hdt, Hlen. }
  rewrite Hf, Hf' in Hsame. inversion Hsame as [[Hr Hs]].
  assert (Hout : out = out').
  { destruct r, r'; cbn [with_out permute_result] in Hr;
      inversion Hr; reflexivity. }
  rewrite <- Hrows, <- Hrows', Hout.
  - reflexivity.
  - apply edges_into_covers. apply Nat.eqb_refl.
  - apply edges_into_covers. apply Nat.eqb_refl.
Qed.

Lemma forward_row_receptive_field_witness :
  exists r r' s s',
    forward (tiny_layer (tiny_config "across-relation" None)) tiny_x
            fork_edges fork_types None None fork_mask
    = (inr r, s)
    /\ forward (tiny_layer (tiny_config "across-relation" None)) tiny_x_other
               fork_edges fork_types None None fork_mask
       = (inr r', s')
    /\ nth 1 (out_of r) [] = nth 1 (out_of r') [].
Proof.
  assert (H : exists r s,
             forward (tiny_layer (tiny_config "across-relation" None)) tiny_x
                     fork_edges fork_types None None fork_mask
             = (inr r, s)).
  { eexists. eexists. reflexivity. }
  assert (H' : exists r s,
             forward (tiny_layer (tiny_config "across-relation" None))
                     tiny_x_other fork_edges fork_types None None fork_mask
             = (inr r, s)).
  { eexists. eexists. reflexivity. }
  destruct H as (r & s & H). destruct H' as (r' & s' & H').
  exists r, r', s, s'. split; [exact H|]. split; [exact H'|].
  apply (@forward_row_receptive_field
           (tiny_layer (tiny_config "across-relation" None)) tiny_x
           tiny_x_other fork_edges fork_types None None fork_mask 1
           r r' s s').
  - reflexivity.
  - repeat split.
  - reflexivity.
  - reflexivity.
  - reflexivity.
  - reflexivity.
  - intros [|[|[|n]]] j Hn Hj; simpl in Hn, Hj.
    + inversion Hj. reflexivity.
    + inversion Hj. reflexivity.
    + discriminate.
    + destruct n; discriminate.
  - exact H.
  - exact H'.
Defined.

(** ** Basis decomposition *)

Lemma vmul_as_map (n : nat) (u v : vector) :
  length u = n -> length v = n ->
  vmul u v = map (fun j => (nth j u 0 * nth j v 0)%R) (seq 0 n).
Proof.
  intros Hu Hv. apply nth_ext with (d := 0%R) (d' := 0%R).
  - unfold vmul. rewrite map2_length, length_map, length_seq. lia.
  - unfold vmul. rewrite map2_length. intros j Hj.
    rewrite nth_map_seq by lia.
    now rewrite map2_nth with (da := 0%R) (db := 0%R) by lia.
Qed.

Lemma nth_blocks {A : Type} (k n : nat) (l : list A) (i o : nat) (d : A) :
  i < k -> o < n ->
  nth o (nth i (blocks k n l) []) d = nth (i * n + o) l d.
Proof.
  revert l i. induction k as [|k IH]; intros l i Hi Ho; [lia|].
  destruct i as [|i]; cbn [blocks nth].
  - destruct (Nat.lt_ge_cases o (length l)) as [Hl|Hl].
    + rewrite <- (firstn_skipn n l) at 2.
      rewrite app_nth1; [reflexivity|]. rewrite length_firstn. lia.
    + rewrite !nth_overflow; try reflexivity; [lia|].
      rewrite length_firstn. lia.
  - rewrite IH by lia.
    destruct (Nat.le_gt_cases n (length l)) as [Hl|Hl].
    + rewrite <- (firstn_skipn n l) at 2.
      rewrite app_nth2; rewrite length_firstn, Nat.min_l by lia; [|lia].
      f_equal. lia.
    + rewrite skipn_all2 by lia. rewrite nth_overflow by (simpl; lia).
      rewrite nth_overflow; [reflexivity|]. simpl. lia.
Qed.

Lemma nth_concat_shape (d1 d2 : nat) (m : matrix) (i o : nat) :
  shape2 d1 d2 m -> i < d1 -> o < d2 ->
  nth (i * d2 + o) (List.concat m) 0%R = nth o (nth i m []) 0%R.
Proof.
  revert d1 i. induction m as [|row m IH]; intros d1 i [Hl Hr] Hi Ho.
  - simpl in Hl. lia.
  - assert (Hrow : length row = d2) by (apply Hr; now left).
    cbn [List.concat]. destruct i as [|i].
    + cbn [nth]. rewrite app_nth1 by lia. reflexivity.
    + rewrite app_nth2 by lia. cbn [nth].
      replace (S i * d2 + o - length row) with (i * d2 + o) by lia.
      apply (IH (length m)); [|simpl in Hl; lia|exact Ho].
      split; [reflexivity|]. intros r0 Hr0. apply Hr. now right.
Qed.

(** X24: with basis-decomposition the weight of relation [r] that
    [message] rebuilds on lines 195-197 is the combination of the bases
    with the coefficients of the relation: its entry [(i, o)] is the sum
    over the bases [n] of [att[r][n] * basis[n][i][o]]. *)
Theorem basis_weight_is_combination
        (self : t) (nb : nat) (a : matrix) (b : tensor3) (r i o : nat) :
  num_bases (hp self) = Some nb ->
  att self = Some a -> basis self = Some b ->
  shape2 (num_relations (hp self)) nb a ->
  shape3 nb (in_channels (hp self))
         (heads (hp self) * out_channels (hp self)) b ->
  0 < nb ->
  r < num_relations (hp self) -> i < in_channels (hp self) ->
  o < heads (hp self) * out_channels (hp self) ->
  exists wt,
    basis_weight self = inr (Some wt)
    /\ length wt = num_relations (hp self)
    /\ nth o (nth i (nth r wt []) []) 0%R
       = Rsum (map (fun n => (nth n (nth r a []) 0
                              * nth o (nth i (nth n b []) []) 0)%R)
                   (seq 0 nb)).
Proof.
  intros Hnb Ha Hb [La Ra] [Lb Rb] Hpos Hr Hi Ho.
  unfold basis_weight. rewrite Hnb, Ha, Hb. cbn [ret].
  eexists. split; [reflexivity|].
  split; [now rewrite length_map, matmul_length|].
  set (I := in_channels (hp self)) in *.
  set (HO := heads (hp self) * out_channels (hp self)) in *.
  set (M := map (@List.concat R) b).
  assert (LM : length M = nb) by (unfold M; now rewrite length_map).
  assert (Hc : ncols M = I * HO).
  { unfold ncols, M. destruct b as [|b0 b']; [simpl in Lb; lia|].
    cbn [map hd]. destruct (Rb b0 (or_introl eq_refl)) as [L0 R0].
    rewrite concat_length_const with (n := HO) by exact R0.
    now rewrite L0. }
  assert (Hio : i * HO + o < I * HO) by nia.
  rewrite nth_map_lt with (da := @nil R) by (rewrite matmul_length; lia).
  rewrite nth_blocks by assumption.
  unfold matmul. rewrite nth_map_lt with (da := @nil R) by lia.
  unfold vecmat. rewrite Hc, nth_map_seq by assumption.
  unfold dot.
  rewrite vmul_as_map with (n := nb).
  - f_equal. apply map_ext_in. intros n Hn. apply in_seq in Hn.
    f_equal. unfold col.
    rewrite nth_map_lt with (da := @nil R) by lia.
    unfold M. rewrite nth_map_lt with (da := @nil (list R)) by lia.
    apply nth_concat_shape with (d1 := I); try assumption.
    apply Rb. apply nth_In. lia.
  - apply Ra. apply nth_In. lia.
  - unfold col. now rewrite length_map.
Qed.

Lemma basis_weight_is_combination_witness :
  exists wt,
    basis_weight tiny_basis_layer = inr (Some wt)
    /\ length wt = 1
    /\ nth 0 (nth 0 (nth 0 wt []) []) 0%R
       = Rsum (map (fun n => (nth n [1; 2] 0
                              * nth 0 (nth 0 (nth n [[[1]]; [[10]]] []) [])
                                    0)%R)
                   (seq 0 2)).
Proof.
  apply (@basis_weight_is_combination tiny_basis_layer 2 [[1%R; 2%R]]
           [[[1%R]]; [[10%R]]] 0 0 0).
  - reflexivity.
  - reflexivity.
  - reflexivity.
  - split; [reflexivity|]. intros row [<-|[]]. reflexivity.
  - split; [reflexivity|].
    intros m [<-|[<-|[]]]; (split; [reflexivity|]);
      intros row [<-|[]]; reflexivity.
  - lia.
  - simpl. lia.
  - simpl. lia.
  - simpl. lia.
Defined.

(** ** Within-relation coefficients, summed over a node *)

Lemma Rsum_indicator (t0 : nat) (v : R) (rs : list nat) :
  NoDup rs -> In t0 rs ->
  Rsum (map (fun r => if t0 =? r then v else 0%R) rs) = v.
Proof.
  induction 1 as [|r rs Hr Hnd IH]; intros Hin; [contradiction|].
  cbn [map Rsum fold_right]. fold (Rsum (map (fun r0 => if t0 =? r0 then v else 0%R) rs)).
  destruct (Nat.eqb_spec t0 r) as [->|Hne].
  - assert (Hz : Rsum (map (fun r0 => if r =? r0 then v else 0%R) rs) = 0%R).
    { clear IH Hin Hnd. induction rs as [|r1 rs IH]; [reflexivity|].
      cbn [map Rsum fold_right].
      fold (Rsum (map (fun r0 => if r =? r0 then v else 0%R) rs)).
      destruct (Nat.eqb_spec r r1) as [->|_].
      - exfalso. apply Hr. now left.
      - rewrite IH; [lra|]. intros H. apply Hr. now right. }
    rewrite Hz. lra.
  - destruct Hin as [->|Hin]; [congruence|]. rewrite (IH Hin). lra.
Qed.

Lemma Rsum_map_plus {A : Type} (f g : A -> R) (l : list A) :
  Rsum (map (fun a => (f a + g a)%R) l)
  = (Rsum (map f l) + Rsum (map g l))%R.
Proof.
  induction l as [|a l IH]; simpl; [lra|].
  fold (Rsum (map (fun a0 => (f a0 + g a0)%R) l)).
  fold (Rsum (map f l)). fold (Rsum (map g l)). rewrite IH. lra.
Qed.

(** A sum over tagged values is the sum, over the tags, of the sums of the
    values of each tag. *)
Lemma Rsum_by_tag (G : list (nat * R)) (rs : list nat) :
  NoDup rs -> incl (map fst G) rs ->
  Rsum (map snd G)
  = Rsum (map (fun r => Rsum (map snd (filter (fun g => fst g =? r) G)))
              rs).
Proof.
  intros Hnd. induction G as [|[t0 v] G IH]; intros Hincl.
  - transitivity 0%R; [reflexivity|]. clear.
    induction rs as [|r rs IHr]; [reflexivity|].
    simpl in *. rewrite <- IHr. lra.
  - cbn [map Rsum fold_right]. fold (Rsum (map snd G)).
    rewrite IH by (intros r Hr; apply Hincl; now right).
    transitivity
      (Rsum (map (fun r => ((if t0 =? r then v else 0)
                            + Rsum (map snd
                                        (filter (fun g => fst g =? r) G)))%R)
                 rs)).
    + rewrite Rsum_map_plus, Rsum_indicator; [cbn [snd]; lra | assumption|].
      apply Hincl. now left.
    + f_equal. apply map_ext. intros r. cbn [filter fst].
      destruct (t0 =? r); cbn [map snd Rsum fold_right]; [reflexivity|].
      fold (Rsum (map snd (filter (fun g : nat * R => fst g =? r) G))).
      lra.
Qed.

Lemma group_pair_as_filter (edge_type index : list nat) (v : vector)
      (r i : nat) :
  length edge_type = length index ->
  group pair_eqb (combine edge_type index) (r, i) v
  = map snd (filter (fun g => fst g =? r)
                    (group Nat.eqb index i (combine edge_type v))).
Proof.
  revert index v.
  induction edge_type as [|ty edge_type IH]; intros [|j index] v Hl;
    try discriminate.
  - reflexivity.
  - destruct v as [|a v].
    + cbn [combine]. now rewrite !group_nil_r.
    + cbn [combine]. rewrite !group_cons.
      unfold pair_eqb at 1. cbn [fst snd].
      destruct (j =? i); destruct (ty =? r) eqn:Hty; cbn [andb].
      * cbn [filter fst]. rewrite Hty. cbn [map snd]. f_equal.
        apply IH. simpl in Hl. lia.
      * cbn [filter fst]. rewrite Hty. apply IH. simpl in Hl. lia.
      * apply IH. simpl in Hl. lia.
      * apply IH. simpl in Hl. lia.
Qed.

Lemma map_snd_combine {A B : Type} (la : list A) (lb : list B) :
  length la = length lb -> map snd (combine la lb) = lb.
Proof.
  revert lb. induction la as [|a la IH]; intros [|b lb] H;
    try discriminate; [reflexivity|].
  simpl. f_equal. apply IH. simpl in H. lia.
Qed.

Lemma map_fst_combine {A B : Type} (la : list A) (lb : list B) :
  length la = length lb -> map fst (combine la lb) = la.
Proof.
  revert lb. induction la as [|a la IH]; intros [|b lb] H;
    try discriminate; [reflexivity|].
  simpl. f_equal. apply IH. simpl in H. lia.
Qed.

Lemma in_group_key (index edge_type : list nat) (r i : nat) :
  In r (group Nat.eqb index i edge_type) ->
  In (r, i) (combine edge_type index).
Proof.
  revert edge_type. induction index as [|j index IH]; intros [|ty edge_type];
    try (rewrite ?group_nil_r; simpl; tauto).
  rewrite group_cons. simpl combine.
  destruct (Nat.eqb_spec j i) as [->|Hne].
  - intros [->|Hin]; [now left | right; now apply IH].
  - intros Hin. right. now apply IH.
Qed.

Lemma Rsum_ones {A : Type} (l : list A) :
  Rsum (map (fun _ => 1%R) l) = INR (length l).
Proof.
  induction l as [|a l IH]; [reflexivity|].
  cbn [map length]. rewrite S_INR, <- IH. unfold Rsum. simpl. lra.
Qed.

(** X25: with the within-relation scope the coefficients of all edges into
    a node [i] do not add up to 1 but to the number of distinct relations
    among these edges, in every column (0 for a node without incoming
    edge). *)
Theorem within_relation_sums_count_relations
        (self : t) (x : features) (edge_index : edge_index_tensor)
        (edge_type : list nat) (edge_attr : option edge_attr_tensor)
        (b : bool) (keep : list (list bool))
        (out : matrix) (edge_index' : edge_index_tensor) (alpha : matrix)
        (self' : t) :
  attention_mechanism (hp self) = "within-relation"%string ->
  well_shaped self ->
  edge_lists_agree edge_index edge_type edge_attr ->
  forward self x edge_index edge_type edge_attr (Some b) keep
  = (inr (OutAttention out edge_index' alpha), self') ->
  forall i c,
    c < heads (hp self) * dim (hp self) ->
    Rsum (group Nat.eqb (snd edge_index) i (col c alpha))
    = INR (length (nodup Nat.eq_dec
                         (group Nat.eqb (snd edge_index) i edge_type))).
Proof.
  intros Hmech Hwf Hagree H i c Hc.
  destruct (forward_attention_inv _ _ _ Hwf Hagree H)
    as (logits & msgs & Hrows & Hlen & Halpha & Hty & _).
  destruct Hagree as (_ & Lt & _).
  rewrite normalize_closed in Halpha by (assumption || lia).
  rewrite Hmech, String.eqb_refl in Halpha.
  set (index := snd edge_index) in *.
  set (v := col c alpha).
  assert (Lv : length v = length index).
  { unfold v, col. rewrite length_map, Halpha, grouped_softmax_length,
      length_combine. lia. }
  set (G := group Nat.eqb index i (combine edge_type v)).
  assert (HG2 : map snd G = group Nat.eqb index i v).
  { unfold G. rewrite <- group_map, map_snd_combine by lia. reflexivity. }
  assert (HG1 : map fst G = group Nat.eqb index i edge_type).
  { unfold G. rewrite <- group_map, map_fst_combine by lia. reflexivity. }
  rewrite <- HG2.
  rewrite Rsum_by_tag
    with (rs := nodup Nat.eq_dec (group Nat.eqb index i edge_type)).
  - rewrite <- Rsum_ones. f_equal. apply map_ext_in. intros r Hr.
    apply nodup_In in Hr.
    unfold G. rewrite <- group_pair_as_filter by lia.
    unfold v. rewrite Halpha.
    apply grouped_softmax_sums_to_one.
    + apply pair_eqb_spec.
    + rewrite length_combine. lia.
    + intros row Hrow. rewrite (Hrows row Hrow). exact Hc.
    + now apply in_group_key.
  - apply NoDup_nodup.
  - rewrite HG1. intros r Hr. now apply nodup_In.
Qed.

Lemma within_relation_sums_count_relations_witness :
  exists out alpha,
    fst (forward (tiny_layer (tiny_config "within-relation" None)) tiny_x
                 tiny_edges tiny_types None (Some true) [])
    = inr (OutAttention out tiny_edges alpha)
    /\ Rsum (group Nat.eqb [1; 1] 1 (col 0 alpha)) = 2%R.
Proof.
  eexists. eexists. split; [reflexivity|].
  pose proof (@within_relation_sums_count_relations
                (tiny_layer (tiny_config "within-relation" None)) tiny_x
                tiny_edges tiny_types None true [] _ _ _ _ eq_refl
                (proj2 (tiny_layer_well_shaped None))
                (conj eq_refl (conj eq_refl I)) eq_refl 1 0) as Hsum.
  etransitivity; [apply Hsum; simpl; lia|].
  simpl. lra.
Defined.


(** ** The scaled modulation on a fresh layer *)




















(** ** The additive modulation on a fresh layer *)
















(** ** The model: indices out of range *)

(** X28: the encoder checks its indices through the gathers.  On a model
    that the constructor built (positive sizes), a node number that is not
    below [num_nodes], an edge end that is not a position of [x], or a
    relation number that is not below [2 * num_edge_type] makes
    [RGAT.forward] raise [IndexError] and leaves the model as it was. *)
Theorem encoder_raises_on_index_out_of_range
        (mem draw : string -> string -> list nat -> R) (a : RGAT.args)
        (num_nodes num_edge_type : nat) (m : RGAT.t) (x : list nat)
        (edge : edge_index_tensor) (edge_type : list nat) (b : bool)
        (keep1 keep2 : list (list bool)) :
  RGAT.__init__ mem draw a num_nodes num_edge_type = inr m ->
  0 < RGAT.in_dim a -> 0 < RGAT.hidden_dim a -> 0 < RGAT.out_dim a ->
  Exists (fun i => num_nodes <= i) x
  \/ Exists (fun i => length x <= i) (fst edge)
  \/ Exists (fun i => length x <= i) (snd edge)
  \/ Exists (fun ty => 2 * num_edge_type <= ty) edge_type ->
  RGAT.forward m x edge edge_type b keep1 keep2 = (inl IndexError, m).
Proof.
  intros Hinit _ Hhid _ Hbad.
  destruct (rgat_init_inv _ _ _ _ _ Hinit) as (H1 & _ & Hemb & _).
  unfold RGAT.forward.
  destruct (index_select (RGAT.node_emb m) x) as [err|emb] eqn:Hsel.
  { now rewrite (index_select_raises_IndexError _ _ Hsel). }
  pose proof (index_select_length _ _ Hsel) as Lemb.
  assert (Hc1 : forward (RGAT.conv1 m) {| x_dtype := float; rows := emb |}
                        edge edge_type None None keep1
                = (inl IndexError, RGAT.conv1 m)).
  { destruct (forward_index_errors (RGAT.conv1 m)
                {| x_dtype := float; rows := emb |} edge edge_type None None
                keep1) as [Hidx Hty].
    cbn [rows] in Hidx, Hty. rewrite Lemb in Hidx.
    destruct Hbad as [Hx|[Hs|[Hd|Ht]]].
    - assert (Hx' : Exists (fun i => length (RGAT.node_emb m) <= i) x).
      { rewrite Hemb, (proj1 (Tensor2_shape _ _ _)). exact Hx. }
      apply index_select_out_of_range in Hx'. congruence.
    - apply Hidx. now left.
    - apply Hidx. now right.
    - apply Hty.
      + eapply init_weights_present. exact H1.
      + reflexivity.
      + destruct (init_well_shaped _ _ _ H1) as [Hc (_ & _ & _ & _ & Hax)].
        { cbn [RGAT.conv_config heads out_channels]. lia. }
        rewrite Hax, Hc. cbn [RGAT.conv_config num_relations].
        eapply Exists_impl; [|exact Ht]. cbn beta. intros; lia. }
  rewrite Hc1. now rewrite set_convs_id.
Qed.

Lemma encoder_raises_on_index_out_of_range_witness :
  exists m,
    RGAT.__init__ mem1 mem1 even_args 3 21 = inr m
    /\ RGAT.forward m [0; 1; 2] tiny_edges [0; 42] false [] []
       = (inl IndexError, m).
Proof.
  destruct even_model_builds as [m Hm]. exists m. split; [exact Hm|].
  apply (@encoder_raises_on_index_out_of_range mem1 mem1 even_args 3 21 m
           [0; 1; 2] tiny_edges [0; 42] false [] [] Hm).
  - simpl. lia.
  - simpl. lia.
  - simpl. lia.
  - right. right. right. apply Exists_cons_tl. apply Exists_cons_hd. lia.
Defined.
